(** * Growing plants in simulated microgravity: the growth engine

    A shallow embedding of the segment-chain growth model ([Segment],
    [Plant]) and of the simulation driver ([startExperiment], [animate],
    [recordPoint], ...) of [src/script.js], and of the parts of the second
    version of the program, [src/unnamed/part_000], that bear on angles.

    Numbers.  JavaScript numbers are modelled as exact rationals ([Q]):
    every finite double is a rational, [Math.PI] is the rational it denotes,
    and the arithmetic of the model is exact where the machine rounds.
    [Qred] only normalises the representation of a rational, it never
    changes its value ([Qred_correct]).  The machine's result of a sum or
    a product is off by a relative error of at most 2^-53, so a bound that
    the exact value only just meets is stated with room for that error.
    Where the rounding itself decides what the code does (a loop that no
    longer moves a large double, a quotient that is not a number), the
    numbers are modelled as the machine has them: [Binary64] for
    [angleDiff], [Zoom.Number] for the zoom.

    Randomness.  [Math.random()] reads the next value of a stream of
    draws; the stream and the position in it are the state threaded
    through the code.  Theorems quantify over every stream.

    Object graph.  A segment owns its children, so a tree of segments is an
    inductive tree.  The back-reference [this.parent] is used for two things
    only, [getDepth()] and the [angle] getter; both walk the chain of
    ancestors, which the recursion passes down as the list of the ancestors'
    [(isRoot, angleOffset)] pairs, nearest ancestor first.

    Recursion.  [Segment.grow] calls itself on children it has just
    created, so its recursion is not structural; it is bounded by a number
    of nested calls, and [growFuel] is shown to be enough for every tree
    ([grow_total], [update_total]).  The two loops of [angleDiff] are bounded
    in the same way ([angleDiff_spec]).

    Time.  [Date.now()] is an argument of the functions that read it.

    Presentation (canvas, chart, table, camera, theme) reads the
    simulation state and is left out; of the page, the controls that the
    driver enables and disables, the observation log and the zoom are
    kept. *)

From Stdlib Require Import List ZArith QArith Qabs Qround Qminmax Lia Lqa Bool String.
From Stdlib Require PrimFloat.
Import ListNotations.

Set Warnings "-register-all".
Open Scope Q_scope.

(** * Part I: the program *)

(** ** Plant varieties *)

Inductive Variety := cress | bean | arabidopsis | wheat.

Inductive LeafShape := oval | broad | lance | narrow.

Record VarietyParams := {
  stemWidth : Q;
  maxStemLen : Q;
  growthRate : Q;
  branchChance : Q;
  branchSpread : Q;
  leafShape : LeafShape;
  leafScale : Q;
  leafSpacing : Q;
  rootWidth : Q;
  rootGrowthRate : Q;
  maxRootLen : Q
}.

(** [const VARIETIES]; labels and colours are presentation. *)
Definition VARIETIES (variety : Variety) : VarietyParams :=
  match variety with
  | cress =>
      {| stemWidth := 2.2; maxStemLen := 240; growthRate := 0.055;
         branchChance := 0.28; branchSpread := 0.60;
         leafShape := oval; leafScale := 0.90; leafSpacing := 20;
         rootWidth := 1.6; rootGrowthRate := 0.040; maxRootLen := 120 |}
  | bean =>
      {| stemWidth := 5.8; maxStemLen := 300; growthRate := 0.030;
         branchChance := 0.10; branchSpread := 0.72;
         leafShape := broad; leafScale := 2.10; leafSpacing := 36;
         rootWidth := 3.8; rootGrowthRate := 0.025; maxRootLen := 160 |}
  | arabidopsis =>
      {| stemWidth := 1.7; maxStemLen := 190; growthRate := 0.048;
         branchChance := 0.38; branchSpread := 0.95;
         leafShape := lance; leafScale := 0.68; leafSpacing := 15;
         rootWidth := 1.1; rootGrowthRate := 0.050; maxRootLen := 145 |}
  | wheat =>
      {| stemWidth := 2.1; maxStemLen := 280; growthRate := 0.042;
         branchChance := 0.05; branchSpread := 0.18;
         leafShape := narrow; leafScale := 1.15; leafSpacing := 28;
         rootWidth := 1.5; rootGrowthRate := 0.032; maxRootLen := 110 |}
  end.

(** ** Comparisons of numbers as booleans *)

Definition Qltb (a b : Q) : bool := if Qlt_le_dec a b then true else false.
Definition Qgeb (a b : Q) : bool := if Qlt_le_dec a b then false else true.
Definition Qgtb (a b : Q) : bool := Qltb b a.
Definition Qis0 (a : Q) : bool := Qeq_bool a 0.

(** ** Math.random and the monad of the model

    A computation reads random draws and may run out of recursion budget. *)

Record Rand := { draws : nat -> Q; cursor : nat }.

Definition M (A : Type) : Type := Rand -> option (A * Rand).

Definition ret {A} (a : A) : M A := fun r => Some (a, r).

Definition bind {A B} (m : M A) (k : A -> M B) : M B :=
  fun r => match m r with
           | Some (a, r') => k a r'
           | None => None
           end.

Definition out_of_fuel {A} : M A := fun _ => None.

Definition lift {A} (o : option A) : M A :=
  fun r => match o with Some a => Some (a, r) | None => None end.

Notation "x <- m ;; k" := (bind m (fun x => k))
  (at level 61, m at next level, right associativity).

Definition Math_random : M Q :=
  fun r => Some (draws r (cursor r),
                 {| draws := draws r; cursor := S (cursor r) |}).

(** [for (const c of cs) f(c)], collecting the updated elements. *)
Fixpoint forEach {A B} (f : A -> M B) (cs : list A) : M (list B) :=
  match cs with
  | [] => ret []
  | c :: cs' => c' <- f c ;; cs'' <- forEach f cs' ;; ret (c' :: cs'')
  end.

(** ** Utilities of script.js *)

(** [Math.PI], the double nearest to pi, as the rational it is. *)
Definition Math_PI : Q := 884279719003555 # 281474976710656.

(** [while (d > Math.PI) d -= 2 * Math.PI;] with a bound on the number of
    tests of the loop condition; [None] when the bound is reached. *)
Fixpoint while_above (fuel : nat) (d : Q) : option Q :=
  match fuel with
  | O => None
  | S fuel' =>
      if Qlt_le_dec Math_PI d then while_above fuel' (d - 2 * Math_PI)
      else Some d
  end.

(** [while (d < -Math.PI) d += 2 * Math.PI;] *)
Fixpoint while_below (fuel : nat) (d : Q) : option Q :=
  match fuel with
  | O => None
  | S fuel' =>
      if Qlt_le_dec d (- Math_PI) then while_below fuel' (d + 2 * Math_PI)
      else Some d
  end.

Definition angleDiff_fuel (fuel : nat) (a b : Q) : option Q :=
  match while_above fuel (a - b) with
  | Some d => while_below fuel d
  | None => None
  end.

(** Enough tests for both loops: one more than the number of whole turns
    in [|a - b|]. *)
Definition angleDiff_bound (a b : Q) : nat :=
  S (Z.to_nat (Qceiling (Qabs (a - b) / (2 * Math_PI)))).

(** [function angleDiff(a, b)] *)
Definition angleDiff (a b : Q) : option Q :=
  angleDiff_fuel (angleDiff_bound a b) a b.

(** [function angleDiff(a, b)] on IEEE binary64 numbers, as the machine
    runs it: every difference and sum is rounded to the nearest double.
    [fuel] bounds the number of tests of each loop condition; [None] when
    the bound is reached. *)
Module Binary64.
Import PrimFloat.
Local Open Scope float_scope.

(** [Math.PI] *)
Definition Math_PI : float := 0x1.921fb54442d18p+1.

(** [while (d > Math.PI) d -= 2 * Math.PI;] *)
Fixpoint while_above (fuel : nat) (d : float) : option float :=
  match fuel with
  | O => None
  | S fuel' =>
      if Math_PI <? d then while_above fuel' (d - 2 * Math_PI) else Some d
  end.

(** [while (d < -Math.PI) d += 2 * Math.PI;] *)
Fixpoint while_below (fuel : nat) (d : float) : option float :=
  match fuel with
  | O => None
  | S fuel' =>
      if d <? - Math_PI then while_below fuel' (d + 2 * Math_PI) else Some d
  end.

Definition angleDiff (fuel : nat) (a b : float) : option float :=
  match while_above fuel (a - b) with
  | Some d => while_below fuel d
  | None => None
  end.

End Binary64.

(** [function dirToRad(dir)]: a table lookup, [?? 0] for any other key.
    The page passes ["top"], ["bottom"], ["left"], ["right"] and, guarded
    by the caller, ["none"]; the names that every JavaScript object
    inherits (such as ["constructor"]) are no keys of the model. *)
Definition dirToRad (dir : string) : Q :=
  if String.eqb dir "top" then - Math_PI / 2
  else if String.eqb dir "bottom" then Math_PI / 2
  else if String.eqb dir "left" then Math_PI
  else if String.eqb dir "right" then 0
  else 0.

(** ** class Segment *)

Module Segment.

Record Leaf := { position : Q; side : Z; size : Q }.

Inductive t := mk {
  isRoot : bool;
  variety : Variety;
  angleOffset : Q;
  isBranch : bool;
  targetLength : Q;
  length : Q;
  growing : bool;
  children : list t;
  leaves : list Leaf;
  nextLeafSide : Z;
  hasBranched : bool;
  baseWidth : Q
}.

(** What is read of an ancestor through [this.parent]. *)
Definition Link : Type := (bool * Q)%type.

Definition link (s : t) : Link := (isRoot s, angleOffset s).

(** Field updates of [this]. *)
Definition set_length (x : Q) (s : t) : t :=
  mk (isRoot s) (variety s) (angleOffset s) (isBranch s) (targetLength s)
     x (growing s) (children s) (leaves s) (nextLeafSide s) (hasBranched s)
     (baseWidth s).

Definition set_growing (x : bool) (s : t) : t :=
  mk (isRoot s) (variety s) (angleOffset s) (isBranch s) (targetLength s)
     (length s) x (children s) (leaves s) (nextLeafSide s) (hasBranched s)
     (baseWidth s).

Definition set_children (x : list t) (s : t) : t :=
  mk (isRoot s) (variety s) (angleOffset s) (isBranch s) (targetLength s)
     (length s) (growing s) x (leaves s) (nextLeafSide s) (hasBranched s)
     (baseWidth s).

Definition set_leaves (x : list Leaf) (s : t) : t :=
  mk (isRoot s) (variety s) (angleOffset s) (isBranch s) (targetLength s)
     (length s) (growing s) (children s) x (nextLeafSide s) (hasBranched s)
     (baseWidth s).

Definition set_nextLeafSide (x : Z) (s : t) : t :=
  mk (isRoot s) (variety s) (angleOffset s) (isBranch s) (targetLength s)
     (length s) (growing s) (children s) (leaves s) x (hasBranched s)
     (baseWidth s).

Definition set_hasBranched (x : bool) (s : t) : t :=
  mk (isRoot s) (variety s) (angleOffset s) (isBranch s) (targetLength s)
     (length s) (growing s) (children s) (leaves s) (nextLeafSide s) x
     (baseWidth s).

(** [getDepth()]: the number of ancestors. *)
Definition getDepth (parents : list Link) : nat := List.length parents.

(** [get angle()]: the canonical direction for a parentless segment (its
    own [angleOffset] is not read there), the parent's angle plus the
    offset otherwise. *)
Fixpoint angle_from (root_ : bool) (offset : Q) (parents : list Link) : Q :=
  match parents with
  | [] => if root_ then Math_PI / 2 else - Math_PI / 2
  | (proot, poffset) :: ancestors => angle_from proot poffset ancestors + offset
  end.

Definition angle (parents : list Link) (s : t) : Q :=
  angle_from (isRoot s) (angleOffset s) parents.

(** [constructor(parent, isRoot, variety, angleOffset = 0, isBranch = false)] *)
Definition new (parents : list Link) (root_ : bool) (variety_ : Variety)
    (offset : Q) (branch_ : bool) : M t :=
  u <- Math_random ;;
  let v := VARIETIES variety_ in
  let depth := getDepth parents in
  let gf := Qpower 0.62 (Z.of_nat depth) in
  let baseFactor := if root_ then rootWidth v else stemWidth v in
  let width := Qmax (baseFactor * gf) 0.5 in
  ret {| isRoot := root_;
         variety := variety_;
         angleOffset := offset;
         isBranch := branch_;
         targetLength := if root_ then 10 else 12;
         length := 0.1;
         growing := true;
         children := [];
         leaves := [];
         nextLeafSide := if Qltb u 0.5 then 1%Z else (-1)%Z;
         hasBranched := false;
         baseWidth := Qred (if branch_ then width * 0.7 else width) |}.

(** [_createBranch(gravity, lightDir)] *)
Definition _createBranch (parents : list Link) (gravity : Q)
    (lightDir : string) (s : t) : M t :=
  u1 <- Math_random ;;
  let branchSide : Q := if Qltb u1 0.5 then 1 else -1 in
  u2 <- Math_random ;;
  let branchAngle := branchSide * (0.4 + u2 * 0.35) in
  branch <- new (link s :: parents) false (variety s) (Qred branchAngle) true ;;
  ret (set_children (children s ++ [branch]) s).

(** [_addTipSegment(gravity, lightDir)] *)
Definition _addTipSegment (parents : list Link) (gravity : Q)
    (lightDir : string) (s : t) : M t :=
  let currentAngle := angle parents s in
  let offset := 0 in
  offset <-
    (if Qgtb gravity 0 then
       let target := if isRoot s then Math_PI / 2 else - Math_PI / 2 in
       diff <- lift (angleDiff target currentAngle) ;;
       ret (offset + diff * (if isRoot s then 0.06 else 0.028))
     else ret offset) ;;
  offset <-
    (if negb (String.eqb lightDir "none") then
       let lightAngle := dirToRad lightDir in
       let target := if isRoot s then lightAngle + Math_PI else lightAngle in
       diff <- lift (angleDiff target currentAngle) ;;
       ret (offset + diff * (if isRoot s
                             then (if Qis0 gravity then 0.020 else 0.010)
                             else (if Qis0 gravity then 0.042 else 0.025)))
     else ret offset) ;;
  u <- Math_random ;;
  let offset := offset + (u - 0.5) * (if Qis0 gravity
                                      then (if isRoot s then 0.022 else 0.038)
                                      else (if isRoot s then 0.008 else 0.018)) in
  tip <- new (link s :: parents) (isRoot s) (variety s) (Qred offset) (isBranch s) ;;
  ret (set_children (children s ++ [tip]) s).

(** The growth of one tick: [r * 2.5 * growthMultiplier]. *)
Definition increment (s : t) : Q :=
  let v := VARIETIES (variety s) in
  let r := if isRoot s then rootGrowthRate v else growthRate v in
  let growthMultiplier := if isBranch s then 0.7 else 1.0 in
  r * 2.5 * growthMultiplier.

(** [grow], lines 199-200: [this.length += r * 2.5 * growthMultiplier]. *)
Definition grow_length (s : t) : t :=
  set_length (Qred (length s + increment s)) s.

(** [grow], lines 202-220: leaves at intervals, shoots only. *)
Definition grow_leaves (s : t) : M t :=
  if negb (isRoot s) && negb (isBranch s) && Qgtb (length s) 3 then
    u <- Math_random ;;
    let leafInterval := 8 + u * 4 in
    let lastLeafPos := last (map position (leaves s)) 0 in
    if Qgtb (length s - lastLeafPos) leafInterval then
      let side_ := nextLeafSide s in
      u' <- Math_random ;;
      let size_ := 0.7 + u' * 0.6 in
      let s := set_leaves (leaves s ++ [{| position := length s;
                                          side := side_;
                                          size := Qred size_ |}]) s in
      ret (set_nextLeafSide (nextLeafSide s * -1)%Z s)
    else ret s
  else ret s.

(** [grow], lines 222-230: occasional branching.  The random draw is the
    last operand of the conjunction, read only when the others hold. *)
Definition grow_branch (parents : list Link) (gravity : Q)
    (lightDir : string) (s : t) : M t :=
  if negb (isRoot s) && negb (isBranch s) && negb (hasBranched s)
     && Qgtb (length s) (targetLength s * 0.6)
     && (getDepth parents <? 5)%nat then
    u <- Math_random ;;
    if Qltb u 0.15 then
      s <- _createBranch parents gravity lightDir s ;;
      ret (set_hasBranched true s)
    else ret s
  else ret s.

(** [grow], lines 232-240: when full, a new segment at the tip. *)
Definition grow_tip (parents : list Link) (gravity : Q) (lightDir : string)
    (totalLength maxLength : Q) (s : t) : M t :=
  if Qgeb (length s) (targetLength s)
     && (List.length (children s) =? 0)%nat then
    if Qltb totalLength maxLength then
      let s := set_growing false s in
      _addTipSegment parents gravity lightDir s
    else
      ret (set_growing false s)
  else ret s.

(** [grow], lines 192-241: what a segment does to itself in a tick. *)
Definition grow_self (parents : list Link) (gravity : Q) (lightDir : string)
    (totalLength maxLength : Q) (s : t) : M t :=
  if growing s then
    let s := grow_length s in
    s <- grow_leaves s ;;
    s <- grow_branch parents gravity lightDir s ;;
    grow_tip parents gravity lightDir totalLength maxLength s
  else ret s.

(** [grow(gravity, lightDir, totalLength, maxLength)]: the segment itself,
    then every child, those of this tick included. *)
Fixpoint grow (fuel : nat) (parents : list Link) (gravity : Q)
    (lightDir : string) (totalLength maxLength : Q) (s : t) : M t :=
  match fuel with
  | O => out_of_fuel
  | S fuel' =>
      s <- grow_self parents gravity lightDir totalLength maxLength s ;;
      cs <- forEach (grow fuel' (link s :: parents) gravity lightDir
                       totalLength maxLength) (children s) ;;
      ret (set_children cs s)
  end.

(** [totalLength()] *)
Fixpoint totalLength (s : t) : Q :=
  length s + fold_left (fun acc c => acc + totalLength c) (children s) 0.

(** [isFullyGrown()] *)
Fixpoint isFullyGrown (s : t) : bool :=
  if growing s then false else forallb isFullyGrown (children s).

(** The number of levels below a segment, and the nesting of calls that
    one tick of [grow] needs at most: the levels there are, the call on the
    segment itself and the call on a child created in this tick. *)
Fixpoint height (s : t) : nat :=
  fold_right (fun c h => Nat.max (S (height c)) h) 0%nat (children s).

Definition growFuel (s : t) : nat := S (S (height s)).

(** The segment at a position of the tree: a path of child indices.
    Children are only ever appended, so a path keeps naming the same
    segment. *)
Fixpoint at_path (path : list nat) (s : t) : option t :=
  match path with
  | [] => Some s
  | i :: path' =>
      match nth_error (children s) i with
      | Some c => at_path path' c
      | None => None
      end
  end.

(** The absolute angle of the segment at a position of the tree whose top
    segment has the ancestors [parents]. *)
Fixpoint angle_at (parents : list Link) (path : list nat) (s : t) : option Q :=
  match path with
  | [] => Some (angle parents s)
  | i :: path' =>
      match nth_error (children s) i with
      | Some c => angle_at (link s :: parents) path' c
      | None => None
      end
  end.

End Segment.

(** ** class Plant *)

Module Plant.

Record t := mk {
  variety : Variety;
  age : Z;
  maxShootLength : Q;
  maxRootLength : Q;
  shoot : Segment.t;
  root : Segment.t
}.

(** [constructor(variety, gravity, lightDir)]; [gravity] and [lightDir]
    are not read. *)
Definition new (variety_ : Variety) (gravity : Q) (lightDir : string) : M t :=
  let v := VARIETIES variety_ in
  u <- Math_random ;;
  let jitter := Qred ((u - 0.5) * 0.08) in
  shoot_ <- Segment.new [] false variety_ jitter false ;;
  root_ <- Segment.new [] true variety_ jitter false ;;
  ret {| variety := variety_;
         age := 0;
         maxShootLength := maxStemLen v;
         maxRootLength := maxRootLen v;
         shoot := shoot_;
         root := root_ |}.

(** [update(gravity, lightDir)] *)
Definition update (gravity : Q) (lightDir : string) (p : t) : M t :=
  let age_ := (age p + 1)%Z in
  if (age_ <? 8)%Z then
    ret (mk (variety p) age_ (maxShootLength p) (maxRootLength p)
            (shoot p) (root p))
  else
    let shootLen := Segment.totalLength (shoot p) in
    let rootLen := Segment.totalLength (root p) in
    shoot_ <- Segment.grow (Segment.growFuel (shoot p)) [] gravity lightDir
                shootLen (maxShootLength p) (shoot p) ;;
    root_ <- Segment.grow (Segment.growFuel (root p)) [] gravity lightDir
               rootLen (maxRootLength p) (root p) ;;
    ret (mk (variety p) age_ (maxShootLength p) (maxRootLength p)
            shoot_ root_).

(** [isFullyGrown()] *)
Definition isFullyGrown (p : t) : bool :=
  Segment.isFullyGrown (shoot p) && Segment.isFullyGrown (root p).

(** [n] ticks of [update] with the same environment. *)
Fixpoint updates (n : nat) (gravity : Q) (lightDir : string) (p : t) : M t :=
  match n with
  | O => ret p
  | S n' => p <- update gravity lightDir p ;; updates n' gravity lightDir p
  end.

End Plant.

(** ** The simulation driver *)

(** One row of [App.dataPoints]. *)
Module Sample.
Record t := mk {
  time : Q;
  variety : Variety;
  gravity : Q;
  light : string;
  stemLen : Q;
  rootDep : Q;
  branches : nat
}.
End Sample.

(** One row of [App.compareData]. *)
Module CompareSample.
Record t := mk { time : Q; stemLen : Q; rootDep : Q }.
End CompareSample.

(** What [logObs] is called with. *)
Inductive Observation :=
| ExperimentStarted (variety : Variety) (gravity : Q)
| PausedAt (elapsedMs : Z)
| ExperimentReset
| ReachedMaturity.

(** The controls of the page that the driver enables and disables. *)
Module Page.
Record t := mk {
  predictionDisabled : bool;
  startDisabled : bool;
  stopDisabled : bool;
  selectorsDisabled : bool;
  statusMessage : string;
  observationsLog : list Observation
}.
End Page.

(** [const App], without the fields that belong to the presentation; a
    [startTime] of [null] counts as 0 in the only place it is read. *)
Module App.
Record t := mk {
  isRunning : bool;
  isComplete : bool;
  startTime : Z;
  elapsedMs : Z;
  gravity : Q;
  lightDir : string;
  variety : Variety;
  compareMode : bool;
  plant : option Plant.t;
  comparePlant : option Plant.t;
  dataPoints : list Sample.t;
  compareData : list CompareSample.t;
  page : Page.t
}.

Definition set_isRunning (x : bool) (a : t) : t :=
  mk x (isComplete a) (startTime a) (elapsedMs a) (gravity a) (lightDir a)
     (variety a) (compareMode a) (plant a) (comparePlant a) (dataPoints a)
     (compareData a) (page a).

Definition set_isComplete (x : bool) (a : t) : t :=
  mk (isRunning a) x (startTime a) (elapsedMs a) (gravity a) (lightDir a)
     (variety a) (compareMode a) (plant a) (comparePlant a) (dataPoints a)
     (compareData a) (page a).

Definition set_startTime (x : Z) (a : t) : t :=
  mk (isRunning a) (isComplete a) x (elapsedMs a) (gravity a) (lightDir a)
     (variety a) (compareMode a) (plant a) (comparePlant a) (dataPoints a)
     (compareData a) (page a).

Definition set_elapsedMs (x : Z) (a : t) : t :=
  mk (isRunning a) (isComplete a) (startTime a) x (gravity a) (lightDir a)
     (variety a) (compareMode a) (plant a) (comparePlant a) (dataPoints a)
     (compareData a) (page a).

Definition set_plant (x : option Plant.t) (a : t) : t :=
  mk (isRunning a) (isComplete a) (startTime a) (elapsedMs a) (gravity a)
     (lightDir a) (variety a) (compareMode a) x (comparePlant a)
     (dataPoints a) (compareData a) (page a).

Definition set_comparePlant (x : option Plant.t) (a : t) : t :=
  mk (isRunning a) (isComplete a) (startTime a) (elapsedMs a) (gravity a)
     (lightDir a) (variety a) (compareMode a) (plant a) x (dataPoints a)
     (compareData a) (page a).

Definition set_dataPoints (x : list Sample.t) (a : t) : t :=
  mk (isRunning a) (isComplete a) (startTime a) (elapsedMs a) (gravity a)
     (lightDir a) (variety a) (compareMode a) (plant a) (comparePlant a) x
     (compareData a) (page a).

Definition set_compareData (x : list CompareSample.t) (a : t) : t :=
  mk (isRunning a) (isComplete a) (startTime a) (elapsedMs a) (gravity a)
     (lightDir a) (variety a) (compareMode a) (plant a) (comparePlant a)
     (dataPoints a) x (page a).

Definition set_page (x : Page.t) (a : t) : t :=
  mk (isRunning a) (isComplete a) (startTime a) (elapsedMs a) (gravity a)
     (lightDir a) (variety a) (compareMode a) (plant a) (comparePlant a)
     (dataPoints a) (compareData a) x.

(** The initial value of [App]. *)
Definition init : t :=
  {| isRunning := false; isComplete := false; startTime := 0; elapsedMs := 0;
     gravity := 0; lightDir := "none"; variety := cress; compareMode := false;
     plant := None; comparePlant := None; dataPoints := []; compareData := [];
     page := {| Page.predictionDisabled := false; Page.startDisabled := false;
                Page.stopDisabled := true; Page.selectorsDisabled := false;
                Page.statusMessage := ""; Page.observationsLog := [] |} |}.
End App.

(** [logObs(msg)] *)
Definition logObs (msg : Observation) (a : App.t) : App.t :=
  let p := App.page a in
  App.set_page
    (Page.mk (Page.predictionDisabled p) (Page.startDisabled p)
             (Page.stopDisabled p) (Page.selectorsDisabled p)
             (Page.statusMessage p) (Page.observationsLog p ++ [msg])) a.

(** [parseFloat(x.toFixed(1))]: one decimal, the nearest. *)
Definition toFixed1 (x : Q) : Q :=
  Qred (inject_Z (Qfloor (x * 10 + 0.5)) / 10).

(** [countBranches], the local function of [recordPoint]. *)
Fixpoint countBranches (seg : Segment.t) : nat :=
  fold_left
    (fun count child =>
       ((if Segment.isBranch child then S count else count)
        + countBranches child)%nat)
    (Segment.children seg) 0%nat.

(** [function recordPoint()] *)
Definition recordPoint (a : App.t) : App.t :=
  match App.plant a with
  | None => a
  | Some plant =>
      App.set_dataPoints
        (App.dataPoints a ++
         [{| Sample.time := Qred (inject_Z (App.elapsedMs a) / 60000);
             Sample.variety := App.variety a;
             Sample.gravity := App.gravity a;
             Sample.light := App.lightDir a;
             Sample.stemLen := toFixed1 (Segment.totalLength (Plant.shoot plant));
             Sample.rootDep := toFixed1 (Segment.totalLength (Plant.root plant));
             Sample.branches := countBranches (Plant.shoot plant) |}]) a
  end.

(** [function recordComparePoint()] *)
Definition recordComparePoint (a : App.t) : App.t :=
  match App.comparePlant a with
  | None => a
  | Some plant =>
      App.set_compareData
        (App.compareData a ++
         [{| CompareSample.time := Qred (inject_Z (App.elapsedMs a) / 60000);
             CompareSample.stemLen :=
               toFixed1 (Segment.totalLength (Plant.shoot plant));
             CompareSample.rootDep :=
               toFixed1 (Segment.totalLength (Plant.root plant)) |}]) a
  end.

(** [Math.floor(App.elapsedMs / 8000) > series.length] *)
Definition sampleDue (a : App.t) (recorded : nat) : bool :=
  (App.elapsedMs a / 8000 >? Z.of_nat recorded)%Z.

(** The maturity branch of [animate], lines 968-977. *)
Definition animate_maturity (a : App.t) : App.t :=
  match App.plant a with
  | None => a
  | Some plant =>
      if negb (App.isComplete a) && Plant.isFullyGrown plant then
        let a := App.set_isRunning false (App.set_isComplete true a) in
        let p := App.page a in
        let a := App.set_page
                   (Page.mk (Page.predictionDisabled p) true true
                            (Page.selectorsDisabled p) "Growth Complete"
                            (Page.observationsLog p)) a in
        let a := logObs ReachedMaturity a in
        recordPoint a
      else a
  end.

(** [function animate()]; [now] is what [Date.now()] returns. *)
Definition animate (now : Z) (a : App.t) : M App.t :=
  if negb (App.isRunning a) then ret a
  else
    let a := App.set_elapsedMs (now - App.startTime a)%Z a in
    a <- match App.plant a with
         | Some plant =>
             plant <- Plant.update (App.gravity a) (App.lightDir a) plant ;;
             let a := App.set_plant (Some plant) a in
             let a := animate_maturity a in
             ret (if sampleDue a (List.length (App.dataPoints a))
                     && App.isRunning a
                  then recordPoint a else a)
         | None => ret a
         end ;;
    match App.comparePlant a with
    | Some plant =>
        plant <- Plant.update 1 (App.lightDir a) plant ;;
        let a := App.set_comparePlant (Some plant) a in
        ret (if sampleDue a (List.length (App.compareData a))
                && App.isRunning a
             then recordComparePoint a else a)
    | None => ret a
    end.

(** [function startExperiment()]; [now] and [now'] are the two readings of
    [Date.now()], the second one in the call of [animate]. *)
Definition startExperiment (now now' : Z) (a : App.t) : M App.t :=
  if App.isRunning a then ret a
  else
    plant <- Plant.new (App.variety a) (App.gravity a) (App.lightDir a) ;;
    let a := App.set_plant (Some plant) a in
    let a := App.set_isRunning true a in
    let a := App.set_isComplete false a in
    let a := App.set_startTime (now - App.elapsedMs a)%Z a in
    let p := App.page a in
    let a := App.set_page
               (Page.mk true (Page.startDisabled p) (Page.stopDisabled p)
                        (Page.selectorsDisabled p) (Page.statusMessage p)
                        (Page.observationsLog p)) a in
    a <- (if App.compareMode a && negb (Qeq_bool (App.gravity a) 1) then
            plant <- Plant.new (App.variety a) 1 (App.lightDir a) ;;
            ret (App.set_comparePlant (Some plant) a)
          else
            ret (App.set_compareData [] (App.set_comparePlant None a))) ;;
    let p := App.page a in
    let a := App.set_page
               (Page.mk (Page.predictionDisabled p) true false true
                        (Page.statusMessage p) (Page.observationsLog p)) a in
    let a := logObs (ExperimentStarted (App.variety a) (App.gravity a)) a in
    animate now' a.

(** [function stopExperiment()] *)
Definition stopExperiment (a : App.t) : App.t :=
  let a := App.set_isRunning false a in
  let p := App.page a in
  let a := App.set_page
             (Page.mk (Page.predictionDisabled p) false true
                      (Page.selectorsDisabled p) (Page.statusMessage p)
                      (Page.observationsLog p)) a in
  let a := logObs (PausedAt (App.elapsedMs a)) a in
  recordPoint a.

(** [function resetExperiment()] *)
Definition resetExperiment (a : App.t) : App.t :=
  let a := App.set_isComplete false (App.set_isRunning false a) in
  let a := App.set_comparePlant None
             (App.set_plant None (App.set_elapsedMs 0 a)) in
  let p := App.page a in
  let a := App.set_page
             (Page.mk false false true false "" (Page.observationsLog p)) a in
  logObs ExperimentReset a.

(** Frames delivered one after the other, each with its clock reading. *)
Fixpoint animate_all (nows : list Z) (a : App.t) : M App.t :=
  match nows with
  | [] => ret a
  | now :: nows' => a <- animate now a ;; animate_all nows' a
  end.

(** ** The variant with continuous curvature (src/unnamed/part_000)

    The repository holds a second version of the program, in which a
    segment stores its absolute angle in degrees and [_applyTropism]
    rewrites it in every tick of its growth.  The parts of it that bear on
    the angles are embedded here, next to those of script.js. *)

Module Continuous.

(** [function angleDiff(a, b)], in degrees. *)
Fixpoint while_above (fuel : nat) (d : Q) : option Q :=
  match fuel with
  | O => None
  | S fuel' => if Qlt_le_dec 180 d then while_above fuel' (d - 360) else Some d
  end.

Fixpoint while_below (fuel : nat) (d : Q) : option Q :=
  match fuel with
  | O => None
  | S fuel' => if Qlt_le_dec d (-180) then while_below fuel' (d + 360) else Some d
  end.

Definition angleDiff (a b : Q) : option Q :=
  let fuel := S (Z.to_nat (Qceiling (Qabs (a - b) / 360))) in
  match while_above fuel (a - b) with
  | Some d => while_below fuel d
  | None => None
  end.

(** [function dirToDeg(dir)] *)
Definition dirToDeg (dir : string) : Q :=
  if String.eqb dir "top" then -90
  else if String.eqb dir "bottom" then 90
  else if String.eqb dir "left" then 180
  else if String.eqb dir "right" then 0
  else 0.

(** [a % m] for a positive [m]: the remainder has the sign of [a]. *)
Definition remainder (a m : Q) : Q :=
  let q := a / m in
  a - m * inject_Z (if Qlt_le_dec q 0 then Qceiling q else Qfloor q).

Record Segment := mkSegment {
  x : Q;
  y : Q;
  angle : Q;
  generation : nat;
  isRoot : bool;
  variety : Variety;
  K : Q;
  length : Q;
  growing : bool;
  branched : bool;
  leafAt : list Q;
  curveDrift : Q;
  baseWidth : Q
}.

Definition set_angle (a : Q) (s : Segment) : Segment :=
  mkSegment (x s) (y s) a (generation s) (isRoot s) (variety s) (K s)
            (length s) (growing s) (branched s) (leafAt s) (curveDrift s)
            (baseWidth s).

(** [constructor(x, y, angleDeg, generation, isRoot, variety)]; the list of
    children, empty at construction, is left out. *)
Definition new (x_ y_ angleDeg : Q) (generation_ : nat) (root_ : bool)
    (variety_ : Variety) : M Segment :=
  let v := VARIETIES variety_ in
  let gf := Qpower 0.62 (Z.of_nat generation_) in
  let baseLen := if root_ then maxRootLen v else maxStemLen v in
  u <- Math_random ;;
  let K_ := baseLen * gf * (0.85 + u * 0.30) in
  u' <- Math_random ;;
  ret {| x := x_; y := y_; angle := angleDeg; generation := generation_;
         isRoot := root_; variety := variety_; K := Qred K_; length := 0.1;
         growing := true; branched := false; leafAt := [];
         curveDrift := Qred ((u' - 0.5) * 0.35);
         baseWidth := Qred (if root_ then Qmax (rootWidth v * gf) 0.5
                            else Qmax (stemWidth v * gf) 0.7) |}.

(** [_applyTropism(gravity, lightDir)] *)
Definition _applyTropism (gravity : Q) (lightDir : string) (s : Segment)
    : M Segment :=
  let s := set_angle (angle s + curveDrift s * 0.4) s in
  s <- (if Qgtb gravity 0 && (generation s =? 0)%nat then
          let gravTarget := if isRoot s then 90 else -90 in
          diff <- lift (angleDiff gravTarget (angle s)) ;;
          let maturity := length s / K s in
          let gravStrength := gravity * (1.2 - maturity * 0.7) in
          ret (set_angle (angle s + diff * gravStrength * 0.018) s)
        else ret s) ;;
  s <- (if negb (String.eqb lightDir "none") then
          let lightDeg := dirToDeg lightDir in
          let target := if isRoot s then lightDeg + 180 else lightDeg in
          diff <- lift (angleDiff target (angle s)) ;;
          let maturity := length s / K s in
          if Qgtb maturity 0.15 then
            let photoSpeed := if Qis0 gravity then 0.80
                              else 0.05 + maturity * 0.40 in
            ret (set_angle (angle s + diff * photoSpeed * 0.018) s)
          else ret s
        else ret s) ;;
  if Qis0 gravity && String.eqb lightDir "none" && (generation s =? 0)%nat then
    u <- Math_random ;;
    ret (set_angle (angle s + (u - 0.5) * 0.5) s)
  else ret s.

Record Plant := mkPlant {
  plant_variety : Variety;
  age : Z;
  shoot : Segment;
  root : Segment
}.

(** [class Plant], [constructor(variety, gravity, lightDir)] *)
Definition newPlant (variety_ : Variety) (gravity : Q) (lightDir : string)
    : M Plant :=
  u <- Math_random ;;
  let jitter := (u - 0.5) * 12 in
  shootStart <- (if Qgtb gravity 0 then ret (-90 + jitter)
                 else u' <- Math_random ;; ret (u' * 360)) ;;
  let rootStart := if Qgtb gravity 0 then 90 + jitter
                   else remainder (shootStart + 180) 360 in
  shoot_ <- new 0 0 (Qred shootStart) 0 false variety_ ;;
  root_ <- new 0 0 (Qred rootStart) 0 true variety_ ;;
  ret {| plant_variety := variety_; age := 0; shoot := shoot_; root := root_ |}.

End Continuous.

(** ** Runs of the program *)

(** A stream of draws that always gives [u]. *)
Definition constant_draws (u : Q) : Rand := {| draws := fun _ => u; cursor := 0 |}.

(** A plant is constructed and [update] is called [n] times. *)
Definition run (r : Rand) (variety : Variety) (gravity : Q) (lightDir : string)
    (n : nat) : option Plant.t :=
  match (p <- Plant.new variety gravity lightDir ;;
         Plant.updates n gravity lightDir p) r with
  | Some (p, _) => Some p
  | None => None
  end.

(** Five runs, evaluated.  With every draw 0.1 the shoot branches on its
    first occasion: after 93 ticks, after 94 ticks and after 800 ticks.
    With every draw 1/2 the plant never branches: after 1727 ticks, one
    tick before it is fully grown; and an arabidopsis plant under gravity
    after 1300 ticks, a hundred ticks after its root has stopped.  The
    root segments of arabidopsis grow by 0.125 a tick, from 0.1 over
    9.975 to 10.1 in 80 ticks, and the root is 141.275 long when the
    fifteenth is made: no test of the code on the root is met nearly. *)
Definition branching_run_93 : option Plant.t :=
  Eval vm_compute in run (constant_draws 0.1) cress 0 "none" 93.

Definition branching_run_94 : option Plant.t :=
  Eval vm_compute in run (constant_draws 0.1) cress 0 "none" 94.

Definition branching_run_800 : option Plant.t :=
  Eval vm_compute in run (constant_draws 0.1) cress 0 "none" 800.

Definition ripening_run : option Plant.t :=
  Eval vm_compute in run (constant_draws 0.5) cress 0 "none" 1727.

Definition overshooting_run : option Plant.t :=
  Eval vm_compute in run (constant_draws 0.5) arabidopsis 1 "none" 1300.

(** The plants the program can hold: a constructed one, and what [update]
    makes of one, with any environment and any draws. *)
Inductive reachable : Plant.t -> Prop :=
| reachable_new variety gravity lightDir r p r' :
    Plant.new variety gravity lightDir r = Some (p, r') ->
    reachable p
| reachable_update p gravity lightDir r p' r' :
    reachable p ->
    Plant.update gravity lightDir p r = Some (p', r') ->
    reachable p'.

(** ** One tick of a segment, as a relation *)

Module Tick.
Import Segment.

(** What [new Segment(...)] returns, up to its offset, leaf side and width. *)
Definition is_new (root_ : bool) (variety_ : Variety) (branch_ : bool)
    (c : t) : Prop :=
  isRoot c = root_ /\ variety c = variety_ /\ isBranch c = branch_ /\
  targetLength c = (if root_ then 10 else 12) /\ length c = 0.1 /\
  growing c = true /\ children c = [] /\ leaves c = [] /\
  hasBranched c = false.

(** An active segment after the lines on length and leaves. *)
Definition lengthened (s s0 : t) : Prop :=
  growing s = true /\
  exists extra side_,
    s0 = set_nextLeafSide side_
           (set_leaves (leaves s ++ extra) (grow_length s)) /\
    (extra <> [] -> isRoot s = false /\ isBranch s = false).

(** The five ways through [grow_self]. *)
Inductive self_step (depth : nat) (totalLength maxLength : Q) (s : t)
  : t -> Prop :=
| step_inactive :
    growing s = false ->
    self_step depth totalLength maxLength s s
| step_grow s0 :
    lengthened s s0 ->
    length s0 < targetLength s0 \/ children s0 <> [] ->
    self_step depth totalLength maxLength s s0
| step_branch s0 c :
    lengthened s s0 ->
    isRoot s0 = false -> isBranch s0 = false -> hasBranched s0 = false ->
    targetLength s0 * 0.6 < length s0 ->
    (depth < 5)%nat ->
    is_new false (variety s0) true c ->
    self_step depth totalLength maxLength s
      (set_hasBranched true (set_children (children s0 ++ [c]) s0))
| step_stop s0 :
    lengthened s s0 ->
    children s0 = [] -> targetLength s0 <= length s0 ->
    maxLength <= totalLength ->
    self_step depth totalLength maxLength s (set_growing false s0)
| step_tip s0 c :
    lengthened s s0 ->
    children s0 = [] -> targetLength s0 <= length s0 ->
    totalLength < maxLength ->
    is_new (isRoot s0) (variety s0) (isBranch s0) c ->
    self_step depth totalLength maxLength s
      (set_children (children s0 ++ [c]) (set_growing false s0)).

(** The fields of a segment that no tick writes. *)
Definition same_identity (c c' : t) : Prop :=
  isRoot c' = isRoot c /\ variety c' = variety c /\
  angleOffset c' = angleOffset c /\ isBranch c' = isBranch c /\
  targetLength c' = targetLength c.

(** A property of every segment of a tree, each at its depth. *)
Fixpoint All (P : nat -> t -> Prop) (depth : nat) (s : t) : Prop :=
  P depth s /\
  fold_right (fun c rest => All P (S depth) c /\ rest) True (children s).

(** Below the branch-depth cap, only a branch segment has branch children. *)
Definition branch_cap (depth : nat) (s : t) : Prop :=
  (5 <= depth)%nat -> isBranch s = false ->
  Forall (fun c => isBranch c = false) (children s).

(** A branch segment is a shoot segment without leaves that has never
    branched; it has at most one child, and that child is a branch
    segment. *)
Definition branch_chain (depth : nat) (s : t) : Prop :=
  isBranch s = true ->
  isRoot s = false /\ leaves s = [] /\ hasBranched s = false /\
  (List.length (children s) <= 1)%nat /\
  Forall (fun c => isBranch c = true) (children s).

(** The root organ is a chain: every segment but the last has stopped, and
    had stopped when the organ was below its maximum. *)
Fixpoint root_chain (variety_ : Variety) (maxLength prefix : Q) (s : t) : Prop :=
  isRoot s = true /\ isBranch s = false /\ variety s = variety_ /\
  targetLength s = 10 /\
  match children s with
  | [] => (growing s = true -> length s < 10) /\
          length s < 10 + increment s
  | [c] => growing s = false /\
           prefix + length s < maxLength + increment s /\
           root_chain variety_ maxLength (prefix + length s) c
  | _ => False
  end.

End Tick.

(** ** Predicates on segments and trees, for the properties of Part IV *)

Module Shape.
Import Segment Tick.

(** A later state of the same segment: what a tick may and may not do to
    it. *)
Definition evolves (x x' : t) : Prop :=
  same_identity x x' /\
  length x <= length x' /\
  (growing x = false ->
   growing x' = false /\ length x' = length x /\ leaves x' = leaves x /\
   nextLeafSide x' = nextLeafSide x /\ hasBranched x' = hasBranched x /\
   List.length (children x') = List.length (children x)) /\
  (hasBranched x = true -> hasBranched x' = true) /\
  (exists extra, leaves x' = leaves x ++ extra) /\
  (List.length (children x) <= List.length (children x'))%nat.

(** A segment has at most one child, and a segment that has one has
    stopped or has branched. *)
Definition one_child (depth : nat) (s : t) : Prop :=
  (List.length (children s) <= 1)%nat /\
  (children s <> [] -> growing s = false \/ hasBranched s = true).

(** The children of a segment are of its organ, and a root segment is
    no branch, has no leaves and has never branched. *)
Definition organ_kind (depth : nat) (s : t) : Prop :=
  (isRoot s = true ->
   isBranch s = false /\ leaves s = [] /\ hasBranched s = false) /\
  Forall (fun c => isRoot c = isRoot s) (children s).

(** The length of a segment against its target. *)
Definition length_window (depth : nat) (s : t) : Prop :=
  targetLength s = (if isRoot s then 10 else 12) /\
  0.1 <= length s /\
  (growing s = false ->
   targetLength s <= length s /\ length s < targetLength s + increment s) /\
  (growing s = true -> children s = [] -> length s < targetLength s).

(** The sum that [totalLength] folds over the children. *)
Definition childrenLength (cs : list t) : Q :=
  fold_left (fun acc c => acc + totalLength c) cs 0.

End Shape.

(** ** The contract of Math.random

    [Math.random()] returns a number that is at least 0 and below 1. *)

Module Draws.
Import Segment.

Definition fair (r : Rand) : Prop :=
  forall i : nat, 0 <= draws r i /\ draws r i < 1.

(** A computation that reads draws and never replaces them. *)
Definition keeps {A} (m : M A) : Prop :=
  forall r a r', m r = Some (a, r') -> draws r' = draws r.

(** The plants that [new Plant] and [update] make from draws in [0, 1). *)
Inductive grown : Plant.t -> Prop :=
| grown_new variety gravity lightDir r p r' :
    fair r ->
    Plant.new variety gravity lightDir r = Some (p, r') ->
    grown p
| grown_update p gravity lightDir r p' r' :
    grown p ->
    fair r ->
    Plant.update gravity lightDir p r = Some (p', r') ->
    grown p'.

(** What [new Segment(...)] returns: the fields of [is_new], and a leaf
    side that is 1 or -1. *)
Definition fresh (c : t) : Prop :=
  (exists root_ variety_ branch_, Tick.is_new root_ variety_ branch_ c) /\
  (nextLeafSide c = 1 \/ nextLeafSide c = -1)%Z.

(** The turn of a child against its parent: a branch child leaves a stem
    segment at a wide angle, a continuation at a narrow one.  The exact
    sum [0.4 + u * 0.35] stays below 0.75 for [u < 1]; the machine's can
    be 0.75. *)
Definition turn_ok (s c : t) : Prop :=
  if isBranch c && negb (isBranch s)
  then 0.4 <= Qabs (angleOffset c) /\ Qabs (angleOffset c) < 0.75
  else Qabs (angleOffset c) < 0.224.

Definition child_turns (depth : nat) (s : t) : Prop :=
  Forall (turn_ok s) (children s).




End Draws.

(** ** Sessions of the page

    What can happen to [App] after the page is loaded: the three buttons
    of the experiment, a frame of [animate], [clearData], and the click
    handlers of the gravity, variety and light buttons, which write the
    settings and the page only. *)

Module Session.

(** [function clearData()], confirmed. *)
Definition clearData (a : App.t) : App.t :=
  App.set_compareData [] (App.set_dataPoints [] a).

(** What a handler of lines 1170-1199 leaves alone. *)
Definition settings_only (a a' : App.t) : Prop :=
  App.isRunning a' = App.isRunning a /\
  App.isComplete a' = App.isComplete a /\
  App.startTime a' = App.startTime a /\
  App.elapsedMs a' = App.elapsedMs a /\
  App.plant a' = App.plant a /\
  App.comparePlant a' = App.comparePlant a /\
  App.dataPoints a' = App.dataPoints a /\
  App.compareData a' = App.compareData a.

(** One thing that happens. *)
Inductive step : App.t -> App.t -> Prop :=
| step_start now now' a r a' r' :
    startExperiment now now' a r = Some (a', r') -> step a a'
| step_stop a : step a (stopExperiment a)
| step_reset a : step a (resetExperiment a)
| step_frame now a r a' r' :
    animate now a r = Some (a', r') -> step a a'
| step_clear a : step a (clearData a)
| step_settings a a' : settings_only a a' -> step a a'.

(** The values of [App] in a session. *)
Inductive state : App.t -> Prop :=
| state_init : state App.init
| state_step a a' : state a -> step a a' -> state a'.

(** The flags of the experiment agree with the plants it holds. *)
Definition consistent (a : App.t) : Prop :=
  (App.isRunning a = true ->
   App.isComplete a = false /\ App.plant a <> None) /\
  (App.comparePlant a <> None -> App.plant a <> None) /\
  (App.isComplete a = true ->
   exists p, App.plant a = Some p /\ Plant.isFullyGrown p = true) /\
  (forall p, App.plant a = Some p \/ App.comparePlant a = Some p ->
             reachable p).

End Session.

(** ** Where the segments are drawn

    [Math.cos] and [Math.sin] are not computed here: the getters are
    embedded over any two functions in their place.  A segment reads its
    start from its parent, so the getters take the ancestors of the
    segment, the nearest first. *)

Module Geometry.
Import Segment.

Section Trig.
Variables Math_cos Math_sin : Q -> Q.

(** [get endX()], with [get x()] in it. *)
Fixpoint endX (parents : list t) (s : t) {struct parents} : Q :=
  (match parents with
   | [] => 0
   | p :: ancestors => endX ancestors p
   end)
  + length s * Math_cos (angle (map link parents) s).

(** [get endY()], with [get y()] in it. *)
Fixpoint endY (parents : list t) (s : t) {struct parents} : Q :=
  (match parents with
   | [] => 0
   | p :: ancestors => endY ancestors p
   end)
  + length s * Math_sin (angle (map link parents) s).

(** [get x()] *)
Definition x (parents : list t) (s : t) : Q :=
  match parents with
  | [] => 0
  | p :: ancestors => endX ancestors p
  end.

(** [get y()] *)
Definition y (parents : list t) (s : t) : Q :=
  match parents with
  | [] => 0
  | p :: ancestors => endY ancestors p
  end.

Record Point := { px : Q; py : Q }.

(** [function collectPts(seg, out)]: what it pushes on [out]. *)
Fixpoint collectPts (parents : list t) (seg : t) : list Point :=
  {| px := x parents seg; py := y parents seg |}
  :: {| px := endX parents seg; py := endY parents seg |}
  :: flat_map (collectPts (seg :: parents)) (children seg).

Record Box := { minX : Q; maxX : Q; minY : Q; maxY : Q }.

(** [Math.min(...xs)] and [Math.max(...xs)] of a list with a first
    element. *)
Definition Math_min (first : Q) (rest : list Q) : Q := fold_left Qmin rest first.
Definition Math_max (first : Q) (rest : list Q) : Q := fold_left Qmax rest first.

(** [Plant.bounds()] *)
Definition bounds (p : Plant.t) : Box :=
  let pts := collectPts [] (Plant.shoot p) ++ collectPts [] (Plant.root p) in
  match pts with
  | [] => {| minX := -20; maxX := 20; minY := -20; maxY := 20 |}
  | pt :: rest =>
      {| minX := Math_min (px pt) (map px rest);
         maxX := Math_max (px pt) (map px rest);
         minY := Math_min (py pt) (map py rest);
         maxY := Math_max (py pt) (map py rest) |}
  end.

End Trig.

End Geometry.

(** ** Growth in the variant with continuous curvature (src/unnamed/part_000)

    A segment of the variant holds its children; here the fields of a
    segment are the record of [Continuous] and the children are kept
    beside it.  [Math.cos] and [Math.sin] are any two functions. *)

Module ContinuousGrowth.
Import Continuous.

Definition set_length (l : Q) (s : Segment) : Segment :=
  mkSegment (x s) (y s) (angle s) (generation s) (isRoot s) (variety s) (K s)
            l (growing s) (branched s) (leafAt s) (curveDrift s)
            (baseWidth s).

Definition set_growing (g : bool) (s : Segment) : Segment :=
  mkSegment (x s) (y s) (angle s) (generation s) (isRoot s) (variety s) (K s)
            (length s) g (branched s) (leafAt s) (curveDrift s)
            (baseWidth s).

Definition set_branched (b : bool) (s : Segment) : Segment :=
  mkSegment (x s) (y s) (angle s) (generation s) (isRoot s) (variety s) (K s)
            (length s) (growing s) b (leafAt s) (curveDrift s)
            (baseWidth s).

Definition set_leafAt (l : list Q) (s : Segment) : Segment :=
  mkSegment (x s) (y s) (angle s) (generation s) (isRoot s) (variety s) (K s)
            (length s) (growing s) (branched s) l (curveDrift s)
            (baseWidth s).

(** A segment with [this.children]. *)
Inductive Tree := Node (seg : Segment) (children : list Tree).

Definition seg (t : Tree) : Segment := let (s, _) := t in s.
Definition children (t : Tree) : list Tree := let (_, cs) := t in cs.

Fixpoint height (t : Tree) : nat :=
  fold_right (fun c h => Nat.max (S (height c)) h) 0%nat (children t).

(** The nesting of calls that one tick of [grow] needs at most. *)
Definition growFuel (t : Tree) : nat := S (S (height t)).

(** [totalLength()] *)
Fixpoint totalLength (t : Tree) : Q :=
  length (seg t) + fold_left (fun s c => s + totalLength c) (children t) 0.

(** [branchCount()] *)
Fixpoint branchCount (t : Tree) : nat :=
  (List.length (children t)
   + fold_left (fun s c => s + branchCount c) (children t) 0)%nat.

(** [isFullyGrown()] *)
Fixpoint isFullyGrown (t : Tree) : bool :=
  if growing (seg t) then false else forallb isFullyGrown (children t).

(** The segment at a position of the tree. *)
Fixpoint at_path (path : list nat) (t : Tree) : option Segment :=
  match path with
  | [] => Some (seg t)
  | i :: path' =>
      match nth_error (children t) i with
      | Some c => at_path path' c
      | None => None
      end
  end.

Section Trig.
Variables Math_cos Math_sin : Q -> Q.

(** [tip()] *)
Definition tip (s : Segment) : Q * Q :=
  let rad := angle s * Math_PI / 180 in
  (x s + Math_cos rad * length s, y s + Math_sin rad * length s).

(** [_branch()]: the segments that it pushes on [this.children]. *)
Definition _branch (s : Segment) : M (list Segment) :=
  let v := VARIETIES (variety s) in
  let tip_ := tip s in
  u <- Math_random ;;
  let sgn : Q := if Qltb u 0.5 then 1 else -1 in
  u1 <- Math_random ;;
  let a1 := angle s + sgn * (branchSpread v * 0.55
                             + u1 * branchSpread v * 0.35) in
  c1 <- new (fst tip_) (snd tip_) (Qred a1) (S (generation s)) (isRoot s)
            (variety s) ;;
  if (generation s =? 0)%nat then
    u2 <- Math_random ;;
    if Qltb u2 0.55 then
      u3 <- Math_random ;;
      let a2 := angle s - sgn * (branchSpread v * 0.45
                                 + u3 * branchSpread v * 0.35) in
      c2 <- new (fst tip_) (snd tip_) (Qred a2) (S (generation s)) (isRoot s)
                (variety s) ;;
      ret [c1; c2]
    else ret [c1]
  else ret [c1].

(** [grow], lines 163-167: logistic growth of the length. *)
Definition grow_length (s : Segment) : Segment :=
  let v := VARIETIES (variety s) in
  let r := if isRoot s then rootGrowthRate v else growthRate v in
  let dL := r * length s * (1 - length s / K s) in
  let s := set_length (Qred (Qmin (length s + dL) (K s))) s in
  if Qgeb (length s) (K s * 0.995) then set_growing false s else s.

(** [grow], lines 171-173: a leaf when the spacing is passed. *)
Definition grow_leaf (s : Segment) : M Segment :=
  let v := VARIETIES (variety s) in
  u <- Math_random ;;
  let spacing := leafSpacing v + u * 6 in
  let lastLeaf := last (leafAt s) 0 in
  if Qgtb (length s - lastLeaf) spacing
  then ret (set_leafAt (leafAt s ++ [length s]) s)
  else ret s.

(** [grow], lines 175-180: branching, once, below the third generation.
    The random draw is the last operand of the conjunction. *)
Definition grow_branch (s : Segment) : M (Segment * list Segment) :=
  let v := VARIETIES (variety s) in
  if negb (branched s) && (generation s <? 3)%nat
     && Qgtb (length s) (K s * 0.50) then
    u <- Math_random ;;
    if Qltb u (branchChance v * 0.012) then
      cs <- _branch s ;;
      ret (set_branched true s, cs)
    else ret (s, [])
  else ret (s, []).

(** [grow], lines 160-181: what a segment does to itself in a tick, and
    the segments it adds to its children. *)
Definition grow_self (gravity : Q) (lightDir : string) (s : Segment)
    : M (Segment * list Segment) :=
  if growing s then
    let s := grow_length s in
    s <- _applyTropism gravity lightDir s ;;
    s <- grow_leaf s ;;
    grow_branch s
  else ret (s, []).

(** [grow(gravity, lightDir)]: the segment itself, then every child, those
    of this tick included. *)
Fixpoint grow (fuel : nat) (gravity : Q) (lightDir : string) (t : Tree)
    : M Tree :=
  match fuel with
  | O => out_of_fuel
  | S fuel' =>
      sc <- grow_self gravity lightDir (seg t) ;;
      cs <- forEach (grow fuel' gravity lightDir)
              (children t ++ map (fun c => Node c []) (snd sc)) ;;
      ret (Node (fst sc) cs)
  end.

(** [class Plant] *)
Record Plant := mkPlant {
  variety_of : Variety;
  age : Z;
  shoot : Tree;
  root : Tree
}.

(** [constructor(variety, gravity, lightDir)] *)
Definition newPlant (variety_ : Variety) (gravity : Q) (lightDir : string)
    : M Plant :=
  p <- Continuous.newPlant variety_ gravity lightDir ;;
  ret {| variety_of := Continuous.plant_variety p;
         age := Continuous.age p;
         shoot := Node (Continuous.shoot p) [];
         root := Node (Continuous.root p) [] |}.

(** [update(gravity, lightDir)] *)
Definition update (gravity : Q) (lightDir : string) (p : Plant) : M Plant :=
  let age_ := (age p + 1)%Z in
  if (age_ <? 8)%Z then
    ret (mkPlant (variety_of p) age_ (shoot p) (root p))
  else
    shoot_ <- grow (growFuel (shoot p)) gravity lightDir (shoot p) ;;
    root_ <- grow (growFuel (root p)) gravity lightDir (root p) ;;
    ret (mkPlant (variety_of p) age_ shoot_ root_).

(** [Plant.isFullyGrown()] *)
Definition plantFullyGrown (p : Plant) : bool :=
  isFullyGrown (shoot p) && isFullyGrown (root p).

(** The plants that [new Plant] and [update] make from draws in [0, 1). *)
Inductive grown : Plant -> Prop :=
| grown_new variety gravity lightDir r p r' :
    Draws.fair r ->
    newPlant variety gravity lightDir r = Some (p, r') ->
    grown p
| grown_update p gravity lightDir r p' r' :
    grown p ->
    Draws.fair r ->
    update gravity lightDir p r = Some (p', r') ->
    grown p'.

End Trig.

(** The least growth of a growing segment in a tick, the greatest
    capacity of a segment, and the ticks that a segment grows at most. *)
Definition least_growth : Q := 0.0024875.
Definition greatest_capacity : Q := 345.
Definition longest_growth : Z := 138654.

(** What holds of a segment after [ticks] ticks of growth of its plant. *)
Definition thriving (ticks : Z) (s : Segment) : Prop :=
  (generation s <= 3)%nat /\
  20 <= K s /\ K s < greatest_capacity /\
  0.1 <= length s /\ length s <= K s /\
  (growing s = false -> K s * 0.995 <= length s) /\
  (growing s = true ->
   length s < K s * 0.995 /\
   0.1 + (inject_Z ticks
          - inject_Z (Z.of_nat (generation s)) * inject_Z longest_growth)
         * least_growth <= length s).

(** A segment that [_branch] has just made. *)
Definition seedling (parent : Segment) (c : Segment) : Prop :=
  generation c = S (generation parent) /\ length c = 0.1 /\
  growing c = true /\ branched c = false /\
  20 <= K c /\ K c < greatest_capacity.

(** A property of every segment of a tree. *)
Fixpoint Every (P : Segment -> Prop) (t : Tree) : Prop :=
  P (seg t) /\ fold_right (fun c rest => Every P c /\ rest) True (children t).

(** A property of every node of a tree. *)
Fixpoint EveryNode (P : Tree -> Prop) (t : Tree) : Prop :=
  P t /\ fold_right (fun c rest => EveryNode P c /\ rest) True (children t).

(** A segment has children only when it has branched, two at most in the
    first generation and one in the next two, all of the next
    generation. *)
Definition tidy (t : Tree) : Prop :=
  (branched (seg t) = false -> children t = []) /\
  (List.length (children t)
   <= if (generation (seg t) =? 0)%nat then 2 else 1)%nat /\
  ((3 <= generation (seg t))%nat -> children t = []) /\
  Forall (fun c => generation (seg c) = S (generation (seg t))) (children t).

(** The most branches below a segment of a generation. *)
Definition most_branches (generation_ : nat) : nat :=
  match generation_ with
  | 0 => 6
  | 1 => 2
  | 2 => 1
  | _ => 0
  end%nat.

End ContinuousGrowth.

(** ** The live read-out ([function updateLiveData()]) *)

Module LiveData.

Inductive Phase :=
| Germination | EarlyGrowth | RapidGrowth | Maturation | Mature.

Inductive TropismLabel :=
| Phototropism | Undirected | GravAndPhoto | Gravitropism.

(** [const phase = ...] *)
Definition growthPhase (p : Plant.t) : Phase :=
  let shoot := Plant.shoot p in
  let ratio := Segment.length shoot / Segment.targetLength shoot in
  if Qltb ratio 0.05 then Germination
  else if Qltb (Segment.totalLength shoot) 40 then EarlyGrowth
  else if Qltb (Segment.totalLength shoot) 120 then RapidGrowth
  else if Qltb (Segment.totalLength shoot) 200 then Maturation
  else Mature.

(** [const tropism = ...] *)
Definition tropismLabel (gravity : Q) (lightDir : string) : TropismLabel :=
  if Qis0 gravity
  then (if negb (String.eqb lightDir "none") then Phototropism else Undirected)
  else (if negb (String.eqb lightDir "none") then GravAndPhoto
        else Gravitropism).

(** The order in which the phases are listed. *)
Definition rank (ph : Phase) : nat :=
  match ph with
  | Germination => 0
  | EarlyGrowth => 1
  | RapidGrowth => 2
  | Maturation => 3
  | Mature => 4
  end.

End LiveData.

(** ** Zooming ([function initZoom()] and the easing of [renderCanvas])

    [App.zoom]: the level that is drawn follows the level that the wheel
    and the pinch set. *)

Module Zoom.

(** A number of JavaScript as the handlers of the zoom can make one: the
    quotient of two distances is infinite when the older distance is 0,
    and not a number when both are 0.  [Num] holds a finite number. *)
Inductive Number :=
| Num (q : Q)
| Infinity (negative : bool)
| NaN.

(** [a + b] *)
Definition add (a b : Number) : Number :=
  match a, b with
  | NaN, _ | _, NaN => NaN
  | Num x, Num y => Num (x + y)
  | Infinity s, Num _ | Num _, Infinity s => Infinity s
  | Infinity s, Infinity s' => if Bool.eqb s s' then Infinity s else NaN
  end.

(** [- a] *)
Definition opp (a : Number) : Number :=
  match a with
  | Num x => Num (- x)
  | Infinity s => Infinity (negb s)
  | NaN => NaN
  end.

(** [a - b] *)
Definition sub (a b : Number) : Number := add a (opp b).

(** [a * b] *)
Definition mul (a b : Number) : Number :=
  match a, b with
  | NaN, _ | _, NaN => NaN
  | Num x, Num y => Num (x * y)
  | Infinity s, Num y | Num y, Infinity s =>
      if Qis0 y then NaN else Infinity (xorb s (Qltb y 0))
  | Infinity s, Infinity s' => Infinity (xorb s s')
  end.

(** [x / y] of two finite numbers, [y] not the negative zero. *)
Definition quotient (x y : Q) : Number :=
  if Qis0 y then (if Qis0 x then NaN else Infinity (Qltb x 0))
  else Num (x / y).

(** [Math.min(a, b)] *)
Definition Math_min (a b : Number) : Number :=
  match a, b with
  | NaN, _ | _, NaN => NaN
  | Num x, Num y => Num (Qmin x y)
  | Infinity true, _ | _, Infinity true => Infinity true
  | Infinity false, c | c, Infinity false => c
  end.

(** [Math.max(a, b)] *)
Definition Math_max (a b : Number) : Number :=
  match a, b with
  | NaN, _ | _, NaN => NaN
  | Num x, Num y => Num (Qmax x y)
  | Infinity false, _ | _, Infinity false => Infinity false
  | Infinity true, c | c, Infinity true => c
  end.

Record t := { level : Number; targetLevel : Number }.

(** [App.zoom] at load and after [resetExperiment]. *)
Definition init : t := {| level := Num 1; targetLevel := Num 1 |}.

(** The handler of [wheel], lines 448-454. *)
Definition wheel (ctrlKey : bool) (deltaY : Q) (z : t) : t :=
  if ctrlKey then z
  else
    let delta := if Qltb deltaY 0 then 0.1 else -0.1 in
    {| level := level z;
       targetLevel :=
         Math_max (Num 0.5)
           (Math_min (Num 3.0) (add (targetLevel z) (Num delta))) |}.

(** The handler of [touchmove] with two touches after a [touchstart] with
    two, lines 464-476; [oldDist] and [newDist] are what [Math.hypot]
    returns for the two touches as they were and as they are. *)
Definition pinch (oldDist newDist : Q) (z : t) : t :=
  let scale := quotient newDist oldDist in
  {| level := level z;
     targetLevel :=
       Math_max (Num 0.5)
         (Math_min (Num 3.0) (mul (targetLevel z) scale)) |}.

(** [renderCanvas], line 514:
    [App.zoom.level += (App.zoom.targetLevel - App.zoom.level) * 0.08]. *)
Definition ease (z : t) : t :=
  {| level := add (level z)
                  (mul (sub (targetLevel z) (level z)) (Num 0.08));
     targetLevel := targetLevel z |}.

Inductive event :=
| Wheel (ctrlKey : bool) (deltaY : Q)
| Pinch (oldDist newDist : Q)
| Frame
| Reset.

Definition handle (z : t) (e : event) : t :=
  match e with
  | Wheel ctrlKey deltaY => wheel ctrlKey deltaY z
  | Pinch oldDist newDist => pinch oldDist newDist z
  | Frame => ease z
  | Reset => init
  end.

(** The zoom after the events of a session. *)
Definition after (es : list event) : t := fold_left handle es init.

(** [n] frames with no event between them. *)
Fixpoint frames (n : nat) (z : t) : t :=
  match n with
  | O => z
  | S n' => frames n' (ease z)
  end.

(** 0.92 to the [n]: what is left of a gap after [n] frames. *)
Fixpoint gap_factor (n : nat) : Q :=
  match n with
  | O => 1
  | S n' => 0.92 * gap_factor n'
  end.

(** Both levels are finite and within the limits of the handlers. *)
Definition in_range (z : t) : Prop :=
  exists l t_ : Q,
    level z = Num l /\ targetLevel z = Num t_ /\
    (0.5 <= t_ /\ t_ <= 3) /\ (0.5 <= l /\ l <= 3).

(** An event whose quotient is a number or infinite: every event but a
    pinch between two pairs of touches that both coincide. *)
Definition has_a_scale (e : event) : Prop :=
  match e with
  | Pinch oldDist newDist => ~ (oldDist == 0 /\ newDist == 0)
  | _ => True
  end.

End Zoom.

(** * Part II: properties *)

(** ** Comparisons *)

Lemma Qltb_true (a b : Q) : Qltb a b = true <-> a < b.
Proof.
  unfold Qltb. destruct (Qlt_le_dec a b) as [H|H]; split; intro H'; auto.
  - discriminate.
  - exfalso. lra.
Qed.

Lemma Qltb_false (a b : Q) : Qltb a b = false <-> b <= a.
Proof.
  unfold Qltb. destruct (Qlt_le_dec a b) as [H|H]; split; intro H'; auto.
  - discriminate.
  - exfalso. lra.
Qed.

Lemma Qgeb_true (a b : Q) : Qgeb a b = true <-> b <= a.
Proof.
  unfold Qgeb. destruct (Qlt_le_dec a b) as [H|H]; split; intro H'; auto.
  - discriminate.
  - exfalso. lra.
Qed.

Lemma Qgeb_false (a b : Q) : Qgeb a b = false <-> a < b.
Proof.
  unfold Qgeb. destruct (Qlt_le_dec a b) as [H|H]; split; intro H'; auto.
  - discriminate.
  - exfalso. lra.
Qed.

(** ** The monad *)

Lemma bind_Some {A B} (m : M A) (k : A -> M B) (r : Rand) (res : B * Rand) :
  bind m k r = Some res ->
  exists a r1, m r = Some (a, r1) /\ k a r1 = Some res.
Proof.
  unfold bind. destruct (m r) as [[a r1]|]; [|discriminate].
  intro H. exists a, r1. auto.
Qed.

Lemma ret_Some {A} (a b : A) (r r' : Rand) :
  ret a r = Some (b, r') -> b = a /\ r' = r.
Proof. unfold ret. intro H. inversion H. auto. Qed.

Lemma Math_random_Some (r : Rand) : exists u r', Math_random r = Some (u, r').
Proof. unfold Math_random. eauto. Qed.

(** Splits an equation [m r = Some _] along the binds of [m]. *)
Ltac run_step H :=
  match type of H with
  | bind _ _ _ = Some _ =>
      let a := fresh "a" in
      let r := fresh "r" in
      let H1 := fresh "Hrun" in
      apply bind_Some in H; destruct H as (a & r & H1 & H)
  | ret _ _ = Some _ =>
      apply ret_Some in H; destruct H as [? ?]; subst
  end.

Lemma forEach_Forall2 {A B} (f : A -> M B) (cs : list A) :
  forall r cs' r', forEach f cs r = Some (cs', r') ->
  Forall2 (fun c c' => exists ra rb, f c ra = Some (c', rb)) cs cs'.
Proof.
  induction cs as [|c cs IH]; intros r cs' r' H; simpl in H.
  - run_step H. constructor.
  - run_step H. run_step H. run_step H. constructor; eauto.
Qed.

Lemma forEach_total {A B} (f : A -> M B) (cs : list A) :
  Forall (fun c => forall r, exists c' r', f c r = Some (c', r')) cs ->
  forall r, exists cs' r', forEach f cs r = Some (cs', r').
Proof.
  induction 1 as [|c cs Hc _ IH]; intro r; simpl.
  - unfold ret. eauto.
  - unfold bind. destruct (Hc r) as (c' & r1 & ->).
    destruct (IH r1) as (cs' & r2 & ->). unfold ret. eauto.
Qed.

Lemma forEach_single {A B} (f : A -> M B) (c : A) r cs r' :
  forEach f [c] r = Some (cs, r') ->
  exists c', f c r = Some (c', r') /\ cs = [c'].
Proof.
  simpl. intro H. run_step H. run_step H. run_step H. run_step Hrun0. eauto.
Qed.

(** A loop whose body changes nothing changes nothing. *)
Lemma forEach_id {A} (f : A -> M A) (cs : list A) :
  Forall (fun c => forall r, f c r = Some (c, r)) cs ->
  forall r, forEach f cs r = Some (cs, r).
Proof.
  induction 1 as [|c cs Hc _ IH]; intro r; simpl.
  - reflexivity.
  - unfold bind. rewrite Hc, IH. reflexivity.
Qed.

(** ** angleDiff *)

Lemma Math_PI_pos : 0 < Math_PI.
Proof. reflexivity. Qed.

Lemma while_above_spec (n : nat) :
  forall d, d <= Math_PI + 2 * Math_PI * inject_Z (Z.of_nat n) ->
  exists (k : nat) (d' : Q),
    while_above (S n) d = Some d' /\
    d' == d - inject_Z (Z.of_nat k) * (2 * Math_PI) /\
    d' <= Math_PI /\
    (k = 0%nat \/ - Math_PI < d').
Proof.
  pose proof Math_PI_pos as Hpi.
  induction n as [|n IH]; intros d Hd.
  - simpl in *. destruct (Qlt_le_dec Math_PI d) as [Hlt|Hle].
    + exfalso. change (inject_Z 0) with 0 in Hd. lra.
    + exists 0%nat, d. repeat split; auto. simpl. change (inject_Z 0) with 0. lra.
  - cbn [while_above]. destruct (Qlt_le_dec Math_PI d) as [Hlt|Hle].
    + destruct (IH (d - 2 * Math_PI)) as (k & d' & Hrun & Heq & Hub & Hlb).
      { rewrite Nat2Z.inj_succ in Hd. unfold Z.succ in Hd.
        rewrite inject_Z_plus in Hd. change (inject_Z 1) with 1 in Hd. lra. }
      exists (S k), d'. split; [exact Hrun|]. split; [|split; [exact Hub|]].
      * rewrite Heq. rewrite Nat2Z.inj_succ. unfold Z.succ.
        rewrite inject_Z_plus. change (inject_Z 1) with 1. lra.
      * right. destruct Hlb as [-> | Hlb]; [|exact Hlb].
        change (inject_Z (Z.of_nat 0)) with 0 in Heq. lra.
    + exists 0%nat, d. repeat split; auto. change (inject_Z (Z.of_nat 0)) with 0. lra.
Qed.

Lemma while_below_spec (n : nat) :
  forall d, - Math_PI - 2 * Math_PI * inject_Z (Z.of_nat n) <= d ->
  exists (k : nat) (d' : Q),
    while_below (S n) d = Some d' /\
    d' == d + inject_Z (Z.of_nat k) * (2 * Math_PI) /\
    - Math_PI <= d' /\
    (k = 0%nat \/ d' < Math_PI).
Proof.
  pose proof Math_PI_pos as Hpi.
  induction n as [|n IH]; intros d Hd.
  - simpl in *. destruct (Qlt_le_dec d (- Math_PI)) as [Hlt|Hle].
    + exfalso. change (inject_Z 0) with 0 in Hd. lra.
    + exists 0%nat, d. repeat split; auto. simpl. change (inject_Z 0) with 0. lra.
  - cbn [while_below]. destruct (Qlt_le_dec d (- Math_PI)) as [Hlt|Hle].
    + destruct (IH (d + 2 * Math_PI)) as (k & d' & Hrun & Heq & Hlb & Hub).
      { rewrite Nat2Z.inj_succ in Hd. unfold Z.succ in Hd.
        rewrite inject_Z_plus in Hd. change (inject_Z 1) with 1 in Hd. lra. }
      exists (S k), d'. split; [exact Hrun|]. split; [|split; [exact Hlb|]].
      * rewrite Heq. rewrite Nat2Z.inj_succ. unfold Z.succ.
        rewrite inject_Z_plus. change (inject_Z 1) with 1. lra.
      * right. destruct Hub as [-> | Hub]; [|exact Hub].
        change (inject_Z (Z.of_nat 0)) with 0 in Heq. lra.
    + exists 0%nat, d. repeat split; auto. change (inject_Z (Z.of_nat 0)) with 0. lra.
Qed.

Lemma angleDiff_bound_enough (a b : Q) :
  Qabs (a - b) <=
  2 * Math_PI * inject_Z (Z.of_nat (Z.to_nat (Qceiling (Qabs (a - b) / (2 * Math_PI))))).
Proof.
  pose proof Math_PI_pos as Hpi.
  set (x := Qabs (a - b)).
  assert (Hx : 0 <= x) by apply Qabs_nonneg.
  assert (Hq : 0 <= x / (2 * Math_PI)).
  { apply Qle_shift_div_l; lra. }
  pose proof (Qle_ceiling (x / (2 * Math_PI))) as Hc.
  assert (Hz : (0 <= Qceiling (x / (2 * Math_PI)))%Z).
  { rewrite Zle_Qle. change (inject_Z 0) with 0. lra. }
  rewrite Z2Nat.id by exact Hz.
  assert (Hm : x / (2 * Math_PI) * (2 * Math_PI) == x).
  { field. lra. }
  assert (Hle : x / (2 * Math_PI) * (2 * Math_PI) <=
                inject_Z (Qceiling (x / (2 * Math_PI))) * (2 * Math_PI)).
  { apply Qmult_le_compat_r; lra. }
  lra.
Qed.

(** [angleDiff] returns: neither loop runs out of tests. *)
Lemma angleDiff_spec (a b : Q) :
  exists (d : Q) (k : Z),
    angleDiff a b = Some d /\
    d == a - b + inject_Z k * (2 * Math_PI) /\
    - Math_PI <= d /\ d <= Math_PI.
Proof.
  pose proof Math_PI_pos as Hpi.
  unfold angleDiff, angleDiff_fuel, angleDiff_bound.
  set (n := Z.to_nat (Qceiling (Qabs (a - b) / (2 * Math_PI)))).
  pose proof (angleDiff_bound_enough a b) as Hn. fold n in Hn.
  pose proof (Qle_Qabs (a - b)) as Hab.
  assert (Hab' : - Qabs (a - b) <= a - b).
  { pose proof (Qle_Qabs (- (a - b))) as H. rewrite Qabs_opp in H. lra. }
  destruct (while_above_spec n (a - b)) as (k1 & d1 & Hrun1 & Heq1 & Hub1 & Hlb1).
  { lra. }
  rewrite Hrun1.
  destruct (while_below_spec n d1) as (k2 & d2 & Hrun2 & Heq2 & Hlb2 & Hub2).
  { destruct Hlb1 as [-> | Hlb1].
    - change (inject_Z (Z.of_nat 0)) with 0 in Heq1. lra.
    - assert (0 <= inject_Z (Z.of_nat n)).
      { change 0 with (inject_Z 0). rewrite <- Zle_Qle. lia. }
      nra. }
  exists d2, (Z.of_nat k2 - Z.of_nat k1)%Z.
  split; [exact Hrun2|]. split; [|split; [exact Hlb2|]].
  - rewrite Heq2, Heq1. unfold Zminus. rewrite inject_Z_plus, inject_Z_opp. lra.
  - destruct Hub2 as [-> | Hub2]; [|lra].
    change (inject_Z (Z.of_nat 0)) with 0 in Heq2. lra.
Qed.



(** C9, as the specification states it, fails on the numbers of the
    machine: 10^17 is a finite double, the doubles next to it are 16
    apart, so [1e17 - 2 * Math.PI] rounds to [1e17] again and the first
    loop of [angleDiff(1e17, 0)] never ends, whatever the number of tests
    it is given. *)
Module Binary64Facts.
Import PrimFloat.
Local Open Scope float_scope.


End Binary64Facts.

(** ** One tick of a segment *)

Module TickFacts.
Import Segment Tick.

Lemma new_spec parents root_ variety_ offset branch_ r c r' :
  new parents root_ variety_ offset branch_ r = Some (c, r') ->
  is_new root_ variety_ branch_ c /\ angleOffset c = offset.
Proof.
  unfold new. intro H. run_step H. run_step H.
  unfold is_new. simpl. repeat split; reflexivity.
Qed.

Lemma new_total parents root_ variety_ offset branch_ r :
  exists c r', new parents root_ variety_ offset branch_ r = Some (c, r').
Proof. unfold new, bind, Math_random, ret. eauto. Qed.

Lemma set_leaves_id (s : t) : set_leaves (leaves s) s = s.
Proof. destruct s; reflexivity. Qed.

Lemma set_nextLeafSide_id (s : t) : set_nextLeafSide (nextLeafSide s) s = s.
Proof. destruct s; reflexivity. Qed.

Lemma set_children_id (s : t) : set_children (children s) s = s.
Proof. destruct s; reflexivity. Qed.

Lemma grow_leaves_spec (s : t) r s0 r0 :
  grow_leaves s r = Some (s0, r0) ->
  exists extra side_,
    s0 = set_nextLeafSide side_ (set_leaves (leaves s ++ extra) s) /\
    (extra <> [] -> isRoot s = false /\ isBranch s = false).
Proof.
  unfold grow_leaves.
  destruct (negb (isRoot s) && negb (isBranch s) && Qgtb (length s) 3) eqn:Hc.
  - apply andb_prop in Hc. destruct Hc as [Hc _].
    apply andb_prop in Hc. destruct Hc as [Hr Hb].
    apply negb_true_iff in Hr, Hb.
    intro H. run_step H.
    destruct (Qgtb _ _).
    + run_step H. run_step H. do 2 eexists. split; [reflexivity|]. auto.
    + run_step H. exists [], (nextLeafSide s). split; [|congruence].
      rewrite app_nil_r, set_leaves_id, set_nextLeafSide_id. reflexivity.
  - intro H. run_step H. exists [], (nextLeafSide s). split; [|congruence].
    rewrite app_nil_r, set_leaves_id, set_nextLeafSide_id. reflexivity.
Qed.

Lemma grow_leaves_total (s : t) r : exists s0 r0, grow_leaves s r = Some (s0, r0).
Proof.
  unfold grow_leaves, bind, Math_random, ret.
  destruct (_ && _); [|eauto]. destruct (Qgtb _ _); eauto.
Qed.

Lemma _createBranch_spec parents gravity lightDir (s : t) r s' r' :
  _createBranch parents gravity lightDir s r = Some (s', r') ->
  exists c, is_new false (variety s) true c /\
            s' = set_children (children s ++ [c]) s.
Proof.
  unfold _createBranch. intro H. do 3 run_step H. run_step H.
  apply new_spec in Hrun1. destruct Hrun1 as [Hnew _]. eauto.
Qed.

Lemma _createBranch_total parents gravity lightDir (s : t) r :
  exists s' r', _createBranch parents gravity lightDir s r = Some (s', r').
Proof.
  unfold _createBranch, bind, Math_random.
  match goal with |- context [new ?p ?a ?b ?c ?d ?r] =>
    destruct (new_total p a b c d r) as (c' & r' & ->) end.
  unfold ret. eauto.
Qed.

Lemma lift_angleDiff_total (a b : Q) r :
  exists d, lift (angleDiff a b) r = Some (d, r).
Proof.
  destruct (angleDiff_spec a b) as (d & k & H & _). unfold lift. rewrite H. eauto.
Qed.

Lemma lift_Some {A} (o : option A) r a r' :
  lift o r = Some (a, r') -> o = Some a /\ r' = r.
Proof. unfold lift. destruct o; [|discriminate]. intro H. inversion H. auto. Qed.

Lemma _addTipSegment_spec parents gravity lightDir (s : t) r s' r' :
  _addTipSegment parents gravity lightDir s r = Some (s', r') ->
  exists c, is_new (isRoot s) (variety s) (isBranch s) c /\
            s' = set_children (children s ++ [c]) s.
Proof.
  unfold _addTipSegment. intro H. do 4 run_step H. run_step H.
  apply new_spec in Hrun2. destruct Hrun2 as [Hnew _]. eauto.
Qed.

Lemma _addTipSegment_total parents gravity lightDir (s : t) r :
  exists s' r', _addTipSegment parents gravity lightDir s r = Some (s', r').
Proof.
  unfold _addTipSegment.
  set (m1 := if Qgtb gravity 0 then _ else _).
  assert (H1 : exists o1, m1 r = Some (o1, r)).
  { subst m1. destruct (Qgtb gravity 0); [|unfold ret; eauto].
    unfold bind.
    match goal with |- context [lift (angleDiff ?a ?b) r] =>
      destruct (lift_angleDiff_total a b r) as (d & ->) end.
    unfold ret. eauto. }
  destruct H1 as (o1 & H1). unfold bind at 1. rewrite H1.
  set (m2 := if negb _ then _ else _).
  assert (H2 : exists o2, m2 r = Some (o2, r)).
  { subst m2. destruct (negb _); [|unfold ret; eauto].
    unfold bind.
    match goal with |- context [lift (angleDiff ?a ?b) r] =>
      destruct (lift_angleDiff_total a b r) as (d & ->) end.
    unfold ret. eauto. }
  destruct H2 as (o2 & H2). unfold bind at 1. rewrite H2.
  unfold bind, Math_random.
  match goal with |- context [new ?p ?a ?b ?c ?d ?r] =>
    destruct (new_total p a b c d r) as (c' & r' & ->) end.
  unfold ret. eauto.
Qed.

Lemma grow_branch_spec parents gravity lightDir (s : t) r s' r' :
  grow_branch parents gravity lightDir s r = Some (s', r') ->
  s' = s \/
  (isRoot s = false /\ isBranch s = false /\ hasBranched s = false /\
   targetLength s * 0.6 < length s /\ (List.length parents < 5)%nat /\
   exists c, is_new false (variety s) true c /\
             s' = set_hasBranched true (set_children (children s ++ [c]) s)).
Proof.
  unfold grow_branch.
  destruct (_ && _) eqn:Hc.
  - repeat (apply andb_prop in Hc; let H := fresh "Hc" in destruct Hc as [Hc H]).
    apply negb_true_iff in Hc, Hc2, Hc3.
    apply Qltb_true in Hc1. apply Nat.ltb_lt in Hc0.
    intro H. run_step H. destruct (Qltb a 0.15).
    + run_step H. run_step H.
      apply _createBranch_spec in Hrun0. destruct Hrun0 as (c & Hnew & ->).
      right. repeat split; auto. eauto.
    + run_step H. auto.
  - intro H. run_step H. auto.
Qed.

Lemma grow_branch_total parents gravity lightDir (s : t) r :
  exists s' r', grow_branch parents gravity lightDir s r = Some (s', r').
Proof.
  unfold grow_branch. destruct (_ && _); [|unfold ret; eauto].
  unfold bind, Math_random. destruct (Qltb _ _); [|unfold ret; eauto].
  match goal with |- context [_createBranch ?p ?g ?l ?s ?r] =>
    destruct (_createBranch_total p g l s r) as (s' & r' & ->) end.
  unfold ret. eauto.
Qed.

Lemma grow_tip_spec parents gravity lightDir tot max (s : t) r s' r' :
  grow_tip parents gravity lightDir tot max s r = Some (s', r') ->
  (s' = s /\ (length s < targetLength s \/ children s <> [])) \/
  (children s = [] /\ targetLength s <= length s /\
   ((max <= tot /\ s' = set_growing false s) \/
    (tot < max /\
     exists c, is_new (isRoot s) (variety s) (isBranch s) c /\
               s' = set_children (children s ++ [c]) (set_growing false s)))).
Proof.
  unfold grow_tip.
  destruct (Qgeb (length s) (targetLength s)) eqn:Hlen; simpl.
  - apply Qgeb_true in Hlen.
    destruct (children s) as [|c0 cs] eqn:Hcs; simpl.
    + destruct (Qltb tot max) eqn:Hmax.
      * apply Qltb_true in Hmax. intro H.
        apply _addTipSegment_spec in H. destruct H as (c & Hnew & ->).
        right. repeat split; auto. right. split; auto.
        exists c. simpl in *. rewrite Hcs. auto.
      * apply Qltb_false in Hmax. intro H. run_step H.
        right. repeat split; auto.
    + intro H. run_step H. left. split; auto. right. congruence.
  - apply Qgeb_false in Hlen. intro H. run_step H. auto.
Qed.

Lemma grow_tip_total parents gravity lightDir tot max (s : t) r :
  exists s' r', grow_tip parents gravity lightDir tot max s r = Some (s', r').
Proof.
  unfold grow_tip. destruct (_ && _); [|unfold ret; eauto].
  destruct (Qltb _ _); [|unfold ret; eauto].
  apply _addTipSegment_total.
Qed.

Lemma lengthened_fields (s s0 : t) :
  lengthened s s0 ->
  same_identity s s0 /\ children s0 = children s /\ growing s0 = true /\
  hasBranched s0 = hasBranched s /\
  length s0 = Qred (length s + increment s) /\
  (isRoot s = true \/ isBranch s = true -> leaves s0 = leaves s).
Proof.
  intros (Hg & extra & side_ & -> & Hextra).
  unfold same_identity. simpl. repeat split; auto.
  intros Hrb. destruct extra as [|e extra]; [apply app_nil_r|].
  destruct Hextra as [Hr Hb]; [discriminate|].
  destruct Hrb; congruence.
Qed.

(** [grow_self] follows one of the five ways. *)
Lemma grow_self_sound parents gravity lightDir tot max (s : t) r s1 r1 :
  grow_self parents gravity lightDir tot max s r = Some (s1, r1) ->
  self_step (List.length parents) tot max s s1.
Proof.
  unfold grow_self. destruct (growing s) eqn:Hg.
  - intro H. run_step H. run_step H.
    apply grow_leaves_spec in Hrun. destruct Hrun as (extra & side_ & Ha & Hx).
    assert (Hl : lengthened s a).
    { split; [exact Hg|]. exists extra, side_. split; [exact Ha|]. exact Hx. }
    apply grow_branch_spec in Hrun0.
    destruct Hrun0 as [-> | (Hr & Hb & Hhb & Hlen & Hd & c & Hnew & ->)].
    + apply grow_tip_spec in H.
      destruct H as [[-> Hno] | (Hcs & Hlen & [[Hmax ->] | (Hmax & c & Hnew & ->)])].
      * apply step_grow; assumption.
      * apply step_stop; assumption.
      * apply step_tip; assumption.
    + apply grow_tip_spec in H.
      destruct H as [[-> Hno] | (Hcs & _)].
      * apply step_branch; assumption.
      * simpl in Hcs. destruct (children a); discriminate.
  - intro H. run_step H. apply step_inactive. exact Hg.
Qed.

Lemma grow_self_total parents gravity lightDir tot max (s : t) r :
  exists s1 r1, grow_self parents gravity lightDir tot max s r = Some (s1, r1).
Proof.
  unfold grow_self. destruct (growing s); [|unfold ret; eauto].
  unfold bind.
  destruct (grow_leaves_total (grow_length s) r) as (s0 & r0 & ->).
  destruct (grow_branch_total parents gravity lightDir s0 r0) as (s2 & r2 & ->).
  apply grow_tip_total.
Qed.

(** A segment that has stopped neither changes nor draws. *)
Lemma grow_self_inactive parents gravity lightDir tot max (s : t) r :
  growing s = false ->
  grow_self parents gravity lightDir tot max s r = Some (s, r).
Proof. unfold grow_self. intros ->. reflexivity. Qed.

Lemma self_step_identity depth tot max (s s1 : t) :
  self_step depth tot max s s1 -> same_identity s s1.
Proof.
  destruct 1 as [Hg | s0 Hl _ | s0 c Hl _ _ _ _ _ _ | s0 Hl _ _ _ | s0 c Hl _ _ _ _];
    try (apply lengthened_fields in Hl; destruct Hl as (Hid & _);
         unfold same_identity in *; simpl; exact Hid).
  unfold same_identity. auto.
Qed.

(** The children after the segment's own part of a tick: those there
    were, and at most one new segment behind them. *)
Lemma self_step_children depth tot max (s s1 : t) :
  self_step depth tot max s s1 ->
  children s1 = children s \/
  exists c, children s1 = children s ++ [c] /\
            exists root_ branch_, is_new root_ (variety s) branch_ c.
Proof.
  destruct 1 as [Hg | s0 Hl _ | s0 c Hl _ _ _ _ _ Hnew | s0 Hl _ _ _ | s0 c Hl _ _ _ Hnew];
    try (apply lengthened_fields in Hl;
         destruct Hl as ((_ & Hv & _) & Hcs & _); simpl).
  - left. reflexivity.
  - left. exact Hcs.
  - right. exists c. rewrite Hcs, <- Hv. eauto.
  - left. exact Hcs.
  - right. exists c. rewrite Hcs, <- Hv. eauto.
Qed.

Lemma self_step_growing depth tot max (s s1 : t) :
  self_step depth tot max s s1 -> growing s1 = true -> growing s = true.
Proof.
  destruct 1 as [Hg | s0 Hl _ | s0 c Hl _ _ _ _ _ _ | s0 Hl _ _ _ | s0 c Hl _ _ _ _];
    try (destruct Hl as [Hl _]; auto); auto.
Qed.

(** [grow] is its own part followed by the loop over the children. *)
Lemma grow_inv fuel parents gravity lightDir tot max (s : t) r s' r' :
  grow fuel parents gravity lightDir tot max s r = Some (s', r') ->
  exists fuel' s1 r1 cs,
    fuel = S fuel' /\
    grow_self parents gravity lightDir tot max s r = Some (s1, r1) /\
    forEach (grow fuel' (link s :: parents) gravity lightDir tot max)
            (children s1) r1 = Some (cs, r') /\
    s' = set_children cs s1.
Proof.
  destruct fuel as [|fuel']; simpl; [discriminate|].
  intro H. run_step H. run_step H. run_step H.
  exists fuel', a, r0, a0. repeat split; auto.
  assert (Hlink : link a = link s).
  { apply grow_self_sound in Hrun. apply self_step_identity in Hrun.
    destruct Hrun as (Hr & _ & Ho & _). unfold link. congruence. }
  rewrite <- Hlink. exact Hrun0.
Qed.

Lemma grow_identity fuel parents gravity lightDir tot max (s : t) r s' r' :
  grow fuel parents gravity lightDir tot max s r = Some (s', r') ->
  same_identity s s'.
Proof.
  intro H. apply grow_inv in H.
  destruct H as (fuel' & s1 & r1 & cs & _ & Hself & _ & ->).
  apply grow_self_sound in Hself. apply self_step_identity in Hself.
  exact Hself.
Qed.

(** A segment made in this tick only gets longer in it: it is too short
    for a leaf, a branch or a tip. *)
Lemma increment_bounds (s : t) : 0 < increment s /\ increment s <= 0.1375.
Proof.
  unfold increment.
  destruct (variety s), (isRoot s), (isBranch s); simpl; split; reflexivity || discriminate.
Qed.

Lemma self_step_new depth tot max root_ variety_ branch_ (c c1 : t) :
  is_new root_ variety_ branch_ c ->
  self_step depth tot max c c1 ->
  children c1 = [] /\ growing c1 = true /\ length c1 == 0.1 + increment c.
Proof.
  intros (Hr & Hv & Hb & Ht & Hlen & Hg & Hcs & Hlv & Hhb) Hstep.
  pose proof (increment_bounds c) as [Hi0 Hi1].
  assert (Htl : 10 <= targetLength c).
  { rewrite Ht. destruct root_; discriminate. }
  assert (Hshort : forall s0, lengthened c s0 ->
            length s0 == 0.1 + increment c /\ targetLength s0 = targetLength c /\
            children s0 = [] /\ growing s0 = true).
  { intros s0 Hl. apply lengthened_fields in Hl.
    destruct Hl as ((_ & _ & _ & _ & Ht0) & Hcs0 & Hg0 & _ & Hlen0 & _).
    rewrite Hlen0, Qred_correct, Hlen, Hcs0.
    repeat split; auto. }
  destruct Hstep as [Hg' | s0 Hl _ | s0 c' Hl _ _ _ Hbr _ _ | s0 Hl _ Hfull _ | s0 c' Hl _ Hfull _ _];
    try (destruct (Hshort _ Hl) as (Hlen0 & Ht0 & Hcs0 & Hg0)).
  - congruence.
  - auto.
  - exfalso. rewrite Ht0 in Hbr. lra.
  - exfalso. rewrite Ht0 in Hfull. lra.
  - exfalso. rewrite Ht0 in Hfull. lra.
Qed.

(** ** Whole trees *)

Lemma All_unfold (P : nat -> t -> Prop) depth (s : t) :
  All P depth s <-> P depth s /\ Forall (All P (S depth)) (children s).
Proof.
  destruct s as [ir v off br tl len g cs lv side_ hb bw]. simpl.
  assert (H : fold_right (fun c rest => All P (S depth) c /\ rest) True cs
              <-> Forall (All P (S depth)) cs).
  { induction cs as [|c cs IH]; simpl.
    - split; auto.
    - rewrite IH. split.
      + intros [? ?]. constructor; auto.
      + intro H. inversion H. auto. }
  rewrite H. reflexivity.
Qed.

Lemma All_at_path_All (P : nat -> t -> Prop) path :
  forall depth (s x : t),
    All P depth s -> at_path path s = Some x ->
    All P (depth + List.length path)%nat x.
Proof.
  induction path as [|i path IH]; intros depth s x Hall Hat; simpl in *.
  - inversion Hat; subst. rewrite Nat.add_0_r. exact Hall.
  - destruct (nth_error (children s) i) as [c|] eqn:Hc; [|discriminate].
    apply All_unfold in Hall. destruct Hall as [_ Hall].
    rewrite Forall_forall in Hall.
    replace (depth + S (List.length path))%nat
      with (S depth + List.length path)%nat by lia.
    apply (IH (S depth) c x); auto.
    apply Hall. eapply nth_error_In; eauto.
Qed.

Lemma All_at_path (P : nat -> t -> Prop) path depth (s x : t) :
  All P depth s -> at_path path s = Some x ->
  P (depth + List.length path)%nat x.
Proof.
  intros Hall Hat. apply (All_at_path_All P path depth s x Hall) in Hat.
  apply All_unfold in Hat. tauto.
Qed.

Lemma height_unfold (s : t) :
  height s = fold_right (fun c h => Nat.max (S (height c)) h) 0%nat (children s).
Proof. destruct s; reflexivity. Qed.

Lemma height_child (s c : t) : In c (children s) -> (S (height c) <= height s)%nat.
Proof.
  rewrite (height_unfold s).
  induction (children s) as [|c0 cs IH]; cbn [fold_right In]; intro H;
    [contradiction|].
  destruct H as [-> | H]; [lia|]. specialize (IH H). lia.
Qed.

(** [grow] returns when it is given the nesting [growFuel] allows, and in
    one call on a segment made in this tick. *)
Lemma grow_total fuel :
  forall parents gravity lightDir tot max (s : t) r,
    (height s + 2 <= fuel)%nat \/
    ((exists root_ variety_ branch_, is_new root_ variety_ branch_ s) /\
     (1 <= fuel)%nat) ->
    exists s' r', grow fuel parents gravity lightDir tot max s r = Some (s', r').
Proof.
  induction fuel as [|fuel IH]; intros parents gravity lightDir tot max s r Hfuel.
  - exfalso. destruct Hfuel as [H | [_ H]]; lia.
  - cbn [grow]. unfold bind at 1.
    destruct (grow_self_total parents gravity lightDir tot max s r)
      as (s1 & r1 & Hself).
    rewrite Hself. pose proof (grow_self_sound _ _ _ _ _ _ _ _ _ Hself) as Hstep.
    assert (Hloop : exists cs r2,
               forEach (grow fuel (link s1 :: parents) gravity lightDir tot max)
                       (children s1) r1 = Some (cs, r2)).
    { apply forEach_total. destruct Hfuel as [Hh | [(ir & v & br & Hnew) _]].
      - assert (Hold : Forall (fun c => forall r0, exists c' r',
                  grow fuel (link s1 :: parents) gravity lightDir tot max c r0
                  = Some (c', r')) (children s)).
        { apply Forall_forall. intros c Hc r0. apply IH. left.
          apply height_child in Hc. lia. }
        destruct (self_step_children _ _ _ _ _ Hstep)
          as [-> | (c & -> & ir & br & Hnew)]; [exact Hold|].
        apply Forall_app. split; [exact Hold|].
        constructor; [|constructor].
        intro r0. apply IH. right. split; [eauto|lia].
      - destruct (self_step_new _ _ _ _ _ _ _ _ Hnew Hstep) as (-> & _).
        constructor. }
    destruct Hloop as (cs & r2 & Hloop).
    unfold bind. rewrite Hloop. unfold ret. eauto.
Qed.

(** A segment made in this tick, after the tick. *)
Lemma grow_new fuel parents gravity lightDir tot max root_ variety_ branch_
    (c c' : t) r r' :
  is_new root_ variety_ branch_ c ->
  grow fuel parents gravity lightDir tot max c r = Some (c', r') ->
  self_step (List.length parents) tot max c c' /\
  children c' = [] /\ growing c' = true /\ length c' == 0.1 + increment c.
Proof.
  intros Hnew H. apply grow_inv in H.
  destruct H as (fuel' & c1 & r1 & cs & _ & Hself & Hloop & ->).
  apply grow_self_sound in Hself.
  destruct (self_step_new _ _ _ _ _ _ _ _ Hnew Hself) as (Hcs & Hg & Hlen).
  rewrite Hcs in Hloop. simpl in Hloop. run_step Hloop.
  rewrite <- Hcs, set_children_id. auto.
Qed.

Lemma grow_children_identity fuel parents gravity lightDir tot max cs :
  forall r cs' r',
    forEach (grow fuel parents gravity lightDir tot max) cs r = Some (cs', r') ->
    Forall2 same_identity cs cs'.
Proof.
  intros r cs' r' H. apply forEach_Forall2 in H.
  induction H as [|c c' cs cs' (ra & rb & Hc) _ IH]; constructor; auto.
  eapply grow_identity; eauto.
Qed.

(** A property of every segment that the segment's own part of a tick
    keeps, whatever its children become, and that holds of a new segment
    after its first tick, holds of the whole tree after the tick. *)
Theorem grow_All (P : nat -> t -> Prop) (tot max : Q) :
  (forall depth s s1 cs',
      P depth s -> self_step depth tot max s s1 ->
      Forall2 same_identity (children s1) cs' ->
      P depth (set_children cs' s1)) ->
  (forall depth s s1 c c1,
      P depth s -> self_step depth tot max s s1 ->
      children s1 = children s ++ [c] ->
      is_new (isRoot c) (variety c) (isBranch c) c ->
      self_step (S depth) tot max c c1 ->
      children c1 = [] ->
      P (S depth) c1) ->
  forall fuel parents gravity lightDir (s : t) r s' r',
    grow fuel parents gravity lightDir tot max s r = Some (s', r') ->
    All P (List.length parents) s -> All P (List.length parents) s'.
Proof.
  intros Hkeep Hfresh.
  induction fuel as [|fuel IH]; intros parents gravity lightDir s r s' r' H Hall.
  - discriminate.
  - apply grow_inv in H.
    destruct H as (fuel' & s1 & r1 & cs & Hf & Hself & Hloop & ->).
    inversion Hf; subst fuel'; clear Hf.
    apply grow_self_sound in Hself.
    apply All_unfold in Hall. destruct Hall as [HP Hkids].
    apply All_unfold. split.
    + apply Hkeep with (s := s); auto.
      eapply grow_children_identity; eauto.
    + simpl.
      assert (Hold : forall cs0 csa,
                 Forall (All P (S (List.length parents))) cs0 ->
                 Forall2 (fun c c' => exists ra rb,
                            grow fuel (link s :: parents) gravity lightDir
                                 tot max c ra = Some (c', rb)) cs0 csa ->
                 Forall (All P (S (List.length parents))) csa).
      { intros cs0 csa Hcs0 Hrun.
        induction Hrun as [|c c' l l' (rc & rd & Hc) _ IHl]; constructor.
        - inversion Hcs0; subst.
          apply (IH (link s :: parents) gravity lightDir c rc c' rd); auto.
        - inversion Hcs0; subst. auto. }
      apply forEach_Forall2 in Hloop.
      destruct (self_step_children _ _ _ _ _ Hself)
        as [Hcs | (c & Hcs & ir & br & Hnew)].
      * rewrite Hcs in Hloop. eapply Hold; eauto.
      * pose proof Hloop as Hloop'. rewrite Hcs in Hloop'.
        apply Forall2_app_inv_l in Hloop'.
        destruct Hloop' as (csa & csb & Ha & Hb & ->).
        apply Forall_app. split.
        -- eapply Hold; eauto.
        -- inversion Hb as [|c0 c0' l l' (rc & rd & Hc) Hnil]; subst.
           inversion Hnil; subst. constructor; [|constructor].
           assert (Hnew' : is_new (isRoot c) (variety c) (isBranch c) c).
           { destruct Hnew as (Hr & Hv & Hbr & Ht & Hrest).
             unfold is_new. rewrite Hr. tauto. }
           destruct (grow_new _ _ _ _ _ _ _ _ _ _ _ _ _ Hnew' Hc)
             as (Hstep & Hnokids & _).
           apply All_unfold. rewrite Hnokids. split; [|constructor].
           apply (Hfresh (List.length parents) s s1 c c0'); auto.
Qed.

Lemma self_step_child_kind depth tot max (s s1 c : t) :
  self_step depth tot max s s1 ->
  children s1 = children s ++ [c] ->
  ((depth < 5)%nat /\ isRoot s = false /\ isBranch s = false /\
   is_new false (variety s) true c /\ growing s1 = true) \/
  (children s = [] /\ is_new (isRoot s) (variety s) (isBranch s) c /\
   growing s1 = false /\ tot < max).
Proof.
  assert (Hno : forall l : list t, l = l ++ [c] -> False).
  { intros l H. apply (f_equal (@List.length t)) in H.
    rewrite length_app in H. simpl in H. lia. }
  destruct 1 as [Hg | s0 Hl _ | s0 c' Hl Hr Hb _ _ Hd Hnew | s0 Hl _ _ _
                 | s0 c' Hl Hcs _ Hmax Hnew];
    try (apply lengthened_fields in Hl;
         destruct Hl as ((Hir & Hv & _ & Hbr & _) & Hcs0 & Hg0 & _));
    simpl; intro H.
  - exfalso. eauto.
  - exfalso. rewrite Hcs0 in H. eauto.
  - rewrite Hcs0 in H. apply app_inj_tail in H. destruct H as [_ ->].
    left. rewrite <- Hv, <- Hir, <- Hbr. auto.
  - exfalso. rewrite Hcs0 in H. eauto.
  - rewrite Hcs0 in H. apply app_inj_tail in H. destruct H as [_ ->].
    right. rewrite <- Hv, <- Hir, <- Hbr, <- Hcs0. auto.
Qed.

(** What a tick leaves alone on a branch segment. *)
Lemma self_step_on_branch depth tot max (s s1 : t) :
  self_step depth tot max s s1 ->
  isBranch s = true ->
  leaves s1 = leaves s /\ hasBranched s1 = hasBranched s /\
  (List.length (children s) <= 1 -> List.length (children s1) <= 1)%nat.
Proof.
  destruct 1 as [Hg | s0 Hl _ | s0 c' Hl Hr Hb _ _ Hd Hnew | s0 Hl _ _ _
                 | s0 c' Hl Hcs _ Hmax Hnew];
    intro Hbranch;
    try (apply lengthened_fields in Hl;
         destruct Hl as ((Hir & Hv & _ & Hbr & _) & Hcs0 & Hg0 & Hhb & _ & Hlv);
         simpl).
  - auto.
  - rewrite Hcs0. auto.
  - congruence.
  - rewrite Hcs0. auto.
  - repeat split; auto. intros _. rewrite Hcs. simpl. lia.
Qed.

Lemma Forall_isBranch_identity (b : bool) (cs cs' : list t) :
  Forall2 same_identity cs cs' ->
  Forall (fun c => isBranch c = b) cs ->
  Forall (fun c => isBranch c = b) cs'.
Proof.
  induction 1 as [|c c' l l' (_ & _ & _ & Hb & _) _ IH]; intro H; constructor;
    inversion H; subst; auto; congruence.
Qed.

Lemma branch_cap_grow tot max fuel parents gravity lightDir (s : t) r s' r' :
  grow fuel parents gravity lightDir tot max s r = Some (s', r') ->
  All branch_cap (List.length parents) s ->
  All branch_cap (List.length parents) s'.
Proof.
  apply grow_All.
  - intros depth x x1 cs' HP Hstep Hid Hdeep Hnb. simpl in *.
    apply (Forall_isBranch_identity false _ _ Hid).
    pose proof (self_step_identity _ _ _ _ _ Hstep) as (_ & _ & _ & Hb & _).
    assert (Hx : isBranch x = false) by congruence.
    destruct (self_step_children _ _ _ _ _ Hstep) as [-> | (c & Hcs & _)].
    + apply HP; auto.
    + rewrite Hcs. apply Forall_app. split; [apply HP; auto|].
      constructor; [|constructor].
      destruct (self_step_child_kind _ _ _ _ _ _ Hstep Hcs)
        as [(Hd & _) | (_ & (_ & _ & Hcb & _) & _)]; [lia|congruence].
  - intros depth x x1 c c1 _ _ _ _ _ Hnokids _ _. rewrite Hnokids. constructor.
Qed.

Lemma branch_chain_grow tot max fuel parents gravity lightDir (s : t) r s' r' :
  grow fuel parents gravity lightDir tot max s r = Some (s', r') ->
  All branch_chain (List.length parents) s ->
  All branch_chain (List.length parents) s'.
Proof.
  apply grow_All.
  - intros depth x x1 cs' HP Hstep Hid Hb1. simpl in *.
    pose proof (self_step_identity _ _ _ _ _ Hstep) as (Hir & _ & _ & Hb & _).
    assert (Hx : isBranch x = true) by congruence.
    destruct (HP Hx) as (Hr & Hlv & Hhb & Hone & Hkids).
    destruct (self_step_on_branch _ _ _ _ _ Hstep Hx) as (Hlv1 & Hhb1 & Hone1).
    repeat split; try congruence.
    { rewrite <- (Forall2_length Hid). auto. }
    apply (Forall_isBranch_identity true _ _ Hid).
    destruct (self_step_children _ _ _ _ _ Hstep) as [-> | (c & Hcs & _)]; auto.
    rewrite Hcs. apply Forall_app. split; auto.
    constructor; [|constructor].
    destruct (self_step_child_kind _ _ _ _ _ _ Hstep Hcs)
      as [(_ & _ & Hnb & _) | (_ & (_ & _ & Hcb & _) & _)]; congruence.
  - intros depth x x1 c c1 HP Hstep Hcs Hnew Hstepc Hnokids Hb1.
    pose proof (self_step_identity _ _ _ _ _ Hstepc) as (Hir & _ & _ & Hb & _).
    assert (Hc : isBranch c = true) by congruence.
    destruct (self_step_on_branch _ _ _ _ _ Hstepc Hc) as (Hlv1 & Hhb1 & _).
    destruct Hnew as (_ & _ & _ & _ & _ & _ & _ & Hlv & Hhb).
    rewrite Hnokids. repeat split; try congruence; [|simpl; lia|constructor].
    rewrite Hir.
    destruct (self_step_child_kind _ _ _ _ _ _ Hstep Hcs)
      as [(_ & _ & _ & (Hcr & _) & _) | (_ & (Hcr & _ & Hcb & _) & _)]; auto.
    rewrite Hcr. apply HP. congruence.
Qed.

End TickFacts.

(** ** Plants *)

Module PlantFacts.
Import Segment Tick TickFacts.

Lemma plant_new_spec variety_ gravity lightDir r p r' :
  Plant.new variety_ gravity lightDir r = Some (p, r') ->
  is_new false variety_ false (Plant.shoot p) /\
  is_new true variety_ false (Plant.root p) /\
  Plant.variety p = variety_ /\
  Plant.maxShootLength p = maxStemLen (VARIETIES variety_) /\
  Plant.maxRootLength p = maxRootLen (VARIETIES variety_) /\
  angleOffset (Plant.shoot p) = Qred ((draws r (cursor r) - 0.5) * 0.08) /\
  angleOffset (Plant.root p) = Qred ((draws r (cursor r) - 0.5) * 0.08).
Proof.
  unfold Plant.new. intro H. run_step H.
  unfold Math_random in Hrun. inversion Hrun; subst; clear Hrun.
  run_step H. run_step H. run_step H.
  apply TickFacts.new_spec in Hrun, Hrun0.
  destruct Hrun as [Hs Hso], Hrun0 as [Hr Hro]. simpl. tauto.
Qed.

Lemma plant_new_total variety_ gravity lightDir r :
  exists p r', Plant.new variety_ gravity lightDir r = Some (p, r').
Proof.
  unfold Plant.new, bind, Math_random.
  match goal with |- context [Segment.new ?p ?a ?b ?c ?d ?r] =>
    destruct (TickFacts.new_total p a b c d r) as (s1 & r1 & ->) end.
  match goal with |- context [Segment.new ?p ?a ?b ?c ?d ?r] =>
    destruct (TickFacts.new_total p a b c d r) as (s2 & r2 & ->) end.
  unfold ret. eauto.
Qed.

(** [update] before and after the germination delay. *)
Lemma update_inv gravity lightDir (p : Plant.t) r p' r' :
  Plant.update gravity lightDir p r = Some (p', r') ->
  Plant.variety p' = Plant.variety p /\
  Plant.maxShootLength p' = Plant.maxShootLength p /\
  Plant.maxRootLength p' = Plant.maxRootLength p /\
  Plant.age p' = (Plant.age p + 1)%Z /\
  ((Plant.shoot p' = Plant.shoot p /\ Plant.root p' = Plant.root p /\ r' = r) \/
   exists r1,
     grow (growFuel (Plant.shoot p)) [] gravity lightDir
          (totalLength (Plant.shoot p)) (Plant.maxShootLength p)
          (Plant.shoot p) r = Some (Plant.shoot p', r1) /\
     grow (growFuel (Plant.root p)) [] gravity lightDir
          (totalLength (Plant.root p)) (Plant.maxRootLength p)
          (Plant.root p) r1 = Some (Plant.root p', r')).
Proof.
  unfold Plant.update. destruct (_ <? 8)%Z.
  - intro H. run_step H. simpl. tauto.
  - intro H. run_step H. run_step H. run_step H. simpl.
    repeat split; auto. right. eauto.
Qed.

(** [update] always returns. *)
Lemma update_total gravity lightDir (p : Plant.t) r :
  exists p' r', Plant.update gravity lightDir p r = Some (p', r').
Proof.
  unfold Plant.update. destruct (_ <? 8)%Z; [unfold ret; eauto|].
  unfold bind.
  destruct (grow_total (growFuel (Plant.shoot p)) [] gravity lightDir
              (totalLength (Plant.shoot p)) (Plant.maxShootLength p)
              (Plant.shoot p) r) as (s' & r1 & ->).
  { left. unfold growFuel. lia. }
  destruct (grow_total (growFuel (Plant.root p)) [] gravity lightDir
              (totalLength (Plant.root p)) (Plant.maxRootLength p)
              (Plant.root p) r1) as (t' & r2 & ->).
  { left. unfold growFuel. lia. }
  unfold ret. eauto.
Qed.

Lemma updates_total n gravity lightDir :
  forall (p : Plant.t) r,
    exists p' r', Plant.updates n gravity lightDir p r = Some (p', r').
Proof.
  induction n as [|n IH]; intros p r; simpl.
  - unfold ret. eauto.
  - unfold bind. destruct (update_total gravity lightDir p r) as (p1 & r1 & ->).
    apply IH.
Qed.

Lemma updates_reachable n gravity lightDir :
  forall (p : Plant.t) r p' r',
    reachable p ->
    Plant.updates n gravity lightDir p r = Some (p', r') ->
    reachable p'.
Proof.
  induction n as [|n IH]; intros p r p' r' Hp H; simpl in H.
  - run_step H. exact Hp.
  - run_step H. eapply IH; [|exact H].
    eapply reachable_update; eauto.
Qed.

Lemma run_reachable r variety_ gravity lightDir n p :
  run r variety_ gravity lightDir n = Some p -> reachable p.
Proof.
  unfold run.
  destruct ((_ <- _ ;; _) r) as [[p0 r0]|] eqn:H; [|discriminate].
  intro Hp. inversion Hp; subst. run_step H.
  eapply updates_reachable; [|exact H].
  eapply reachable_new; eauto.
Qed.

(** Every run returns a plant. *)
Lemma run_total r variety_ gravity lightDir n :
  exists p, run r variety_ gravity lightDir n = Some p.
Proof.
  unfold run, bind.
  destruct (plant_new_total variety_ gravity lightDir r) as (p0 & r0 & ->).
  destruct (updates_total n gravity lightDir p0 r0) as (p & r1 & ->).
  eauto.
Qed.

(** A property that every tick keeps and every new segment has holds of
    both organs of every reachable plant. *)
Lemma reachable_All (P : nat -> t -> Prop) :
  (forall root_ variety_ c, is_new root_ variety_ false c -> P 0%nat c) ->
  (forall tot max fuel parents gravity lightDir (s : t) r s' r',
      grow fuel parents gravity lightDir tot max s r = Some (s', r') ->
      All P (List.length parents) s -> All P (List.length parents) s') ->
  forall p, reachable p ->
    All P 0%nat (Plant.shoot p) /\ All P 0%nat (Plant.root p).
Proof.
  intros Hnew Hgrow p Hp.
  induction Hp as [v g l r p r' H | p g l r p' r' Hp IH H].
  - apply plant_new_spec in H. destruct H as (Hs & Hr & _).
    split; apply All_unfold.
    + pose proof Hs as (_ & _ & _ & _ & _ & _ & Hcs & _).
      rewrite Hcs. split; [eapply Hnew; eauto|constructor].
    + pose proof Hr as (_ & _ & _ & _ & _ & _ & Hcs & _).
      rewrite Hcs. split; [eapply Hnew; eauto|constructor].
  - apply update_inv in H.
    destruct H as (_ & _ & _ & _ & [(-> & -> & _) | (r1 & Hs & Hr)]); auto.
    destruct IH as [IHs IHr]. split.
    + eapply (Hgrow _ _ _ []); eauto.
    + eapply (Hgrow _ _ _ []); eauto.
Qed.

(** The evaluated runs are what [run] returns. *)
Lemma branching_run_93_eq :
  run (constant_draws 0.1) cress 0 "none" 93 = branching_run_93.
Proof. vm_compute. reflexivity. Qed.

Lemma branching_run_94_eq :
  run (constant_draws 0.1) cress 0 "none" 94 = branching_run_94.
Proof. vm_compute. reflexivity. Qed.

Lemma branching_run_800_eq :
  run (constant_draws 0.1) cress 0 "none" 800 = branching_run_800.
Proof. vm_compute. reflexivity. Qed.

Lemma ripening_run_eq :
  run (constant_draws 0.5) cress 0 "none" 1727 = ripening_run.
Proof. vm_compute. reflexivity. Qed.

Lemma overshooting_run_eq :
  run (constant_draws 0.5) arabidopsis 1 "none" 1300 = overshooting_run.
Proof. vm_compute. reflexivity. Qed.

(** Brings an evaluated run into the context as [Hrun] and gives its plant
    as the witness of the goal. *)
Ltac with_run Heq run_ :=
  pose proof Heq as Hrun; unfold run_ in Hrun;
  match type of Hrun with _ = Some ?p => exists p end.

End PlantFacts.

(** * Part III: the properties of the specification *)

Module Properties.
Import Segment Tick TickFacts PlantFacts.

(** ** Branch depth *)

Lemma reachable_branch_cap (p : Plant.t) :
  reachable p ->
  All branch_cap 0%nat (Plant.shoot p) /\ All branch_cap 0%nat (Plant.root p).
Proof.
  apply reachable_All.
  - intros root_ variety_ c _ Hdeep. lia.
  - intros. eapply branch_cap_grow; eauto.
Qed.

(** C2, as the code has it.  In every reachable plant, a segment whose
    depth (its number of ancestors) is at or beyond the cap of 5 has a child
    marked [isBranch] only when it is itself a branch segment, the child
    being its continuation: no branch is spawned at depth 5 or deeper. *)
Theorem no_branch_spawned_at_depth_cap (p : Plant.t) (organ : t)
    (path : list nat) (s c : t) :
  reachable p ->
  organ = Plant.shoot p \/ organ = Plant.root p ->
  at_path path organ = Some s ->
  (5 <= List.length path)%nat ->
  In c (children s) ->
  isBranch c = true ->
  isBranch s = true.
Proof.
  intros Hp Horgan Hat Hdeep Hc Hcb.
  assert (Hall : All branch_cap 0%nat organ).
  { destruct (reachable_branch_cap p Hp). destruct Horgan; subst; auto. }
  pose proof (All_at_path _ _ _ _ _ Hall Hat) as Hcap. simpl in Hcap.
  destruct (isBranch s) eqn:Hs; [reflexivity|].
  specialize (Hcap Hdeep Hs). rewrite Forall_forall in Hcap.
  rewrite (Hcap c Hc) in Hcb. discriminate.
Qed.

(** The shoot that branches on its first occasion (every draw is 0.1),
    after 800 ticks: the branch chain is seven segments long. *)
Lemma no_branch_spawned_at_depth_cap_witness :
  exists (p : Plant.t) (s c : t),
    run (constant_draws 0.1) cress 0 "none" 800 = Some p /\
    at_path [0; 0; 0; 0; 0]%nat (Plant.shoot p) = Some s /\
    nth_error (children s) 0 = Some c /\
    isBranch c = true /\
    isBranch s = true.
Proof.
  with_run branching_run_800_eq branching_run_800.
  do 2 eexists.
  split; [exact Hrun|].
  split; [reflexivity|].
  split; [reflexivity|].
  split; [reflexivity|].
  eapply (no_branch_spawned_at_depth_cap _ _ [0; 0; 0; 0; 0]%nat).
  - exact (run_reachable _ _ _ _ _ _ Hrun).
  - left. reflexivity.
  - reflexivity.
  - simpl. lia.
  - left. reflexivity.
  - reflexivity.
Defined.

(** C2, as the specification states it, fails: a reachable shoot has a
    segment at depth 5 with a child marked [isBranch] (the continuation of a
    branch chain). *)
Lemma branch_child_beyond_depth_cap :
  exists (p : Plant.t) (path : list nat) (s c : t),
    reachable p /\
    at_path path (Plant.shoot p) = Some s /\
    (5 <= List.length path)%nat /\
    In c (children s) /\
    isBranch c = true.
Proof.
  with_run branching_run_800_eq branching_run_800.
  exists [0; 0; 0; 0; 0]%nat. do 2 eexists.
  split; [exact (run_reachable _ _ _ _ _ _ Hrun)|].
  split; [reflexivity|].
  split; [simpl; lia|].
  split; [left; reflexivity|reflexivity].
Qed.

(** ** Branch chains *)

Lemma reachable_branch_chain (p : Plant.t) :
  reachable p ->
  All branch_chain 0%nat (Plant.shoot p) /\ All branch_chain 0%nat (Plant.root p).
Proof.
  apply reachable_All.
  - intros root_ variety_ c (_ & _ & Hb & _) Hcb. congruence.
  - intros. eapply branch_chain_grow; eauto.
Qed.

Lemma branch_descendants path :
  forall depth (x y : t),
    All branch_chain depth x -> isBranch x = true ->
    at_path path x = Some y ->
    isBranch y = true /\ All branch_chain (depth + List.length path)%nat y.
Proof.
  induction path as [|i path IH]; intros depth x y Hall Hb Hat; simpl in *.
  - inversion Hat; subst. rewrite Nat.add_0_r. auto.
  - destruct (nth_error (children x) i) as [c|] eqn:Hc; [|discriminate].
    apply All_unfold in Hall. destruct Hall as [Hx Hall].
    destruct (Hx Hb) as (_ & _ & _ & _ & Hkids).
    rewrite Forall_forall in Hall, Hkids.
    apply nth_error_In in Hc.
    replace (depth + S (List.length path))%nat
      with (S depth + List.length path)%nat by lia.
    apply (IH (S depth) c y); auto.
Qed.

Lemma self_step_length depth tot max (s s1 : t) :
  self_step depth tot max s s1 ->
  length s1 = if growing s then Qred (length s + increment s) else length s.
Proof.
  destruct 1 as [Hg | s0 Hl _ | s0 c' Hl _ _ _ _ _ _ | s0 Hl _ _ _ | s0 c' Hl _ _ _ _];
    try (pose proof Hl as [Hg _]; apply lengthened_fields in Hl;
         destruct Hl as (_ & _ & _ & _ & Hlen & _); rewrite Hg; simpl; exact Hlen).
  rewrite Hg. reflexivity.
Qed.

Lemma grow_length_of fuel parents gravity lightDir tot max (s : t) r s' r' :
  grow fuel parents gravity lightDir tot max s r = Some (s', r') ->
  length s' = if growing s then Qred (length s + increment s) else length s.
Proof.
  intro H. apply grow_inv in H.
  destruct H as (fuel' & s1 & r1 & cs & _ & Hself & _ & ->).
  apply grow_self_sound in Hself. apply self_step_length in Hself.
  simpl. exact Hself.
Qed.

(** C10.  In every reachable plant, a branch segment [x] is a shoot segment
    that has no leaf placements and has never branched; every segment of the
    chain that descends from it is marked [isBranch], has no leaf placements
    and has never branched; a tick in which [x] grows adds its growth rate
    times 2.5 times 0.7 to its length; and the continuation child that
    [_addTipSegment] creates for any segment carries the [isBranch] flag of
    that segment. *)
Theorem branch_chain_inherits_isBranch (p : Plant.t) (organ : t)
    (path : list nat) (x : t) :
  reachable p ->
  organ = Plant.shoot p \/ organ = Plant.root p ->
  at_path path organ = Some x ->
  isBranch x = true ->
  (isRoot x = false /\ leaves x = [] /\ hasBranched x = false /\
   (List.length (children x) <= 1)%nat) /\
  (forall path' y, at_path path' x = Some y ->
     isBranch y = true /\ leaves y = [] /\ hasBranched y = false) /\
  (forall fuel parents gravity lightDir tot max r x' r',
     growing x = true ->
     grow fuel parents gravity lightDir tot max x r = Some (x', r') ->
     length x' == length x + growthRate (VARIETIES (variety x)) * 2.5 * 0.7) /\
  (forall parents gravity lightDir (s : t) r s' r',
     _addTipSegment parents gravity lightDir s r = Some (s', r') ->
     exists c, children s' = children s ++ [c] /\ isBranch c = isBranch s).
Proof.
  intros Hp Horgan Hat Hb.
  assert (Hall : All branch_chain 0%nat organ).
  { destruct (reachable_branch_chain p Hp). destruct Horgan; subst; auto. }
  pose proof (All_at_path_All _ _ _ _ _ Hall Hat) as Hx.
  pose proof Hx as Hx'. apply All_unfold in Hx'. destruct Hx' as [Hloc _].
  destruct (Hloc Hb) as (Hr & Hlv & Hhb & Hone & _).
  split; [auto|]. split; [|split].
  - intros path' y Hy.
    destruct (branch_descendants _ _ _ _ Hx Hb Hy) as [Hyb Hyall].
    apply All_unfold in Hyall. destruct Hyall as [Hyloc _].
    destruct (Hyloc Hyb) as (_ & Hylv & Hyhb & _). auto.
  - intros fuel parents gravity lightDir tot max r x' r' Hg Hgrow.
    apply grow_length_of in Hgrow. rewrite Hgrow, Hg, Qred_correct.
    unfold increment. rewrite Hr, Hb. reflexivity.
  - intros parents gravity lightDir s r s' r' Htip.
    apply _addTipSegment_spec in Htip. destruct Htip as (c & Hnew & ->).
    exists c. simpl. split; [reflexivity|].
    destruct Hnew as (_ & _ & Hcb & _). exact Hcb.
Qed.

Lemma proj1_and2 (A B C : Prop) : A /\ B /\ C -> A /\ B.
Proof. tauto. Qed.

(** The first segment of the branch of the shoot that branches on its first
    occasion, after 800 ticks. *)
Lemma branch_chain_inherits_isBranch_witness :
  exists (p : Plant.t) (x : t),
    run (constant_draws 0.1) cress 0 "none" 800 = Some p /\
    at_path [0]%nat (Plant.shoot p) = Some x /\
    isBranch x = true /\
    (isRoot x = false /\ leaves x = [] /\ hasBranched x = false /\
     (List.length (children x) <= 1)%nat) /\
    (forall path' y, at_path path' x = Some y ->
       isBranch y = true /\ leaves y = [] /\ hasBranched y = false).
Proof.
  with_run branching_run_800_eq branching_run_800.
  eexists.
  split; [exact Hrun|]. split; [reflexivity|]. split; [reflexivity|].
  eapply proj1_and2. eapply (branch_chain_inherits_isBranch _ _ [0]%nat).
  - exact (run_reachable _ _ _ _ _ _ Hrun).
  - left. reflexivity.
  - reflexivity.
  - reflexivity.
Defined.

(** ** Maturity *)

Lemma isFullyGrown_unfold (s : t) :
  isFullyGrown s = if growing s then false else forallb isFullyGrown (children s).
Proof. destruct s; reflexivity. Qed.

(** On a fully grown tree [grow] returns the tree as it is and draws
    nothing. *)
Lemma grow_fully_grown fuel :
  forall parents gravity lightDir tot max (s : t) r,
    isFullyGrown s = true -> (height s < fuel)%nat ->
    grow fuel parents gravity lightDir tot max s r = Some (s, r).
Proof.
  induction fuel as [|fuel IH]; intros parents gravity lightDir tot max s r Hfull Hh;
    [lia|].
  rewrite isFullyGrown_unfold in Hfull.
  destruct (growing s) eqn:Hg; [discriminate|].
  cbn [grow]. unfold bind at 1. rewrite grow_self_inactive by exact Hg.
  unfold bind. rewrite forEach_id.
  - unfold ret. rewrite set_children_id. reflexivity.
  - apply Forall_forall. intros c Hc r0. apply IH.
    + rewrite forallb_forall in Hfull. auto.
    + apply height_child in Hc. lia.
Qed.

Lemma update_fully_grown gravity lightDir (p : Plant.t) r :
  Plant.isFullyGrown p = true ->
  exists p',
    Plant.update gravity lightDir p r = Some (p', r) /\
    Plant.shoot p' = Plant.shoot p /\ Plant.root p' = Plant.root p.
Proof.
  unfold Plant.isFullyGrown. intro H. apply andb_prop in H. destruct H as [Hs Hr].
  unfold Plant.update. destruct (_ <? 8)%Z.
  - eexists. split; [reflexivity|]. auto.
  - unfold bind.
    rewrite grow_fully_grown by (auto; unfold growFuel; lia).
    rewrite grow_fully_grown by (auto; unfold growFuel; lia).
    eexists. split; [reflexivity|]. auto.
Qed.

(** C4.  Once [Plant.isFullyGrown] holds, any number of further [update]
    ticks return, and leave both organ trees exactly as they are: no
    segment is added, no [growing] flag changes, no draw is made, and
    [Plant.isFullyGrown] still holds. *)
Theorem maturity_is_permanent (n : nat) (gravity : Q) (lightDir : string)
    (p : Plant.t) (r : Rand) :
  Plant.isFullyGrown p = true ->
  exists p',
    Plant.updates n gravity lightDir p r = Some (p', r) /\
    Plant.shoot p' = Plant.shoot p /\ Plant.root p' = Plant.root p /\
    Plant.isFullyGrown p' = true.
Proof.
  revert p. induction n as [|n IH]; intros p Hfull; simpl.
  - exists p. auto.
  - destruct (update_fully_grown gravity lightDir p r Hfull) as (p1 & Hrun & Hs & Hr).
    assert (Hfull1 : Plant.isFullyGrown p1 = true).
    { unfold Plant.isFullyGrown in *. rewrite Hs, Hr. exact Hfull. }
    destruct (IH p1 Hfull1) as (p' & Hrun' & Hs' & Hr' & Hfull').
    exists p'. unfold bind. rewrite Hrun. repeat split; congruence.
Qed.

(** The cress plant that never branches, one tick before it is fully
    grown: the next tick completes it, and 500 more ticks, under gravity
    and with light from the left, change nothing. *)
Lemma maturity_is_permanent_witness :
  exists (q p : Plant.t) (r1 : Rand),
    run (constant_draws 0.5) cress 0 "none" 1727 = Some q /\
    Plant.isFullyGrown q = false /\
    Plant.update 0 "none" q (constant_draws 0.5) = Some (p, r1) /\
    Plant.isFullyGrown p = true /\
    exists p',
      Plant.updates 500 1 "left" p (constant_draws 0.9) =
      Some (p', constant_draws 0.9) /\
      Plant.shoot p' = Plant.shoot p /\ Plant.root p' = Plant.root p /\
      Plant.isFullyGrown p' = true.
Proof.
  with_run ripening_run_eq ripening_run.
  do 2 eexists.
  split; [exact Hrun|].
  split; [vm_compute; reflexivity|].
  split; [lazy; reflexivity|].
  split; [vm_compute; reflexivity|].
  apply maturity_is_permanent. vm_compute. reflexivity.
Defined.


(** ** Angles *)

Lemma Forall2_nth_error {A B} (R : A -> B -> Prop) (l : list A) (l' : list B) :
  Forall2 R l l' ->
  forall i a, nth_error l i = Some a ->
  exists b, nth_error l' i = Some b /\ R a b.
Proof.
  induction 1 as [|x y l l' Hxy _ IH]; intros i a Hi.
  - destruct i; discriminate.
  - destruct i as [|i]; simpl in *.
    + inversion Hi; subst. eauto.
    + eauto.
Qed.

Lemma self_step_nth_child depth tot max (s s1 : t) i c :
  self_step depth tot max s s1 ->
  nth_error (children s) i = Some c ->
  nth_error (children s1) i = Some c.
Proof.
  intros Hstep Hc.
  destruct (self_step_children _ _ _ _ _ Hstep) as [-> | (c' & -> & _)]; auto.
  rewrite nth_error_app1; auto. apply nth_error_Some. congruence.
Qed.

(** A tick keeps every segment where it is and as it was made. *)
Lemma grow_at_path fuel :
  forall path parents gravity lightDir tot max (s : t) r s' r' x,
    grow fuel parents gravity lightDir tot max s r = Some (s', r') ->
    at_path path s = Some x ->
    exists x', at_path path s' = Some x' /\ same_identity x x'.
Proof.
  induction fuel as [|fuel IH];
    intros path parents gravity lightDir tot max s r s' r' x Hgrow Hat;
    [discriminate|].
  destruct path as [|i path]; simpl in Hat.
  - inversion Hat; subst. exists s'. split; [reflexivity|].
    eapply grow_identity; eauto.
  - destruct (nth_error (children s) i) as [c|] eqn:Hc; [|discriminate].
    apply grow_inv in Hgrow.
    destruct Hgrow as (fuel' & s1 & r1 & cs & Hf & Hself & Hloop & ->).
    inversion Hf; subst fuel'; clear Hf.
    apply grow_self_sound in Hself.
    apply (self_step_nth_child _ _ _ _ _ _ _ Hself) in Hc.
    apply forEach_Forall2 in Hloop.
    destruct (Forall2_nth_error _ _ _ Hloop _ _ Hc) as (c' & Hc' & ra & rb & Hgc).
    destruct (IH path _ _ _ _ _ _ _ _ _ x Hgc Hat) as (x' & Hx' & Hid).
    exists x'. simpl. rewrite Hc'. auto.
Qed.

Lemma grow_angle_at fuel :
  forall path parents gravity lightDir tot max (s : t) r s' r' a,
    grow fuel parents gravity lightDir tot max s r = Some (s', r') ->
    angle_at parents path s = Some a ->
    angle_at parents path s' = Some a.
Proof.
  induction fuel as [|fuel IH];
    intros path parents gravity lightDir tot max s r s' r' a Hgrow Hat;
    [discriminate|].
  pose proof (grow_identity _ _ _ _ _ _ _ _ _ _ Hgrow) as (Hir & _ & Hoff & _).
  destruct path as [|i path]; simpl in Hat.
  - simpl. unfold angle in *. rewrite Hir, Hoff. exact Hat.
  - destruct (nth_error (children s) i) as [c|] eqn:Hc; [|discriminate].
    apply grow_inv in Hgrow.
    destruct Hgrow as (fuel' & s1 & r1 & cs & Hf & Hself & Hloop & ->).
    inversion Hf; subst fuel'; clear Hf.
    apply grow_self_sound in Hself.
    apply (self_step_nth_child _ _ _ _ _ _ _ Hself) in Hc.
    apply forEach_Forall2 in Hloop.
    destruct (Forall2_nth_error _ _ _ Hloop _ _ Hc) as (c' & Hc' & ra & rb & Hgc).
    simpl. rewrite Hc'.
    assert (Hlink : link (set_children cs s1) = link s).
    { unfold link. simpl in *. rewrite Hir, Hoff. reflexivity. }
    rewrite Hlink. eapply IH; eauto.
Qed.

Lemma update_at_path (organ : Plant.t -> t) gravity lightDir (p : Plant.t) r p' r'
    path x a :
  organ = Plant.shoot \/ organ = Plant.root ->
  Plant.update gravity lightDir p r = Some (p', r') ->
  at_path path (organ p) = Some x ->
  angle_at [] path (organ p) = Some a ->
  (exists x', at_path path (organ p') = Some x' /\ same_identity x x') /\
  angle_at [] path (organ p') = Some a.
Proof.
  intros Horgan Hup Hat Hang. apply update_inv in Hup.
  destruct Hup as (_ & _ & _ & _ & [(Hs & Hr & _) | (r1 & Hs & Hr)]).
  - destruct Horgan; subst organ; rewrite ?Hs, ?Hr; split; auto;
      exists x; unfold same_identity; tauto.
  - destruct Horgan; subst organ; split;
      solve [eapply grow_at_path; eauto | eapply grow_angle_at; eauto].
Qed.

(** C6.  For every segment of either organ, named by its position in the
    tree, any number of [update] ticks leave its [angleOffset] exactly as
    it was, and with it the absolute angle derived for the segment. *)
Theorem angleOffset_is_fixed (organ : Plant.t -> t) (n : nat) (gravity : Q)
    (lightDir : string) :
  forall (p : Plant.t) (r : Rand) (p' : Plant.t) (r' : Rand)
         (path : list nat) (x : t) (a : Q),
  organ = Plant.shoot \/ organ = Plant.root ->
  Plant.updates n gravity lightDir p r = Some (p', r') ->
  at_path path (organ p) = Some x ->
  angle_at [] path (organ p) = Some a ->
  (exists x', at_path path (organ p') = Some x' /\
              angleOffset x' = angleOffset x) /\
  angle_at [] path (organ p') = Some a.
Proof.
  induction n as [|n IH]; intros p r p' r' path x a Horgan Hrun Hat Hang;
    simpl in Hrun.
  - run_step Hrun. split; eauto.
  - run_step Hrun.
    destruct (update_at_path organ _ _ _ _ _ _ _ _ _ Horgan Hrun0 Hat Hang)
      as ((x1 & Hx1 & (_ & _ & Hoff & _)) & Hang1).
    destruct (IH _ _ _ _ _ _ _ Horgan Hrun Hx1 Hang1) as ((x' & Hx' & Hoff') & Hang').
    split; [|exact Hang']. exists x'. split; [exact Hx'|]. congruence.
Qed.

(** On the shoot that branches on its first occasion, after 800 ticks, the
    first segment of the branch keeps its offset and its absolute angle
    through 300 more ticks under gravity, with light from the left. *)
Lemma angleOffset_is_fixed_witness :
  exists (p p' : Plant.t) (r' : Rand) (x x' : t) (a : Q),
    run (constant_draws 0.1) cress 0 "none" 800 = Some p /\
    Plant.updates 300 1 "left" p (constant_draws 0.5) = Some (p', r') /\
    at_path [0]%nat (Plant.shoot p) = Some x /\
    angle_at [] [0]%nat (Plant.shoot p) = Some a /\
    at_path [0]%nat (Plant.shoot p') = Some x' /\
    angleOffset x' = angleOffset x /\
    angle_at [] [0]%nat (Plant.shoot p') = Some a.
Proof.
  pose proof branching_run_800_eq as Hrun. unfold branching_run_800 in Hrun.
  match type of Hrun with _ = Some ?p0 => set (p := p0) in * end.
  destruct (updates_total 300 1 "left" p (constant_draws 0.5)) as (p' & r' & Hup).
  assert (Hx : exists x, at_path [0]%nat (Plant.shoot p) = Some x)
    by (eexists; reflexivity).
  destruct Hx as (x & Hx).
  assert (Ha : exists a, angle_at [] [0]%nat (Plant.shoot p) = Some a)
    by (eexists; reflexivity).
  destruct Ha as (a & Ha).
  destruct (angleOffset_is_fixed Plant.shoot 300 1 "left" p (constant_draws 0.5)
              p' r' [0]%nat x a (or_introl eq_refl) Hup Hx Ha)
    as ((x' & Hx' & Hoff) & Ha').
  exists p, p', r', x, x', a. repeat split; assumption.
Defined.

(** ** Completion of a segment *)

(** An active segment that has a child stays active: the completion test
    asks for an empty list of children. *)
Lemma self_step_with_child depth tot max (s s1 : t) :
  self_step depth tot max s s1 ->
  growing s = true -> children s <> [] ->
  growing s1 = true /\ children s1 <> [].
Proof.
  destruct 1 as [Hg | s0 Hl _ | s0 c' Hl _ _ _ _ _ _ | s0 Hl Hcs _ _ | s0 c' Hl Hcs _ _ _];
    intros Hgs Hkids;
    try (apply lengthened_fields in Hl; destruct Hl as (_ & Hcs0 & Hg0 & _)).
  - auto.
  - split; congruence.
  - simpl. split; [exact Hg0|]. intro H. apply app_eq_nil in H.
    destruct H as [_ H]. discriminate.
  - congruence.
  - congruence.
Qed.

Lemma grow_with_child fuel parents gravity lightDir tot max (s : t) r s' r' :
  grow fuel parents gravity lightDir tot max s r = Some (s', r') ->
  growing s = true -> children s <> [] ->
  growing s' = true /\ children s' <> [].
Proof.
  intros H Hg Hkids. apply grow_inv in H.
  destruct H as (fuel' & s1 & r1 & cs & _ & Hself & Hloop & ->).
  apply grow_self_sound in Hself.
  destruct (self_step_with_child _ _ _ _ _ Hself Hg Hkids) as [Hg1 Hkids1].
  apply forEach_Forall2 in Hloop. simpl. split; [exact Hg1|].
  intros ->. inversion Hloop; subst. congruence.
Qed.

(** A shoot that has a child while it is active is active after any number
    of ticks, so the plant never is fully grown. *)
Lemma shoot_with_child_stays_active n gravity lightDir :
  forall (p : Plant.t) r p' r',
    growing (Plant.shoot p) = true -> children (Plant.shoot p) <> [] ->
    Plant.updates n gravity lightDir p r = Some (p', r') ->
    growing (Plant.shoot p') = true /\ Plant.isFullyGrown p' = false.
Proof.
  induction n as [|n IH]; intros p r p' r' Hg Hkids Hrun; simpl in Hrun.
  - run_step Hrun. split; [exact Hg|].
    unfold Plant.isFullyGrown. rewrite isFullyGrown_unfold, Hg. reflexivity.
  - run_step Hrun. apply update_inv in Hrun0.
    destruct Hrun0 as (_ & _ & _ & _ & [(Hs & _ & _) | (r1 & Hs & _)]).
    + eapply IH; [| |exact Hrun]; rewrite Hs; assumption.
    + destruct (grow_with_child _ _ _ _ _ _ _ _ _ _ Hs Hg Hkids) as [Hg1 Hk1].
      eapply IH; [| |exact Hrun]; assumption.
Qed.

(** C1, on the code.  The shoot of a cress plant whose every draw is 0.1
    branches on its first occasion.  After 93 ticks its first segment is
    shorter than its target of 12; in tick 94 it reaches the target, with a
    branch child and no continuation child, and [growing] stays true; after
    800 ticks it still grows, at nine times its target, and the plant is not
    fully grown. *)
Theorem branched_segment_never_completes :
  exists p93 p94 p800 : Plant.t,
    run (constant_draws 0.1) cress 0 "none" 93 = Some p93 /\
    run (constant_draws 0.1) cress 0 "none" 94 = Some p94 /\
    run (constant_draws 0.1) cress 0 "none" 800 = Some p800 /\
    length (Plant.shoot p93) < targetLength (Plant.shoot p93) /\
    targetLength (Plant.shoot p94) <= length (Plant.shoot p94) /\
    map isBranch (children (Plant.shoot p94)) = [true] /\
    growing (Plant.shoot p94) = true /\
    map isBranch (children (Plant.shoot p800)) = [true] /\
    growing (Plant.shoot p800) = true /\
    length (Plant.shoot p800) == 109.1375 /\
    Plant.isFullyGrown p800 = false.
Proof.
  pose proof branching_run_93_eq as H93. unfold branching_run_93 in H93.
  pose proof branching_run_94_eq as H94. unfold branching_run_94 in H94.
  pose proof branching_run_800_eq as H800. unfold branching_run_800 in H800.
  match type of H93 with _ = Some ?p => exists p end.
  match type of H94 with _ = Some ?p => exists p end.
  match type of H800 with _ = Some ?p => exists p end.
  split; [exact H93|]. split; [exact H94|]. split; [exact H800|].
  clear H93 H94 H800.
  repeat split; vm_compute; congruence.
Qed.

(** ** The length of the root organ *)

Lemma root_chain_unfold variety_ max prefix (s : t) :
  root_chain variety_ max prefix s <->
  isRoot s = true /\ isBranch s = false /\ variety s = variety_ /\
  targetLength s = 10 /\
  match children s with
  | [] => (growing s = true -> length s < 10) /\ length s < 10 + increment s
  | [c] => growing s = false /\
           prefix + length s < max + increment s /\
           root_chain variety_ max (prefix + length s) c
  | _ => False
  end.
Proof. destruct s; reflexivity. Qed.

Lemma totalLength_unfold (s : t) :
  totalLength s =
  length s + fold_left (fun acc c => acc + totalLength c) (children s) 0.
Proof. destruct s; reflexivity. Qed.

Lemma increment_identity (s s' : t) :
  same_identity s s' -> increment s' = increment s.
Proof.
  intros (Hr & Hv & _ & Hb & _). unfold increment. rewrite Hr, Hv, Hb. reflexivity.
Qed.

(** A tick of [grow] that is given the length of the organ keeps the root
    organ a chain of the kind [root_chain] describes. *)
Lemma root_chain_grow fuel :
  forall parents gravity lightDir tot max variety_ prefix (s : t) r s' r',
    root_chain variety_ max prefix s ->
    tot == prefix + totalLength s ->
    grow fuel parents gravity lightDir tot max s r = Some (s', r') ->
    root_chain variety_ max prefix s'.
Proof.
  induction fuel as [|fuel IH];
    intros parents gravity lightDir tot max variety_ prefix s r s' r' Hchain Htot Hgrow;
    [discriminate|].
  pose proof (grow_identity _ _ _ _ _ _ _ _ _ _ Hgrow) as Hid.
  pose proof (increment_identity _ _ Hid) as Hinc.
  pose proof (increment_bounds s) as [Hi0 Hi1].
  destruct Hid as (Hir & Hiv & _ & Hib & Hit).
  apply grow_inv in Hgrow.
  destruct Hgrow as (fuel' & s1 & r1 & cs & Hf & Hself & Hloop & ->).
  inversion Hf; subst fuel'; clear Hf.
  apply grow_self_sound in Hself.
  apply root_chain_unfold in Hchain.
  destruct Hchain as (Hr & Hb & Hv & Ht & Hkids).
  apply root_chain_unfold.
  repeat (split; [congruence|]).
  rewrite Hinc. simpl in *. rewrite totalLength_unfold in Htot.
  destruct (children s) as [|c [|c2 rest]] eqn:Hcs; [| |contradiction].
  - (* the last segment of the chain *)
    destruct Hkids as [Hshort Hlen]. simpl in Htot.
    destruct Hself as [Hg | s0 Hl Hno | s0 c' Hl Hr0 _ _ _ _ _ | s0 Hl Hcs0 Hfull Hmax
                       | s0 c' Hl Hcs0 Hfull Hmax Hnew];
      try (pose proof Hl as [Hg _]; apply lengthened_fields in Hl;
           destruct Hl as ((Hir0 & Hiv0 & _ & Hib0 & Ht0) & Hcs0' & Hg0 & _ & Hlen0 & _)).
    + rewrite Hcs in Hloop. simpl in Hloop. run_step Hloop. auto.
    + rewrite Hcs0', Hcs in Hloop. simpl in Hloop. run_step Hloop.
      destruct Hno as [Hno | Hno]; [|congruence].
      rewrite Ht0, Ht in Hno. split; [auto|lra].
    + congruence.
    + simpl in Hloop. rewrite Hcs0 in Hloop. simpl in Hloop. run_step Hloop.
      simpl. split; [discriminate|].
      rewrite Hlen0, Qred_correct. specialize (Hshort Hg). lra.
    + simpl in Hloop. rewrite Hcs0 in Hloop. simpl in Hloop.
      apply forEach_single in Hloop. destruct Hloop as (c1 & Hrun & ->). simpl.
      split; [reflexivity|]. split.
      * rewrite Hlen0, Qred_correct. lra.
      * destruct (grow_new _ _ _ _ _ _ _ _ _ _ _ _ _ Hnew Hrun)
          as (Hstepc & Hnokids & Hg' & Hlen').
        pose proof (self_step_identity _ _ _ _ _ Hstepc) as Hidc.
        pose proof (increment_identity _ _ Hidc) as Hincc.
        pose proof (increment_bounds c') as [Hc0 Hc1].
        destruct Hidc as (Hcr & Hcv & _ & Hcb & Hct).
        destruct Hnew as (Hnr & Hnv & Hnb & Hnt & _).
        assert (Hroot : isRoot s0 = true) by congruence.
        rewrite Hroot in Hnt.
        apply root_chain_unfold. rewrite Hnokids, Hincc.
        split; [congruence|]. split; [congruence|].
        split; [congruence|]. split; [congruence|].
        split; intros; rewrite Hlen'; lra.
  - (* a segment that has its continuation *)
    destruct Hkids as (Hg & Hpre & Hc).
    assert (Hs1 : s1 = s).
    { destruct Hself as [_ | s0 [Hg' _] _ | s0 c' [Hg' _] _ _ _ _ _ _
                         | s0 [Hg' _] _ _ _ | s0 c' [Hg' _] _ _ _ _];
        congruence. }
    subst s1. rewrite Hcs in Hloop.
    apply forEach_single in Hloop. destruct Hloop as (c1 & Hrun & ->). simpl.
    split; [exact Hg|]. split; [exact Hpre|].
    eapply IH; [exact Hc| |exact Hrun].
    simpl in Htot. rewrite Htot. ring.
Qed.

Lemma root_chain_bound n :
  forall variety_ max prefix (s : t),
    (height s <= n)%nat ->
    root_chain variety_ max prefix s ->
    prefix < max + increment s ->
    prefix + totalLength s < max + 10 + 2 * increment s.
Proof.
  induction n as [|n IH]; intros variety_ max prefix s Hh Hchain Hpre;
    apply root_chain_unfold in Hchain;
    destruct Hchain as (Hr & Hb & Hv & Ht & Hkids);
    rewrite totalLength_unfold;
    pose proof (increment_bounds s) as [Hi0 Hi1];
    destruct (children s) as [|c [|c2 rest]] eqn:Hcs; try contradiction;
    simpl.
  - lra.
  - exfalso. assert (Hc : In c (children s)) by (rewrite Hcs; left; reflexivity).
    apply height_child in Hc. lia.
  - lra.
  - destruct Hkids as (Hg & Hpre' & Hc).
    assert (Hin : In c (children s)) by (rewrite Hcs; left; reflexivity).
    apply height_child in Hin.
    assert (Hinc : increment c = increment s).
    { pose proof Hc as Hc'. apply root_chain_unfold in Hc'.
      destruct Hc' as (Hcr & Hcb & Hcv & _).
      unfold increment. rewrite Hcr, Hcb, Hcv, Hr, Hb, Hv. reflexivity. }
    specialize (IH variety_ max (prefix + length s) c).
    rewrite Hinc in IH. specialize (IH ltac:(lia) Hc Hpre'). lra.
Qed.

Lemma reachable_root_chain (p : Plant.t) :
  reachable p ->
  root_chain (Plant.variety p) (Plant.maxRootLength p) 0 (Plant.root p) /\
  Plant.maxRootLength p = maxRootLen (VARIETIES (Plant.variety p)).
Proof.
  induction 1 as [v g l r p r' H | p g l r p' r' Hp IH H].
  - apply plant_new_spec in H.
    destruct H as (_ & (Hr & Hv & Hb & Ht & Hlen & Hg & Hcs & _) & -> & _ & Hmax & _).
    split; [|exact Hmax].
    apply root_chain_unfold. rewrite Hcs, Hlen.
    pose proof (increment_bounds (Plant.root p)) as [Hi0 Hi1].
    repeat split; auto; try reflexivity. lra.
  - apply update_inv in H.
    destruct H as (Hv & _ & Hmax & _ & [(_ & Hr & _) | (r1 & _ & Hr)]);
      destruct IH as [IH1 IH2]; rewrite Hv, Hmax; split; auto.
    + rewrite Hr. exact IH1.
    + eapply root_chain_grow; [exact IH1| |exact Hr]. ring.
Qed.

(** C3, as the code has it, for the root organ.  After any number of
    ticks the root's [totalLength()] is below the species maximum
    [maxRootLen] plus the target length of one segment (10) plus two
    single-tick growth increments: the maximum gates the creation of a new
    segment, and a segment created just below it still grows to its
    target. *)
Theorem root_length_ceiling (p : Plant.t) :
  reachable p ->
  totalLength (Plant.root p) <
  maxRootLen (VARIETIES (Plant.variety p)) + 10
  + 2 * (rootGrowthRate (VARIETIES (Plant.variety p)) * 2.5).
Proof.
  intro Hp. destruct (reachable_root_chain p Hp) as [Hchain Hmax].
  pose proof Hchain as Hc. apply root_chain_unfold in Hc.
  destruct Hc as (Hr & Hb & Hv & _).
  assert (Hinc : increment (Plant.root p)
                 == rootGrowthRate (VARIETIES (Plant.variety p)) * 2.5).
  { unfold increment. rewrite Hr, Hb, Hv. ring. }
  pose proof (increment_bounds (Plant.root p)) as [Hi0 Hi1].
  assert (Hpos : 0 < maxRootLen (VARIETIES (Plant.variety p))).
  { destruct (Plant.variety p); reflexivity. }
  pose proof (root_chain_bound (height (Plant.root p)) _ _ 0 (Plant.root p)
                (Nat.le_refl _) Hchain) as Hbound.
  rewrite Hmax in Hbound. rewrite <- Hinc. lra.
Qed.

(** The cress plant of 1727 ticks: its root is under 120 + 10 + 0.2. *)
Lemma root_length_ceiling_witness :
  exists p : Plant.t,
    run (constant_draws 0.5) cress 0 "none" 1727 = Some p /\
    totalLength (Plant.root p) <
    maxRootLen (VARIETIES (Plant.variety p)) + 10
    + 2 * (rootGrowthRate (VARIETIES (Plant.variety p)) * 2.5).
Proof.
  with_run ripening_run_eq ripening_run.
  split; [exact Hrun|].
  apply root_length_ceiling.
  exact (run_reachable _ _ _ _ _ _ Hrun).
Defined.

(** C3, as the specification states it, fails: after 1300 ticks under
    gravity the root of an arabidopsis plant, fifteen segments of 10.1
    each, is more than 151 long; its maximum is 145 and the growth of a
    root segment in one tick is 0.125. *)
Lemma root_exceeds_ceiling_by_a_segment :
  exists p : Plant.t,
    run (constant_draws 0.5) arabidopsis 1 "none" 1300 = Some p /\
    reachable p /\
    Plant.maxRootLength p == 145 /\
    increment (Plant.root p) == 0.125 /\
    151 < totalLength (Plant.root p) /\
    ~ totalLength (Plant.root p) <= Plant.maxRootLength p + increment (Plant.root p).
Proof.
  with_run overshooting_run_eq overshooting_run.
  split; [exact Hrun|].
  split; [exact (run_reachable _ _ _ _ _ _ Hrun)|].
  clear Hrun.
  repeat split; vm_compute; congruence.
Qed.

(** ** Germination *)

(** C5, as the code has it.  At construction, whatever the gravity (0
    included) and the light, the two parentless segments have opposed
    absolute angles, the root's being the shoot's plus pi, the shoot's in
    the upper half turn and the root's in the lower one; the constructor
    does not read the gravity, so nothing is randomised around the circle
    at gravity 0; and one jitter value, [(Math.random() - 0.5) * 0.08], is
    stored as the [angleOffset] of both segments. *)
Theorem germination_angles_are_opposed (variety_ : Variety) (gravity : Q)
    (lightDir : string) (r : Rand) :
  exists (p : Plant.t) (r' : Rand),
    Plant.new variety_ gravity lightDir r = Some (p, r') /\
    Plant.new variety_ 1 lightDir r = Some (p, r') /\
    Plant.new variety_ 0 lightDir r = Some (p, r') /\
    angle [] (Plant.root p) - angle [] (Plant.shoot p) == Math_PI /\
    (- Math_PI < angle [] (Plant.shoot p) /\ angle [] (Plant.shoot p) < 0) /\
    (0 < angle [] (Plant.root p) /\ angle [] (Plant.root p) < Math_PI) /\
    angleOffset (Plant.shoot p) = angleOffset (Plant.root p) /\
    angleOffset (Plant.root p) == (draws r (cursor r) - 0.5) * 0.08.
Proof.
  destruct (plant_new_total variety_ gravity lightDir r) as (p & r' & Hnew).
  exists p, r'. split; [exact Hnew|]. split; [exact Hnew|]. split; [exact Hnew|].
  apply plant_new_spec in Hnew.
  destruct Hnew as ((Hsr & _) & (Hrr & _) & _ & _ & _ & Hso & Hro).
  pose proof Math_PI_pos as Hpi.
  unfold angle. simpl. rewrite Hsr, Hrr.
  repeat split; try lra.
  - congruence.
  - rewrite Hro. apply Qred_correct.
Qed.

(** C5, as the specification states it, fails.  At gravity 0 the shoot of
    a plant whose draws are 1/4 and the shoot of a plant whose draws are 3/4
    have the same absolute angle, the canonical [- pi / 2], so it is not
    randomised; and the jitter of the first plant, -0.02, is in the absolute
    angle of neither of its segments. *)
Lemma germination_angle_has_no_jitter :
  exists (p q : Plant.t) (rp rq : Rand),
    Plant.new cress 0 "none" (constant_draws 0.25) = Some (p, rp) /\
    Plant.new cress 0 "none" (constant_draws 0.75) = Some (q, rq) /\
    angleOffset (Plant.shoot p) == -0.02 /\
    angleOffset (Plant.shoot q) == 0.02 /\
    angle [] (Plant.shoot p) == - Math_PI / 2 /\
    angle [] (Plant.shoot q) == - Math_PI / 2 /\
    ~ angle [] (Plant.shoot p) == - Math_PI / 2 + angleOffset (Plant.shoot p) /\
    ~ angle [] (Plant.root p) == Math_PI / 2 + angleOffset (Plant.root p).
Proof.
  do 4 eexists.
  split; [lazy; reflexivity|]. split; [lazy; reflexivity|].
  repeat split; vm_compute; congruence.
Qed.

End Properties.

(** ** The simulation driver *)

Module DriverFacts.

(** [animate] does nothing when the experiment is not running. *)
Lemma animate_not_running (now : Z) (a : App.t) (r : Rand) :
  App.isRunning a = false -> animate now a r = Some (a, r).
Proof. unfold animate. intros ->. reflexivity. Qed.

Lemma animate_all_not_running (nows : list Z) (a : App.t) (r : Rand) :
  App.isRunning a = false -> animate_all nows a r = Some (a, r).
Proof.
  intro H. induction nows as [|now nows IH]; simpl; [reflexivity|].
  unfold bind. rewrite animate_not_running by exact H. exact IH.
Qed.

(** [animate] and [startExperiment] always return. *)
Lemma animate_total (now : Z) (a : App.t) (r : Rand) :
  exists a' r', animate now a r = Some (a', r').
Proof.
  unfold animate. destruct (negb (App.isRunning a)); [unfold ret; eauto|].
  cbv zeta. unfold bind at 1.
  match goal with
  | |- context [match App.plant ?x with _ => _ end] =>
      destruct (App.plant x) as [plant|]
  end.
  - unfold bind at 1.
    match goal with
    | |- context [Plant.update ?g ?l ?p ?r0] =>
        destruct (PlantFacts.update_total g l p r0) as (p' & r' & ->)
    end.
    unfold ret at 1.
    match goal with
    | |- context [match App.comparePlant ?x with _ => _ end] =>
        destruct (App.comparePlant x) as [cplant|]
    end; [|unfold ret; eauto].
    unfold bind.
    match goal with
    | |- context [Plant.update ?g ?l ?p ?r0] =>
        destruct (PlantFacts.update_total g l p r0) as (cp' & r2 & ->)
    end.
    unfold ret. eauto.
  - unfold ret at 1.
    match goal with
    | |- context [match App.comparePlant ?x with _ => _ end] =>
        destruct (App.comparePlant x) as [cplant|]
    end; [|unfold ret; eauto].
    unfold bind.
    match goal with
    | |- context [Plant.update ?g ?l ?p ?r0] =>
        destruct (PlantFacts.update_total g l p r0) as (cp' & r2 & ->)
    end.
    unfold ret. eauto.
Qed.

Lemma startExperiment_total (now now' : Z) (a : App.t) (r : Rand) :
  exists a' r', startExperiment now now' a r = Some (a', r').
Proof.
  unfold startExperiment. destruct (App.isRunning a); [unfold ret; eauto|].
  unfold bind at 1.
  destruct (PlantFacts.plant_new_total (App.variety a) (App.gravity a)
              (App.lightDir a) r) as (p & r1 & ->).
  unfold bind at 1.
  match goal with
  | |- context [if ?c then _ else _] => destruct c
  end.
  - unfold bind at 1.
    match goal with
    | |- context [Plant.new ?v ?g ?l ?r0] =>
        destruct (PlantFacts.plant_new_total v g l r0) as (cp & r2 & ->)
    end.
    unfold ret. apply animate_total.
  - unfold ret. apply animate_total.
Qed.

Lemma recordPoint_flags (a : App.t) :
  App.isRunning (recordPoint a) = App.isRunning a /\
  App.isComplete (recordPoint a) = App.isComplete a /\
  App.plant (recordPoint a) = App.plant a.
Proof.
  unfold recordPoint. destruct (App.plant a) eqn:Hp; simpl; auto.
Qed.

Lemma recordComparePoint_fields (a : App.t) :
  App.isRunning (recordComparePoint a) = App.isRunning a /\
  App.isComplete (recordComparePoint a) = App.isComplete a /\
  App.dataPoints (recordComparePoint a) = App.dataPoints a.
Proof.
  unfold recordComparePoint. destruct (App.comparePlant a) eqn:Hp; simpl; auto.
Qed.

(** The maturity branch either leaves the state alone or stops the
    experiment, marks it complete and records one sample. *)
Lemma animate_maturity_spec (a : App.t) :
  animate_maturity a = a \/
  (App.isComplete a = false /\
   App.isRunning (animate_maturity a) = false /\
   App.isComplete (animate_maturity a) = true /\
   exists sample,
     App.dataPoints (animate_maturity a) = App.dataPoints a ++ [sample]).
Proof.
  unfold animate_maturity. destruct (App.plant a) as [plant|] eqn:Hp; [|auto].
  destruct (negb (App.isComplete a) && Plant.isFullyGrown plant) eqn:Hc; [|auto].
  right. apply andb_prop in Hc. destruct Hc as [Hc _].
  apply negb_true_iff in Hc.
  unfold recordPoint, logObs. simpl. rewrite Hp. simpl. eauto.
Qed.

(** C7.  A tick of [animate] that turns [isComplete] on stops the
    experiment and appends exactly one sample to the treatment series; from
    then on any number of further ticks, at any clock readings, return the
    state as it is: nothing is appended to the series any more. *)
Theorem no_sample_after_completion (now : Z) (a a' : App.t) (r r' : Rand) :
  animate now a r = Some (a', r') ->
  App.isComplete a = false ->
  App.isComplete a' = true ->
  App.isRunning a' = false /\
  (exists sample, App.dataPoints a' = App.dataPoints a ++ [sample]) /\
  forall (nows : list Z) (r2 : Rand),
    animate_all nows a' r2 = Some (a', r2) /\
    (forall a2 r3, animate_all nows a' r2 = Some (a2, r3) ->
                   App.dataPoints a2 = App.dataPoints a').
Proof.
  intros Hrun Hbefore Hafter.
  assert (Hmain : App.isRunning a' = false /\
                  exists sample, App.dataPoints a' = App.dataPoints a ++ [sample]).
  { unfold animate in Hrun.
    destruct (App.isRunning a) eqn:Hr; cbn [negb] in Hrun.
    2:{ run_step Hrun. congruence. }
    run_step Hrun. rename a0 into b, r0 into rb.
    set (a1 := App.set_elapsedMs (now - App.startTime a) a) in *.
    assert (Hmid : (App.isComplete b = false) \/
                   (App.isRunning b = false /\ App.isComplete b = true /\
                    exists sample, App.dataPoints b = App.dataPoints a ++ [sample])).
    { destruct (App.plant a1) as [plant|] eqn:Hp.
      - run_step Hrun0. run_step Hrun0. rename a0 into plant'.
        set (a2 := App.set_plant (Some plant') a1) in *.
        destruct (animate_maturity_spec a2) as [Hsame | (_ & Hr2 & Hc2 & smp & Hd2)].
        + left. rewrite Hsame.
          destruct (sampleDue a2 _ && App.isRunning a2).
          * destruct (recordPoint_flags a2) as (_ & -> & _). exact Hbefore.
          * exact Hbefore.
        + right. rewrite Hr2, andb_false_r. repeat split; auto.
          exists smp. rewrite Hd2. reflexivity.
      - run_step Hrun0. left. exact Hbefore. }
    destruct (App.comparePlant b) as [cplant|] eqn:Hcp.
    - run_step Hrun. run_step Hrun. rename a0 into cplant'.
      set (b2 := App.set_comparePlant (Some cplant') b) in *.
      assert (Hb2 : App.isRunning b2 = App.isRunning b /\
                    App.isComplete b2 = App.isComplete b /\
                    App.dataPoints b2 = App.dataPoints b) by (repeat split).
      destruct Hb2 as (Hbr & Hbc & Hbd).
      destruct Hmid as [Hno | (Hr0 & Hc0 & smp & Hd0)].
      + exfalso.
        destruct (sampleDue b2 _ && App.isRunning b2);
          [destruct (recordComparePoint_fields b2) as (_ & Hc & _);
           rewrite Hc in Hafter|];
          congruence.
      + rewrite Hbr, Hr0, andb_false_r. split; [congruence|].
        exists smp. congruence.
    - run_step Hrun.
      destruct Hmid as [Hno | (Hr0 & Hc0 & smp & Hd0)]; [congruence|].
      split; [exact Hr0|]. exists smp. exact Hd0. }
  destruct Hmain as [Hstop Hone]. repeat split; auto.
  - apply animate_all_not_running. exact Hstop.
  - intros a2 r3 H. rewrite animate_all_not_running in H by exact Hstop.
    inversion H. reflexivity.
Qed.

(** A running experiment whose plant is one tick before it is fully grown:
    the next frame completes it and records the final sample, although an
    interval sample is due as well (29 s have elapsed, no sample is
    recorded yet); later frames change nothing. *)
Lemma no_sample_after_completion_witness :
  exists (q : Plant.t) (a' : App.t) (r' : Rand),
    run (constant_draws 0.5) cress 0 "none" 1727 = Some q /\
    animate 29000 (App.set_isRunning true (App.set_plant (Some q) App.init))
            (constant_draws 0.5) = Some (a', r') /\
    List.length (App.dataPoints a') = 1%nat /\
    App.isRunning a' = false /\
    (exists sample,
       App.dataPoints a' =
       App.dataPoints (App.set_isRunning true (App.set_plant (Some q) App.init))
       ++ [sample]) /\
    forall (nows : list Z) (r2 : Rand),
      animate_all nows a' r2 = Some (a', r2) /\
      (forall a2 r3, animate_all nows a' r2 = Some (a2, r3) ->
                     App.dataPoints a2 = App.dataPoints a').
Proof.
  pose proof PlantFacts.ripening_run_eq as Hrun. unfold ripening_run in Hrun.
  match type of Hrun with _ = Some ?p0 => set (q := p0) in * end.
  exists q. do 2 eexists.
  split; [exact Hrun|].
  split; [lazy; reflexivity|].
  split; [reflexivity|].
  eapply (no_sample_after_completion 29000
            (App.set_isRunning true (App.set_plant (Some q) App.init)) _
            (constant_draws 0.5)).
  - lazy. reflexivity.
  - reflexivity.
  - reflexivity.
Defined.

(** C8.  [startExperiment] while the experiment is running returns the
    state as it is, plants, series, elapsed time, flags and page controls
    included, and draws nothing. *)
Theorem start_while_running_is_ignored (now now' : Z) (a : App.t) (r : Rand) :
  App.isRunning a = true ->
  startExperiment now now' a r = Some (a, r).
Proof. unfold startExperiment. intros ->. reflexivity. Qed.

(** The experiment is started from the initial state, and started again. *)
Lemma start_while_running_is_ignored_witness :
  exists (a : App.t) (r : Rand),
    startExperiment 1000 1016 App.init (constant_draws 0.5) = Some (a, r) /\
    App.isRunning a = true /\
    startExperiment 5000 5016 a r = Some (a, r).
Proof.
  do 2 eexists.
  split; [lazy; reflexivity|].
  split; [reflexivity|].
  apply start_while_running_is_ignored. reflexivity.
Defined.

End DriverFacts.

(** ** The variant with continuous curvature *)

Module ContinuousFacts.
Import Continuous.

Lemma continuous_new_angle x_ y_ angleDeg generation_ root_ variety_ r s r' :
  new x_ y_ angleDeg generation_ root_ variety_ r = Some (s, r') ->
  angle s = angleDeg.
Proof. unfold new. intro H. do 3 run_step H. reflexivity. Qed.

Lemma continuous_new_total x_ y_ angleDeg generation_ root_ variety_ r :
  exists s r', new x_ y_ angleDeg generation_ root_ variety_ r = Some (s, r').
Proof. unfold new, bind, Math_random, ret. eauto. Qed.

Lemma Math_random_inv (r : Rand) u r' :
  Math_random r = Some (u, r') ->
  u = draws r (cursor r) /\ r' = {| draws := draws r; cursor := S (cursor r) |}.
Proof. unfold Math_random. intro H. inversion H. auto. Qed.

Lemma continuous_newPlant_total variety_ gravity lightDir r :
  exists p r', newPlant variety_ gravity lightDir r = Some (p, r').
Proof.
  unfold newPlant, bind at 1, Math_random at 1.
  destruct (Qgtb gravity 0); unfold bind, ret, Math_random;
    repeat match goal with
    | |- context [new ?a ?b ?c ?d ?e ?f ?r] =>
        destruct (continuous_new_total a b c d e f r) as (? & ? & ->)
    end; eauto.
Qed.

(** Under gravity the two germination angles are the canonical ones plus
    one shared jitter. *)
Lemma continuous_plant_under_gravity (variety_ : Variety) (gravity : Q)
    (lightDir : string) (r : Rand) :
  0 < gravity ->
  exists (p : Plant) (r' : Rand),
    newPlant variety_ gravity lightDir r = Some (p, r') /\
    angle (shoot p) == -90 + (draws r (cursor r) - 0.5) * 12 /\
    angle (root p) == 90 + (draws r (cursor r) - 0.5) * 12.
Proof.
  intro Hg. apply Qltb_true in Hg.
  destruct (continuous_newPlant_total variety_ gravity lightDir r) as (p & r' & H).
  exists p, r'. split; [exact H|].
  unfold newPlant, Qgtb in H. rewrite Hg in H.
  run_step H. apply Math_random_inv in Hrun. destruct Hrun as [-> _].
  run_step H. run_step Hrun. run_step H. run_step H. run_step H.
  apply continuous_new_angle in Hrun, Hrun0. cbn [shoot root].
  rewrite Hrun, Hrun0. split; apply Qred_correct.
Qed.

(** Without gravity the shoot's angle is drawn around the circle, without
    the jitter, and the root's is the shoot's plus 180 degrees, modulo
    360. *)
Lemma continuous_plant_without_gravity (variety_ : Variety)
    (lightDir : string) (r : Rand) :
  exists (p : Plant) (r' : Rand),
    newPlant variety_ 0 lightDir r = Some (p, r') /\
    angle (shoot p) == draws r (S (cursor r)) * 360 /\
    angle (root p) == remainder (draws r (S (cursor r)) * 360 + 180) 360.
Proof.
  destruct (continuous_newPlant_total variety_ 0 lightDir r) as (p & r' & H).
  exists p, r'. split; [exact H|].
  unfold newPlant in H. change (Qgtb 0 0) with false in H.
  run_step H. apply Math_random_inv in Hrun. destruct Hrun as [_ ->].
  run_step H. run_step Hrun. apply Math_random_inv in Hrun0.
  destruct Hrun0 as [-> _]. run_step Hrun. run_step H. run_step H. run_step H.
  apply continuous_new_angle in Hrun, Hrun0. cbn [shoot root].
  rewrite Hrun, Hrun0. split; apply Qred_correct.
Qed.

(** A tick rewrites the stored angle of a growing segment. *)
Lemma continuous_angle_is_rewritten :
  exists (s s' : Segment) (r r' : Rand),
    new 0 0 (-90) 0 false cress (constant_draws 0.9) = Some (s, r) /\
    _applyTropism 1 "left" s r = Some (s', r') /\
    angle s == -90 /\
    ~ angle s' == angle s.
Proof.
  do 4 eexists.
  split; [lazy; reflexivity|]. split; [lazy; reflexivity|].
  split; vm_compute; congruence.
Qed.

End ContinuousFacts.

(** * Part IV: further properties of the code *)

(** ** The life of a segment *)

Module GrowthFacts.
Import Segment Tick TickFacts PlantFacts Shape.

Lemma same_identity_refl (x : t) : same_identity x x.
Proof. unfold same_identity. tauto. Qed.

Lemma same_identity_trans (x y z : t) :
  same_identity x y -> same_identity y z -> same_identity x z.
Proof.
  unfold same_identity.
  intros (? & ? & ? & ? & ?) (? & ? & ? & ? & ?).
  repeat split; congruence.
Qed.

Lemma evolves_refl (x : t) : evolves x x.
Proof.
  unfold evolves. split; [apply same_identity_refl|].
  split; [apply Qle_refl|]. split; [tauto|]. split; [tauto|].
  split; [exists []; symmetry; apply app_nil_r|lia].
Qed.

Lemma evolves_trans (x y z : t) : evolves x y -> evolves y z -> evolves x z.
Proof.
  intros (Hid1 & Hl1 & Hf1 & Hb1 & (e1 & He1) & Hc1)
         (Hid2 & Hl2 & Hf2 & Hb2 & (e2 & He2) & Hc2).
  unfold evolves. split; [eapply same_identity_trans; eauto|].
  split; [eapply Qle_trans; eauto|].
  split.
  { intro Hg. destruct (Hf1 Hg) as (Hg1 & Hlen1 & Hlv1 & Hs1 & Hhb1 & Hn1).
    destruct (Hf2 Hg1) as (Hg2 & Hlen2 & Hlv2 & Hs2 & Hhb2 & Hn2).
    repeat split; congruence. }
  split; [auto|].
  split; [|lia].
  exists (e1 ++ e2). rewrite He2, He1, app_assoc. reflexivity.
Qed.

Lemma lengthened_evolves (s s0 : t) : lengthened s s0 -> evolves s s0.
Proof.
  intro Hl. pose proof Hl as (Hg & extra & side_ & Hs0 & _).
  apply lengthened_fields in Hl.
  destruct Hl as (Hid & Hcs & Hg0 & Hhb & Hlen & _).
  pose proof (increment_bounds s) as [Hi0 _].
  unfold evolves. split; [exact Hid|].
  split; [rewrite Hlen, Qred_correct; lra|].
  split; [congruence|]. split; [congruence|].
  split; [exists extra; rewrite Hs0; reflexivity|rewrite Hcs; lia].
Qed.

(** What the segment's own part of a tick does to it. *)
Lemma self_step_evolves depth tot max (s s1 : t) :
  self_step depth tot max s s1 -> evolves s s1.
Proof.
  destruct 1 as [Hg | s0 Hl _ | s0 c Hl _ _ _ _ _ _ | s0 Hl _ _ _ | s0 c Hl _ _ _ _];
    [apply evolves_refl | | | | ];
    pose proof Hl as [Hgs _]; apply lengthened_evolves in Hl;
    destruct Hl as (Hid & Hlen & _ & Hb & Hlv & Hn);
    unfold evolves, same_identity in *; simpl;
    (split; [exact Hid|]); (split; [exact Hlen|]);
    (split; [intro; congruence|]); (split; [auto|]);
    (split; [exact Hlv|]); rewrite ?length_app; simpl; lia.
Qed.

(** What a tick does to a segment. *)
Lemma grow_evolves fuel parents gravity lightDir tot max (s : t) r s' r' :
  grow fuel parents gravity lightDir tot max s r = Some (s', r') ->
  evolves s s'.
Proof.
  intro H. apply grow_inv in H.
  destruct H as (fuel' & s1 & r1 & cs & _ & Hself & Hloop & ->).
  apply grow_self_sound in Hself. apply self_step_evolves in Hself.
  apply forEach_Forall2 in Hloop. apply Forall2_length in Hloop.
  destruct Hself as (Hid & Hlen & Hf & Hb & Hlv & Hn).
  unfold evolves, same_identity in *. simpl. rewrite <- Hloop.
  repeat split; try tauto; intro Hg; destruct (Hf Hg) as (? & ? & ? & ? & ? & ?);
    assumption.
Qed.

(** A tick keeps every segment where it is, in a later state. *)
Lemma grow_at_path_evolves fuel :
  forall path parents gravity lightDir tot max (s : t) r s' r' x,
    grow fuel parents gravity lightDir tot max s r = Some (s', r') ->
    at_path path s = Some x ->
    exists x', at_path path s' = Some x' /\ evolves x x'.
Proof.
  induction fuel as [|fuel IH];
    intros path parents gravity lightDir tot max s r s' r' x Hgrow Hat;
    [discriminate|].
  destruct path as [|i path]; simpl in Hat.
  - inversion Hat; subst. exists s'. split; [reflexivity|].
    eapply grow_evolves; eauto.
  - destruct (nth_error (children s) i) as [c|] eqn:Hc; [|discriminate].
    apply grow_inv in Hgrow.
    destruct Hgrow as (fuel' & s1 & r1 & cs & Hf & Hself & Hloop & ->).
    inversion Hf; subst fuel'; clear Hf.
    apply grow_self_sound in Hself.
    apply (Properties.self_step_nth_child _ _ _ _ _ _ _ Hself) in Hc.
    apply forEach_Forall2 in Hloop.
    destruct (Properties.Forall2_nth_error _ _ _ Hloop _ _ Hc)
      as (c' & Hc' & ra & rb & Hgc).
    destruct (IH path _ _ _ _ _ _ _ _ _ x Hgc Hat) as (x' & Hx' & Hev).
    exists x'. simpl. rewrite Hc'. auto.
Qed.

Lemma update_at_path_evolves (organ : Plant.t -> t) gravity lightDir
    (p : Plant.t) r p' r' path x :
  organ = Plant.shoot \/ organ = Plant.root ->
  Plant.update gravity lightDir p r = Some (p', r') ->
  at_path path (organ p) = Some x ->
  exists x', at_path path (organ p') = Some x' /\ evolves x x'.
Proof.
  intros Horgan Hup Hat. apply update_inv in Hup.
  destruct Hup as (_ & _ & _ & _ & [(Hs & Hr & _) | (r1 & Hs & Hr)]).
  - exists x. split; [|apply evolves_refl].
    destruct Horgan; subst organ; congruence.
  - destruct Horgan; subst organ; eapply grow_at_path_evolves; eauto.
Qed.

Lemma updates_at_path_evolves (organ : Plant.t -> t) n gravity lightDir :
  forall (p : Plant.t) r p' r' path x,
    organ = Plant.shoot \/ organ = Plant.root ->
    Plant.updates n gravity lightDir p r = Some (p', r') ->
    at_path path (organ p) = Some x ->
    exists x', at_path path (organ p') = Some x' /\ evolves x x'.
Proof.
  induction n as [|n IH]; intros p r p' r' path x Horgan Hrun Hat; simpl in Hrun.
  - run_step Hrun. exists x. split; [exact Hat|apply evolves_refl].
  - run_step Hrun.
    destruct (update_at_path_evolves organ _ _ _ _ _ _ _ _ Horgan Hrun0 Hat)
      as (x1 & Hx1 & Hev1).
    destruct (IH _ _ _ _ _ _ Horgan Hrun Hx1) as (x' & Hx' & Hev').
    exists x'. split; [exact Hx'|]. eapply evolves_trans; eauto.
Qed.

(** X1.  Through any number of [update] ticks a segment, named by its
    position in its organ, never gets shorter; and once its [growing] flag
    is false it stays false, and the segment keeps its length. *)
Theorem segment_never_shrinks_nor_resumes (organ : Plant.t -> t) (n : nat)
    (gravity : Q) (lightDir : string) (p : Plant.t) (r : Rand)
    (p' : Plant.t) (r' : Rand) (path : list nat) (x : t) :
  organ = Plant.shoot \/ organ = Plant.root ->
  Plant.updates n gravity lightDir p r = Some (p', r') ->
  at_path path (organ p) = Some x ->
  exists x',
    at_path path (organ p') = Some x' /\
    length x <= length x' /\
    (growing x = false -> growing x' = false /\ length x' = length x).
Proof.
  intros Horgan Hrun Hat.
  destruct (updates_at_path_evolves organ n gravity lightDir p r p' r' path x
              Horgan Hrun Hat) as (x' & Hx' & (_ & Hlen & Hf & _)).
  exists x'. split; [exact Hx'|]. split; [exact Hlen|].
  intro Hg. destruct (Hf Hg) as (? & ? & _). auto.
Qed.

(** X2.  Through any number of [update] ticks the tree only gains: a
    segment stays at its position, its leaf placements are kept in order
    and new ones come behind them, its children are kept and counted no
    fewer, and [hasBranched], once true, stays true. *)
Theorem tree_is_append_only (organ : Plant.t -> t) (n : nat)
    (gravity : Q) (lightDir : string) (p : Plant.t) (r : Rand)
    (p' : Plant.t) (r' : Rand) (path : list nat) (x : t) :
  organ = Plant.shoot \/ organ = Plant.root ->
  Plant.updates n gravity lightDir p r = Some (p', r') ->
  at_path path (organ p) = Some x ->
  exists x',
    at_path path (organ p') = Some x' /\
    (exists extra, leaves x' = leaves x ++ extra) /\
    (List.length (children x) <= List.length (children x'))%nat /\
    (hasBranched x = true -> hasBranched x' = true).
Proof.
  intros Horgan Hrun Hat.
  destruct (updates_at_path_evolves organ n gravity lightDir p r p' r' path x
              Horgan Hrun Hat) as (x' & Hx' & (_ & _ & _ & Hb & Hlv & Hn)).
  exists x'. auto.
Qed.

(** The branch of the shoot that branches on its first occasion, through
    300 more ticks under gravity, with light from the left. *)
Lemma segment_never_shrinks_nor_resumes_witness :
  exists (p p' : Plant.t) (r' : Rand) (x x' : t),
    run (constant_draws 0.1) cress 0 "none" 800 = Some p /\
    Plant.updates 300 1 "left" p (constant_draws 0.5) = Some (p', r') /\
    at_path [0]%nat (Plant.shoot p) = Some x /\
    at_path [0]%nat (Plant.shoot p') = Some x' /\
    length x <= length x' /\
    (growing x = false -> growing x' = false /\ length x' = length x).
Proof.
  pose proof branching_run_800_eq as Hrun. unfold branching_run_800 in Hrun.
  match type of Hrun with _ = Some ?p0 => set (p := p0) in * end.
  destruct (updates_total 300 1 "left" p (constant_draws 0.5)) as (p' & r' & Hup).
  assert (Hx : exists x, at_path [0]%nat (Plant.shoot p) = Some x)
    by (eexists; reflexivity).
  destruct Hx as (x & Hx).
  destruct (segment_never_shrinks_nor_resumes Plant.shoot 300 1 "left" p
              (constant_draws 0.5) p' r' [0]%nat x (or_introl eq_refl) Hup Hx)
    as (x' & Hx' & H).
  exists p, p', r', x, x'.
  split; [exact Hrun|]. split; [exact Hup|]. split; [exact Hx|].
  split; [exact Hx'|]. exact H.
Defined.

Lemma tree_is_append_only_witness :
  exists (p p' : Plant.t) (r' : Rand) (x x' : t),
    run (constant_draws 0.1) cress 0 "none" 800 = Some p /\
    Plant.updates 300 1 "left" p (constant_draws 0.5) = Some (p', r') /\
    at_path []%nat (Plant.shoot p) = Some x /\
    at_path []%nat (Plant.shoot p') = Some x' /\
    (exists extra, leaves x' = leaves x ++ extra) /\
    (List.length (children x) <= List.length (children x'))%nat /\
    (hasBranched x = true -> hasBranched x' = true).
Proof.
  pose proof branching_run_800_eq as Hrun. unfold branching_run_800 in Hrun.
  match type of Hrun with _ = Some ?p0 => set (p := p0) in * end.
  destruct (updates_total 300 1 "left" p (constant_draws 0.5)) as (p' & r' & Hup).
  destruct (tree_is_append_only Plant.shoot 300 1 "left" p
              (constant_draws 0.5) p' r' []%nat (Plant.shoot p)
              (or_introl eq_refl) Hup eq_refl)
    as (x' & Hx' & H).
  exists p, p', r', (Plant.shoot p), x'.
  split; [exact Hrun|]. split; [exact Hup|]. split; [reflexivity|].
  split; [exact Hx'|]. exact H.
Defined.

End GrowthFacts.

(** ** The shape of an organ *)

Module ShapeFacts.
Import Segment Tick TickFacts PlantFacts Shape.

Lemma one_child_grow tot max fuel parents gravity lightDir (s : t) r s' r' :
  grow fuel parents gravity lightDir tot max s r = Some (s', r') ->
  All one_child (List.length parents) s ->
  All one_child (List.length parents) s'.
Proof.
  apply grow_All.
  - intros depth x x1 cs' [Hone Hwhy] Hstep Hid.
    apply Forall2_length in Hid. unfold one_child. simpl. rewrite <- Hid.
    assert (Hnil : forall l : list t, l <> [] <-> List.length l <> 0%nat).
    { intro l. destruct l; simpl; split; congruence. }
    assert (Hcs' : cs' <> [] <-> children x1 <> []).
    { rewrite (Hnil cs'), (Hnil (children x1)), Hid. tauto. }
    rewrite Hcs'. clear Hcs' Hid cs'.
    destruct Hstep as [Hg | s0 Hl _ | s0 c Hl _ _ Hhb _ _ _ | s0 Hl Hcs _ _
                       | s0 c Hl Hcs _ _ _];
      try (pose proof Hl as [Hgs _]; apply lengthened_fields in Hl;
           destruct Hl as (_ & Hcs0 & Hg0 & Hhb0 & _)); simpl.
    + auto.
    + rewrite Hcs0, Hhb0. split; [exact Hone|].
      intro Hk. destruct (Hwhy Hk); [congruence|auto].
    + assert (Hk : children x = []).
      { destruct (children x) eqn:E; [reflexivity|].
        destruct Hwhy as [H | H]; congruence. }
      rewrite Hcs0, Hk. simpl. auto.
    + rewrite Hcs. simpl. split; [lia|congruence].
    + rewrite Hcs. simpl. auto.
  - intros depth x x1 c c1 _ _ _ _ _ Hnokids. unfold one_child.
    rewrite Hnokids. simpl. split; [lia|congruence].
Qed.

Lemma reachable_one_child (p : Plant.t) :
  reachable p ->
  All one_child 0%nat (Plant.shoot p) /\ All one_child 0%nat (Plant.root p).
Proof.
  apply reachable_All.
  - intros root_ variety_ c (_ & _ & _ & _ & _ & _ & Hcs & _).
    unfold one_child. rewrite Hcs. simpl. split; [lia|congruence].
  - intros. eapply one_child_grow; eauto.
Qed.

(** X3.  In every reachable plant every segment has at most one child: a
    segment never has both a branch and a continuation, nor two of either,
    so each organ is a single chain of segments. *)
Theorem organ_is_a_chain (p : Plant.t) (organ : t) (path : list nat) (x : t) :
  reachable p ->
  organ = Plant.shoot p \/ organ = Plant.root p ->
  at_path path organ = Some x ->
  (List.length (children x) <= 1)%nat.
Proof.
  intros Hp Horgan Hat.
  assert (Hall : All one_child 0%nat organ).
  { destruct (reachable_one_child p Hp). destruct Horgan; subst; auto. }
  pose proof (All_at_path _ _ _ _ _ Hall Hat) as [Hone _]. exact Hone.
Qed.

(** The shoot that has branched, after 800 ticks: its first segment has
    the branch as its only child. *)
Lemma organ_is_a_chain_witness :
  exists (p : Plant.t) (x : t),
    run (constant_draws 0.1) cress 0 "none" 800 = Some p /\
    at_path [] (Plant.shoot p) = Some x /\
    hasBranched x = true /\
    (List.length (children x) <= 1)%nat.
Proof.
  with_run branching_run_800_eq branching_run_800.
  eexists. split; [exact Hrun|]. split; [reflexivity|]. split; [reflexivity|].
  eapply (organ_is_a_chain _ _ []).
  - exact (run_reachable _ _ _ _ _ _ Hrun).
  - left. reflexivity.
  - reflexivity.
Defined.

(** *** Roots and shoots *)

Lemma self_step_on_root depth tot max (s s1 : t) :
  self_step depth tot max s s1 ->
  isRoot s = true ->
  leaves s1 = leaves s /\ hasBranched s1 = hasBranched s.
Proof.
  destruct 1 as [Hg | s0 Hl _ | s0 c' Hl Hr _ _ _ _ _ | s0 Hl _ _ _
                 | s0 c' Hl _ _ _ _];
    intro Hroot;
    try (apply lengthened_fields in Hl;
         destruct Hl as ((Hir & _) & _ & _ & Hhb & _ & Hlv); simpl);
    auto.
  congruence.
Qed.

Lemma Forall_isRoot_identity (b : bool) (cs cs' : list t) :
  Forall2 same_identity cs cs' ->
  Forall (fun c => isRoot c = b) cs ->
  Forall (fun c => isRoot c = b) cs'.
Proof.
  induction 1 as [|c c' l l' (Hr & _) _ IH]; intro H; constructor;
    inversion H; subst; auto; congruence.
Qed.

Lemma organ_kind_grow tot max fuel parents gravity lightDir (s : t) r s' r' :
  grow fuel parents gravity lightDir tot max s r = Some (s', r') ->
  All organ_kind (List.length parents) s ->
  All organ_kind (List.length parents) s'.
Proof.
  apply grow_All.
  - intros depth x x1 cs' [Hroot Hkids] Hstep Hid.
    pose proof (self_step_identity _ _ _ _ _ Hstep) as (Hir & _ & _ & Hib & _).
    unfold organ_kind. simpl. rewrite Hir. split.
    + intro Hx. destruct (Hroot Hx) as (Hb & Hlv & Hhb).
      destruct (self_step_on_root _ _ _ _ _ Hstep Hx) as [Hlv1 Hhb1].
      repeat split; congruence.
    + apply (Forall_isRoot_identity _ _ _ Hid).
      destruct (self_step_children _ _ _ _ _ Hstep) as [-> | (c & Hcs & _)]; auto.
      rewrite Hcs. apply Forall_app. split; auto.
      constructor; [|constructor].
      destruct (self_step_child_kind _ _ _ _ _ _ Hstep Hcs)
        as [(_ & Hxr & _ & (Hcr & _) & _) | (_ & (Hcr & _) & _)]; congruence.
  - intros depth x x1 c c1 [Hroot _] Hstep Hcs Hnew Hstepc Hnokids.
    pose proof (self_step_identity _ _ _ _ _ Hstepc) as (Hir & _ & _ & Hib & _).
    unfold organ_kind. rewrite Hnokids. split; [|constructor].
    intro Hc1. assert (Hc : isRoot c = true) by congruence.
    destruct (self_step_on_root _ _ _ _ _ Hstepc Hc) as [Hlv1 Hhb1].
    destruct Hnew as (_ & _ & _ & _ & _ & _ & _ & Hlv & Hhb).
    destruct (self_step_child_kind _ _ _ _ _ _ Hstep Hcs)
      as [(_ & _ & _ & (Hcr & _) & _) | (_ & (Hcr & _ & Hcb & _) & _)];
      [congruence|].
    assert (Hx : isRoot x = true) by congruence.
    destruct (Hroot Hx) as (Hxb & _). repeat split; congruence.
Qed.

Lemma reachable_organ_kind (p : Plant.t) :
  reachable p ->
  All organ_kind 0%nat (Plant.shoot p) /\ All organ_kind 0%nat (Plant.root p).
Proof.
  apply reachable_All.
  - intros root_ variety_ c (_ & _ & Hb & _ & _ & _ & Hcs & Hlv & Hhb).
    unfold organ_kind. rewrite Hcs. split; [auto|constructor].
  - intros. eapply organ_kind_grow; eauto.
Qed.

Lemma reachable_top_kind (p : Plant.t) :
  reachable p ->
  isRoot (Plant.shoot p) = false /\ isRoot (Plant.root p) = true.
Proof.
  induction 1 as [v g l r p r' H | p g l r p' r' Hp IH H].
  - apply plant_new_spec in H. destruct H as ((Hs & _) & (Hr & _) & _). auto.
  - apply update_inv in H.
    destruct H as (_ & _ & _ & _ & [(-> & -> & _) | (r1 & Hs & Hr)]); auto.
    apply grow_identity in Hs, Hr.
    destruct Hs as (Hs & _), Hr as (Hr & _). destruct IH. split; congruence.
Qed.

Lemma organ_kind_descendants path :
  forall depth (x y : t),
    All organ_kind depth x -> at_path path x = Some y ->
    isRoot y = isRoot x.
Proof.
  induction path as [|i path IH]; intros depth x y Hall Hat; simpl in *.
  - inversion Hat; subst. reflexivity.
  - destruct (nth_error (children x) i) as [c|] eqn:Hc; [|discriminate].
    apply All_unfold in Hall. destruct Hall as [[_ Hkids] Hall].
    rewrite Forall_forall in Hall, Hkids. apply nth_error_In in Hc.
    rewrite <- (Hkids c Hc). apply (IH (S depth) c y); auto.
Qed.

Lemma countBranches_unfold (s : t) :
  countBranches s =
  fold_left (fun count child =>
               ((if isBranch child then S count else count)
                + countBranches child)%nat) (children s) 0%nat.
Proof. destruct s; reflexivity. Qed.

Lemma countBranches_none n :
  forall s : t,
    (height s <= n)%nat ->
    (forall path x, at_path path s = Some x -> isBranch x = false) ->
    countBranches s = 0%nat.
Proof.
  induction n as [|n IH]; intros s Hh Hno; rewrite countBranches_unfold.
  - destruct (children s) as [|c cs] eqn:Hcs; [reflexivity|].
    exfalso. assert (Hc : In c (children s)) by (rewrite Hcs; left; reflexivity).
    apply height_child in Hc. lia.
  - assert (Hkids : Forall (fun c => isBranch c = false /\ countBranches c = 0%nat)
                           (children s)).
    { apply Forall_forall. intros c Hc.
      destruct (In_nth_error _ _ Hc) as (i & Hi). split.
      - apply (Hno [i]). simpl. rewrite Hi. reflexivity.
      - apply IH.
        + apply height_child in Hc. lia.
        + intros path x Hx. apply (Hno (i :: path)). simpl. rewrite Hi. exact Hx. }
    induction Hkids as [|c cs [Hb Hc] _ IHc]; simpl; [reflexivity|].
    rewrite Hb, Hc. exact IHc.
Qed.

(** X4.  In every reachable plant every segment of the root organ is a
    root segment that is no branch, has no leaf placements and has never
    branched, so [countBranches] of the root organ is 0; and every segment
    of the shoot organ is a shoot segment. *)
Theorem root_never_branches (p : Plant.t) :
  reachable p ->
  (forall path x, at_path path (Plant.root p) = Some x ->
     isRoot x = true /\ isBranch x = false /\ leaves x = [] /\
     hasBranched x = false) /\
  countBranches (Plant.root p) = 0%nat /\
  (forall path x, at_path path (Plant.shoot p) = Some x -> isRoot x = false).
Proof.
  intro Hp. destruct (reachable_organ_kind p Hp) as [Hs Hr].
  destruct (reachable_top_kind p Hp) as [Hts Htr].
  assert (Hroot : forall path x, at_path path (Plant.root p) = Some x ->
            isRoot x = true /\ isBranch x = false /\ leaves x = [] /\
            hasBranched x = false).
  { intros path x Hx.
    pose proof (organ_kind_descendants _ _ _ _ Hr Hx) as Hk.
    pose proof (All_at_path _ _ _ _ _ Hr Hx) as [Hloc _].
    rewrite Htr in Hk. destruct (Hloc Hk) as (? & ? & ?). auto. }
  split; [exact Hroot|]. split.
  - apply (countBranches_none (height (Plant.root p))); [lia|].
    intros path x Hx. destruct (Hroot path x Hx) as (_ & Hb & _). exact Hb.
  - intros path x Hx. rewrite (organ_kind_descendants _ _ _ _ Hs Hx). exact Hts.
Qed.

(** The plant that branches on its first occasion, after 800 ticks. *)
Lemma root_never_branches_witness :
  exists p : Plant.t,
    run (constant_draws 0.1) cress 0 "none" 800 = Some p /\
    countBranches (Plant.shoot p) = 7%nat /\
    countBranches (Plant.root p) = 0%nat /\
    (forall path x, at_path path (Plant.root p) = Some x ->
       isRoot x = true /\ isBranch x = false /\ leaves x = [] /\
       hasBranched x = false).
Proof.
  with_run branching_run_800_eq branching_run_800.
  split; [exact Hrun|]. split; [reflexivity|].
  match goal with |- context [Plant.root ?p0] =>
    destruct (root_never_branches p0 (run_reachable _ _ _ _ _ _ Hrun))
      as (H1 & H2 & _)
  end.
  split; assumption.
Defined.

(** *** Lengths *)

Lemma length_window_set_children depth cs (s : t) :
  length_window depth s ->
  (cs = [] -> children s = []) ->
  length_window depth (set_children cs s).
Proof.
  intros (Ht & Hmin & Hstopped & Hgrowing) Hnil.
  unfold length_window.
  change (increment (set_children cs s)) with (increment s).
  cbn [set_children targetLength isRoot length growing children].
  split; [exact Ht|]. split; [exact Hmin|]. split; [exact Hstopped|].
  intros Hg Hk. auto.
Qed.

Lemma length_window_grow tot max fuel parents gravity lightDir (s : t) r s' r' :
  grow fuel parents gravity lightDir tot max s r = Some (s', r') ->
  All length_window (List.length parents) s ->
  All length_window (List.length parents) s'.
Proof.
  apply grow_All.
  - intros depth x x1 cs' (Ht & Hmin & Hstopped & Hgrowing) Hstep Hid.
    apply length_window_set_children; [|intros ->; inversion Hid; reflexivity].
    clear Hid cs'.
    pose proof (self_step_identity _ _ _ _ _ Hstep) as Hsame.
    pose proof (Properties.increment_identity _ _ Hsame) as Hinc.
    destruct Hsame as (Hir & _ & _ & _ & Hit).
    pose proof (increment_bounds x) as [Hi0 Hi1].
    pose proof (Properties.self_step_length _ _ _ _ _ Hstep) as Hlen.
    destruct Hstep as [Hg | s0 Hl Hshort | s0 c Hl _ _ _ _ _ _ | s0 Hl Hcs Hfull _
                       | s0 c Hl Hcs Hfull _ _];
      [unfold length_window; auto | | | | ];
      unfold length_window; rewrite Hir, Hit, Hinc, Hlen;
      (split; [exact Ht|]);
      pose proof Hl as [Hgs _]; apply lengthened_fields in Hl;
      destruct Hl as ((_ & _ & _ & _ & Hit0) & Hcs0 & Hg0 & _ & Hlen0 & _);
      rewrite Hgs, Qred_correct;
      cbn [set_children set_growing set_hasBranched growing children].
    + rewrite Hg0. split; [lra|]. split; [discriminate|].
      intros _ Hk. destruct Hshort as [Hshort | Hshort]; [|contradiction].
      rewrite Hlen0, Qred_correct, Hit0 in Hshort. exact Hshort.
    + rewrite Hg0. split; [lra|]. split; [discriminate|].
      intros _ Hk. destruct (children s0); discriminate.
    + rewrite Hlen0, Qred_correct, Hit0 in Hfull. rewrite Hcs0 in Hcs.
      specialize (Hgrowing Hgs Hcs).
      split; [lra|]. split; [|discriminate]. intros _. split; lra.
    + rewrite Hlen0, Qred_correct, Hit0 in Hfull. rewrite Hcs0 in Hcs.
      specialize (Hgrowing Hgs Hcs).
      split; [lra|]. split; [|discriminate]. intros _. split; lra.
  - intros depth x x1 c c1 _ _ _ Hnew Hstepc Hnokids.
    destruct (self_step_new _ _ _ _ _ _ _ _ Hnew Hstepc) as (_ & Hg & Hlen).
    pose proof (self_step_identity _ _ _ _ _ Hstepc) as (Hir & _ & _ & _ & Hit).
    pose proof (increment_bounds c) as [Hi0 Hi1].
    destruct Hnew as (_ & _ & _ & Ht & _).
    unfold length_window. rewrite Hir, Hit, Hg, Hlen.
    split; [exact Ht|]. split; [lra|]. split; [discriminate|].
    intros _ _. rewrite Ht. destruct (isRoot c); lra.
Qed.

Lemma reachable_length_window (p : Plant.t) :
  reachable p ->
  All length_window 0%nat (Plant.shoot p) /\
  All length_window 0%nat (Plant.root p).
Proof.
  apply reachable_All.
  - intros root_ variety_ c (Hr & _ & _ & Ht & Hlen & Hg & _).
    unfold length_window. rewrite Hr, Ht, Hlen, Hg.
    split; [reflexivity|]. split; [lra|]. split; [discriminate|].
    intros _ _. destruct root_; reflexivity.
  - intros. eapply length_window_grow; eauto.
Qed.

(** X5.  In every reachable plant the target length of a segment is 10
    for a root segment and 12 for a shoot segment, no segment is shorter
    than its first length 0.1, a segment that has stopped is at least as
    long as its target and overshoots it by less than one tick's growth
    (at most 0.1375), and a growing segment without a child is shorter than
    its target. *)
Theorem stopped_segment_is_just_past_its_target (p : Plant.t) (organ : t)
    (path : list nat) (x : t) :
  reachable p ->
  organ = Plant.shoot p \/ organ = Plant.root p ->
  at_path path organ = Some x ->
  targetLength x = (if isRoot x then 10 else 12) /\
  0.1 <= length x /\
  (growing x = false ->
   targetLength x <= length x /\ length x < targetLength x + increment x /\
   length x < targetLength x + 0.1375) /\
  (growing x = true -> children x = [] -> length x < targetLength x).
Proof.
  intros Hp Horgan Hat.
  assert (Hall : All length_window 0%nat organ).
  { destruct (reachable_length_window p Hp). destruct Horgan; subst; auto. }
  pose proof (All_at_path _ _ _ _ _ Hall Hat) as (Ht & Hmin & Hstopped & Hgrowing).
  pose proof (increment_bounds x) as [_ Hi1].
  split; [exact Ht|]. split; [exact Hmin|]. split; [|exact Hgrowing].
  intro Hg. destruct (Hstopped Hg). repeat split; auto. lra.
Qed.

(** The second segment of the root of the plant of 1727 ticks. *)
Lemma stopped_segment_is_just_past_its_target_witness :
  exists (p : Plant.t) (x : t),
    run (constant_draws 0.5) cress 0 "none" 1727 = Some p /\
    at_path [0]%nat (Plant.root p) = Some x /\
    growing x = false /\
    targetLength x = (if isRoot x then 10 else 12) /\
    0.1 <= length x /\
    (growing x = false ->
     targetLength x <= length x /\ length x < targetLength x + increment x /\
     length x < targetLength x + 0.1375) /\
    (growing x = true -> children x = [] -> length x < targetLength x).
Proof.
  with_run ripening_run_eq ripening_run.
  eexists. split; [exact Hrun|]. split; [reflexivity|]. split; [reflexivity|].
  eapply (stopped_segment_is_just_past_its_target _ _ [0]%nat).
  - exact (run_reachable _ _ _ _ _ _ Hrun).
  - right. reflexivity.
  - reflexivity.
Defined.

End ShapeFacts.

(** ** The total length of an organ *)

Module OrganLength.
Import Segment Tick TickFacts PlantFacts Shape.

Lemma fold_total_shift (cs : list t) :
  forall a, fold_left (fun acc c => acc + totalLength c) cs a
            == a + childrenLength cs.
Proof.
  unfold childrenLength.
  induction cs as [|c cs IH]; intro a; simpl.
  - lra.
  - rewrite (IH (a + totalLength c)), (IH (0 + totalLength c)). lra.
Qed.

Lemma totalLength_children (s : t) :
  totalLength s == length s + childrenLength (children s).
Proof. rewrite Properties.totalLength_unfold. reflexivity. Qed.

Lemma childrenLength_cons c cs :
  childrenLength (c :: cs) == totalLength c + childrenLength cs.
Proof.
  unfold childrenLength at 1. simpl. rewrite fold_total_shift. lra.
Qed.

Lemma childrenLength_snoc cs c :
  childrenLength (cs ++ [c]) == childrenLength cs + totalLength c.
Proof.
  unfold childrenLength. rewrite fold_left_app. simpl. reflexivity.
Qed.

Lemma childrenLength_le cs cs' :
  Forall2 (fun c c' => totalLength c <= totalLength c') cs cs' ->
  childrenLength cs <= childrenLength cs'.
Proof.
  induction 1 as [|c c' l l' Hc _ IH].
  - apply Qle_refl.
  - rewrite !childrenLength_cons. lra.
Qed.

(** After a tick an organ is at least as long, and longer by the least
    growth of its segments when it was not fully grown. *)
Lemma grow_totalLength fuel (m : Q) :
  forall parents gravity lightDir tot max (s : t) r s' r',
    grow fuel parents gravity lightDir tot max s r = Some (s', r') ->
    totalLength s <= totalLength s' /\
    ((forall path x, at_path path s = Some x -> m <= increment x) ->
     isFullyGrown s = false ->
     totalLength s + m <= totalLength s').
Proof.
  induction fuel as [|fuel IH];
    intros parents gravity lightDir tot max s r s' r' Hgrow; [discriminate|].
  pose proof (Properties.grow_length_of _ _ _ _ _ _ _ _ _ _ Hgrow) as Hlen.
  apply grow_inv in Hgrow.
  destruct Hgrow as (fuel' & s1 & r1 & cs & Hf & Hself & Hloop & ->).
  inversion Hf; subst fuel'; clear Hf.
  apply grow_self_sound in Hself.
  apply forEach_Forall2 in Hloop.
  pose proof (increment_bounds s) as [Hi0 _].
  rewrite (totalLength_children s), (totalLength_children (set_children cs s1)).
  cbn [set_children children] in *.
  change (length (set_children cs s1)) with (length s1) in *.
  assert (Hnew : childrenLength (children s) <= childrenLength (children s1)).
  { destruct (self_step_children _ _ _ _ _ Hself)
      as [-> | (c & -> & ir & br & (_ & _ & _ & _ & Hcl & _ & Hcc & _))].
    - apply Qle_refl.
    - rewrite childrenLength_snoc, (totalLength_children c), Hcc, Hcl.
      unfold childrenLength at 3. simpl. lra. }
  assert (Hkids : childrenLength (children s1) <= childrenLength cs).
  { apply childrenLength_le.
    eapply Forall2_impl; [|exact Hloop].
    intros c c' (ra & rb & Hc). simpl in Hc.
    destruct (IH _ _ _ _ _ _ _ _ _ Hc) as [Hle _]. exact Hle. }
  assert (Hown : length s <= length s1).
  { rewrite Hlen. destruct (growing s); [rewrite Qred_correct|]; lra. }
  split; [lra|].
  intros Hm Hnot.
  rewrite Properties.isFullyGrown_unfold in Hnot.
  destruct (growing s) eqn:Hg.
  - rewrite Hlen, Qred_correct. specialize (Hm [] s eq_refl). lra.
  - (* the segment has stopped: one of its children has not *)
    assert (Hs1 : s1 = s).
    { destruct Hself as [_ | s0 [Hg' _] _ | s0 c' [Hg' _] _ _ _ _ _ _
                         | s0 [Hg' _] _ _ _ | s0 c' [Hg' _] _ _ _ _];
        congruence. }
    subst s1.
    assert (Hstrict : childrenLength (children s) + m <= childrenLength cs).
    { clear Hkids Hnew Hown Hlen.
      assert (Hm' : forall i c path x, nth_error (children s) i = Some c ->
                at_path path c = Some x -> m <= increment x).
      { intros i c path x Hi Hx. apply (Hm (i :: path)). simpl.
        rewrite Hi. exact Hx. }
      clear Hm. revert Hm' Hnot.
      induction Hloop as [|c c' l l' (ra & rb & Hc) Hrest IHl]; intros Hm Hnot.
      - discriminate.
      - simpl in Hnot. rewrite !childrenLength_cons.
        destruct (IH _ _ _ _ _ _ _ _ _ Hc) as [Hle Hprog].
        assert (Hl : childrenLength l <= childrenLength l').
        { apply childrenLength_le.
          eapply Forall2_impl; [|exact Hrest].
          intros d d' (rc & rd & Hd). simpl in Hd.
          destruct (IH _ _ _ _ _ _ _ _ _ Hd) as [Hle' _]. exact Hle'. }
        destruct (isFullyGrown c) eqn:Hfc.
        + simpl in Hnot.
          assert (childrenLength l + m <= childrenLength l').
          { apply IHl; [|exact Hnot].
            intros i d path x Hi Hx. apply (Hm (S i) d path x); auto. }
          lra.
        + assert (totalLength c + m <= totalLength c').
          { apply Hprog; [|reflexivity].
            intros path x Hx. apply (Hm 0%nat c path x); auto. }
          lra. }
    lra.
Qed.

Lemma update_totalLength (organ : Plant.t -> t) gravity lightDir
    (p : Plant.t) r p' r' :
  organ = Plant.shoot \/ organ = Plant.root ->
  Plant.update gravity lightDir p r = Some (p', r') ->
  totalLength (organ p) <= totalLength (organ p').
Proof.
  intros Horgan Hup. apply update_inv in Hup.
  destruct Hup as (_ & _ & _ & _ & [(Hs & Hr & _) | (r1 & Hs & Hr)]).
  - destruct Horgan; subst organ; rewrite ?Hs, ?Hr; apply Qle_refl.
  - destruct Horgan; subst organ.
    + destruct (grow_totalLength _ 0 _ _ _ _ _ _ _ _ _ Hs). assumption.
    + destruct (grow_totalLength _ 0 _ _ _ _ _ _ _ _ _ Hr). assumption.
Qed.

(** X6.  Through any number of [update] ticks the [totalLength()] of an
    organ never decreases. *)
Theorem organ_never_shrinks (organ : Plant.t -> t) (n : nat) (gravity : Q)
    (lightDir : string) :
  forall (p : Plant.t) (r : Rand) (p' : Plant.t) (r' : Rand),
    organ = Plant.shoot \/ organ = Plant.root ->
    Plant.updates n gravity lightDir p r = Some (p', r') ->
    totalLength (organ p) <= totalLength (organ p').
Proof.
  induction n as [|n IH]; intros p r p' r' Horgan Hrun; simpl in Hrun.
  - run_step Hrun. apply Qle_refl.
  - run_step Hrun.
    pose proof (update_totalLength organ _ _ _ _ _ _ Horgan Hrun0).
    pose proof (IH _ _ _ _ Horgan Hrun). lra.
Qed.

Lemma organ_never_shrinks_witness :
  exists (p p' : Plant.t) (r' : Rand),
    run (constant_draws 0.1) cress 0 "none" 800 = Some p /\
    Plant.updates 300 1 "left" p (constant_draws 0.5) = Some (p', r') /\
    totalLength (Plant.shoot p) <= totalLength (Plant.shoot p').
Proof.
  pose proof branching_run_800_eq as Hrun. unfold branching_run_800 in Hrun.
  match type of Hrun with _ = Some ?p0 => set (p := p0) in * end.
  destruct (updates_total 300 1 "left" p (constant_draws 0.5)) as (p' & r' & Hup).
  exists p, p', r'. split; [exact Hrun|]. split; [exact Hup|].
  exact (organ_never_shrinks Plant.shoot 300 1 "left" p (constant_draws 0.5)
           p' r' (or_introl eq_refl) Hup).
Defined.

(** *** The root organ completes *)

Lemma root_chain_increment (path : list nat) :
  forall variety_ max prefix (s x : t),
    root_chain variety_ max prefix s ->
    at_path path s = Some x ->
    increment x == rootGrowthRate (VARIETIES variety_) * 2.5.
Proof.
  induction path as [|i path IH]; intros variety_ max prefix s x Hchain Hx;
    apply Properties.root_chain_unfold in Hchain;
    destruct Hchain as (Hr & Hb & Hv & _ & Hkids); simpl in Hx.
  - inversion Hx; subst x. unfold increment. rewrite Hr, Hb, Hv. ring.
  - destruct (children s) as [|c [|c2 rest]]; try contradiction.
    + destruct i; discriminate.
    + destruct Hkids as (_ & _ & Hc).
      destruct i as [|i]; simpl in Hx; [eauto|].
      destruct i; discriminate.
Qed.

Lemma is_new_totalLength root_ variety_ branch_ (c : t) :
  is_new root_ variety_ branch_ c -> totalLength c == 0.1.
Proof.
  intros (_ & _ & _ & _ & Hl & _ & Hcs & _).
  rewrite totalLength_children, Hcs, Hl. unfold childrenLength. simpl. lra.
Qed.

(** While the root organ is not fully grown, every tick from the eighth on
    has lengthened it by one increment. *)
Lemma root_growth_tally (p : Plant.t) :
  reachable p ->
  0.1 <= totalLength (Plant.root p) /\
  (isFullyGrown (Plant.root p) = false ->
   0.1 + (inject_Z (Plant.age p) - 7)
         * (rootGrowthRate (VARIETIES (Plant.variety p)) * 2.5)
   <= totalLength (Plant.root p)).
Proof.
  induction 1 as [v g l r p r' H | p g l r p' r' Hp IH H].
  - unfold Plant.new in H. run_step H. run_step H. run_step H. run_step H.
    apply new_spec in Hrun1. destruct Hrun1 as [Hnew _].
    apply is_new_totalLength in Hnew. cbn [Plant.root Plant.age Plant.variety].
    rewrite Hnew.
    assert (0 < rootGrowthRate (VARIETIES v) * 2.5) by (destruct v; reflexivity).
    split; [lra|]. intros _. change (inject_Z 0) with 0. nra.
  - destruct IH as [IHlow IHtally].
    pose proof (Properties.reachable_root_chain p Hp) as [Hchain _].
    pose proof (update_totalLength Plant.root _ _ _ _ _ _ (or_intror eq_refl) H)
      as Hmono.
    split; [lra|].
    intro Hnot.
    assert (Hpos : 0 < rootGrowthRate (VARIETIES (Plant.variety p)) * 2.5)
      by (destruct (Plant.variety p); reflexivity).
    unfold Plant.update in H.
    destruct (Plant.age p + 1 <? 8)%Z eqn:Hage.
    + run_step H. cbn [Plant.root Plant.age Plant.variety] in *.
      apply Z.ltb_lt in Hage.
      assert (inject_Z (Plant.age p + 1) <= 7).
      { change 7 with (inject_Z 7). rewrite <- Zle_Qle. lia. }
      nra.
    + run_step H. run_step H. run_step H.
      cbn [Plant.root Plant.age Plant.variety] in *.
      destruct (isFullyGrown (Plant.root p)) eqn:Hfull.
      * rewrite (Properties.grow_fully_grown _ _ _ _ _ _ _ _ Hfull) in Hrun0
          by (unfold growFuel; lia).
        inversion Hrun0; subst. congruence.
      * specialize (IHtally eq_refl).
        destruct (grow_totalLength _
                    (rootGrowthRate (VARIETIES (Plant.variety p)) * 2.5)
                    _ _ _ _ _ _ _ _ _ Hrun0) as [_ Hprog].
        assert (Hinc : forall path y, at_path path (Plant.root p) = Some y ->
                  rootGrowthRate (VARIETIES (Plant.variety p)) * 2.5
                  <= increment y).
        { intros path y Hy.
          rewrite (root_chain_increment _ _ _ _ _ _ Hchain Hy).
          apply Qle_refl. }
        specialize (Hprog Hinc Hfull).
        rewrite inject_Z_plus. change (inject_Z 1) with 1. nra.
Qed.

(** X7.  The root organ always completes: once the age of a plant times the
    growth of a root segment in one tick covers the species maximum
    [maxRootLen] plus one segment (with the nine ticks of germination and
    of overshoot), [isFullyGrown()] holds for the root. *)
Theorem root_completes_by_age (p : Plant.t) :
  reachable p ->
  maxRootLen (VARIETIES (Plant.variety p)) + 9.9
  <= (inject_Z (Plant.age p) - 9)
     * (rootGrowthRate (VARIETIES (Plant.variety p)) * 2.5) ->
  isFullyGrown (Plant.root p) = true.
Proof.
  intros Hp Hage.
  destruct (isFullyGrown (Plant.root p)) eqn:Hfull; [reflexivity|exfalso].
  destruct (root_growth_tally p Hp) as [_ Htally].
  specialize (Htally Hfull).
  pose proof (Properties.reachable_root_chain p Hp) as [Hchain Hmax].
  pose proof (Properties.root_chain_bound (height (Plant.root p)) _ _ 0
                (Plant.root p) (Nat.le_refl _) Hchain) as Hbound.
  pose proof (root_chain_increment [] _ _ _ _ _ Hchain eq_refl) as Hinc.
  assert (Hpos : 0 < maxRootLen (VARIETIES (Plant.variety p)))
    by (destruct (Plant.variety p); reflexivity).
  rewrite Hmax, Hinc in Hbound.
  assert (Hpos' : 0 < rootGrowthRate (VARIETIES (Plant.variety p)) * 2.5)
    by (destruct (Plant.variety p); reflexivity).
  specialize (Hbound ltac:(lra)).
  lra.
Qed.

(** A cress plant of 1727 ticks: 129.9 <= (1727 - 9) * 0.1. *)
Lemma root_completes_by_age_witness :
  exists p : Plant.t,
    run (constant_draws 0.5) cress 0 "none" 1727 = Some p /\
    maxRootLen (VARIETIES (Plant.variety p)) + 9.9
    <= (inject_Z (Plant.age p) - 9)
       * (rootGrowthRate (VARIETIES (Plant.variety p)) * 2.5) /\
    isFullyGrown (Plant.root p) = true.
Proof.
  with_run ripening_run_eq ripening_run.
  split; [exact Hrun|].
  match goal with |- ?A /\ _ => assert (Hage : A) by (vm_compute; congruence) end.
  split; [exact Hage|].
  exact (root_completes_by_age _ (run_reachable _ _ _ _ _ _ Hrun) Hage).
Defined.

End OrganLength.

(** ** Draws in [0, 1) *)

Module DrawFacts.
Import Segment Tick TickFacts PlantFacts Shape Draws.

Lemma keeps_ret {A} (a : A) : keeps (ret a).
Proof. intros r b r' H. run_step H. reflexivity. Qed.

Lemma keeps_bind {A B} (m : M A) (k : A -> M B) :
  keeps m -> (forall a, keeps (k a)) -> keeps (bind m k).
Proof.
  intros Hm Hk r b r' H. run_step H.
  rewrite (Hk _ _ _ _ H). eapply Hm; eauto.
Qed.

Lemma keeps_random : keeps Math_random.
Proof. intros r u r' H. unfold Math_random in H. inversion H. reflexivity. Qed.

Lemma keeps_lift {A} (o : option A) : keeps (lift o).
Proof. intros r a r' H. apply lift_Some in H. destruct H as [_ ->]. reflexivity. Qed.

Lemma keeps_if {A} (b : bool) (m1 m2 : M A) :
  keeps m1 -> keeps m2 -> keeps (if b then m1 else m2).
Proof. destruct b; auto. Qed.

Lemma keeps_out_of_fuel {A} : keeps (@out_of_fuel A).
Proof. intros r a r' H. discriminate. Qed.

Lemma keeps_forEach {A B} (f : A -> M B) (cs : list A) :
  (forall c, keeps (f c)) -> keeps (forEach f cs).
Proof.
  intro Hf. induction cs as [|c cs IH]; simpl.
  - apply keeps_ret.
  - apply keeps_bind; [apply Hf|]. intro c'.
    apply keeps_bind; [exact IH|]. intro cs'. apply keeps_ret.
Qed.

Ltac keeps_tac :=
  repeat first
    [ apply keeps_ret
    | apply keeps_random
    | apply keeps_lift
    | apply keeps_out_of_fuel
    | apply keeps_bind; [|intro]
    | apply keeps_if
    | assumption ].

Lemma keeps_new parents root_ variety_ offset branch_ :
  keeps (new parents root_ variety_ offset branch_).
Proof. unfold new. keeps_tac. Qed.

Lemma keeps_createBranch parents gravity lightDir (s : t) :
  keeps (_createBranch parents gravity lightDir s).
Proof. unfold _createBranch. keeps_tac; apply keeps_new. Qed.

Lemma keeps_addTipSegment parents gravity lightDir (s : t) :
  keeps (_addTipSegment parents gravity lightDir s).
Proof. unfold _addTipSegment. keeps_tac; apply keeps_new. Qed.

Lemma keeps_grow_leaves (s : t) : keeps (grow_leaves s).
Proof. unfold grow_leaves. keeps_tac. Qed.

Lemma keeps_grow_branch parents gravity lightDir (s : t) :
  keeps (grow_branch parents gravity lightDir s).
Proof. unfold grow_branch. keeps_tac; apply keeps_createBranch. Qed.

Lemma keeps_grow_tip parents gravity lightDir tot max (s : t) :
  keeps (grow_tip parents gravity lightDir tot max s).
Proof. unfold grow_tip. keeps_tac; apply keeps_addTipSegment. Qed.

Lemma keeps_grow_self parents gravity lightDir tot max (s : t) :
  keeps (grow_self parents gravity lightDir tot max s).
Proof.
  unfold grow_self. apply keeps_if; [|apply keeps_ret].
  apply keeps_bind; [apply keeps_grow_leaves|]. intro s0.
  apply keeps_bind; [apply keeps_grow_branch|]. intro s1.
  apply keeps_grow_tip.
Qed.

Lemma keeps_grow fuel :
  forall parents gravity lightDir tot max (s : t),
    keeps (grow fuel parents gravity lightDir tot max s).
Proof.
  induction fuel as [|fuel IH]; intros; simpl.
  - apply keeps_out_of_fuel.
  - apply keeps_bind; [apply keeps_grow_self|]. intro s1.
    apply keeps_bind; [apply keeps_forEach; intro c; apply IH|].
    intro cs. apply keeps_ret.
Qed.

Lemma keeps_update gravity lightDir (p : Plant.t) :
  keeps (Plant.update gravity lightDir p).
Proof.
  unfold Plant.update. apply keeps_if; [apply keeps_ret|].
  apply keeps_bind; [apply keeps_grow|]. intro s.
  apply keeps_bind; [apply keeps_grow|]. intro s0. apply keeps_ret.
Qed.

Lemma keeps_updates n gravity lightDir :
  forall p : Plant.t, keeps (Plant.updates n gravity lightDir p).
Proof.
  induction n as [|n IH]; intro p; simpl.
  - apply keeps_ret.
  - apply keeps_bind; [apply keeps_update|]. intro p'. apply IH.
Qed.

Lemma keeps_plant_new variety_ gravity lightDir :
  keeps (Plant.new variety_ gravity lightDir).
Proof.
  unfold Plant.new. apply keeps_bind; [apply keeps_random|]. intro u.
  apply keeps_bind; [apply keeps_new|]. intro s.
  apply keeps_bind; [apply keeps_new|]. intro s0. apply keeps_ret.
Qed.

Lemma keeps_fair {A} (m : M A) r a r' :
  keeps m -> m r = Some (a, r') -> fair r -> fair r'.
Proof. intros Hm H Hr i. rewrite (Hm _ _ _ H). apply Hr. Qed.

Lemma random_fair r u r' :
  fair r -> Math_random r = Some (u, r') -> 0 <= u /\ u < 1 /\ fair r'.
Proof.
  intros Hr H. pose proof (keeps_fair _ _ _ _ keeps_random H Hr) as Hr'.
  unfold Math_random in H. inversion H; subst.
  destruct (Hr (cursor r)). auto.
Qed.

Lemma constant_draws_fair (u : Q) : 0 <= u -> u < 1 -> fair (constant_draws u).
Proof. intros H0 H1 i. simpl. auto. Qed.

(** A loop over the children reads draws in [0, 1) at every child. *)
Lemma forEach_fair {A B} (f : A -> M B) (cs : list A) :
  (forall c, keeps (f c)) ->
  forall r cs' r',
    fair r -> forEach f cs r = Some (cs', r') ->
    Forall2 (fun c c' => exists ra rb, fair ra /\ f c ra = Some (c', rb)) cs cs'.
Proof.
  intro Hf.
  induction cs as [|c cs IH]; intros r cs' r' Hr H; simpl in H.
  - run_step H. constructor.
  - run_step H. run_step H. run_step H. constructor; [eauto|].
    eapply IH; [|exact Hrun0]. eapply keeps_fair; eauto.
Qed.

Lemma new_fresh parents root_ variety_ offset branch_ r c r' :
  new parents root_ variety_ offset branch_ r = Some (c, r') -> fresh c.
Proof.
  intro H. pose proof (new_spec _ _ _ _ _ _ _ _ H) as [Hnew _].
  split; [eauto|].
  unfold new in H. run_step H. run_step H. simpl.
  destruct (Qltb a 0.5); auto.
Qed.

Lemma fresh_no_children (c : t) : fresh c -> children c = [].
Proof. intros [(ir & v & br & (_ & _ & _ & _ & _ & _ & Hcs & _)) _]. exact Hcs. Qed.

(** The children that the segment's own part of a tick adds come from
    [new Segment(...)]. *)
Lemma grow_self_fresh parents gravity lightDir tot max (s : t) r s1 r1 :
  grow_self parents gravity lightDir tot max s r = Some (s1, r1) ->
  exists extra, children s1 = children s ++ extra /\ Forall fresh extra.
Proof.
  intro H. unfold grow_self in H.
  destruct (growing s).
  2:{ run_step H. exists []. rewrite app_nil_r. auto. }
  run_step H. run_step H.
  apply grow_leaves_spec in Hrun. destruct Hrun as (lv & side_ & -> & _).
  assert (Hbranch : exists extra, children a0 = children s ++ extra /\
                                  Forall fresh extra).
  { unfold grow_branch in Hrun0.
    destruct (_ && _).
    - run_step Hrun0. destruct (Qltb a 0.15).
      + run_step Hrun0. run_step Hrun0.
        unfold _createBranch in Hrun1. do 3 run_step Hrun1. run_step Hrun1.
        match goal with Hn : new _ _ _ _ _ _ = Some (?c, _) |- _ =>
          apply new_fresh in Hn; exists [c]; simpl; auto end.
      + run_step Hrun0. exists []. simpl. rewrite app_nil_r. auto.
    - run_step Hrun0. exists []. simpl. rewrite app_nil_r. auto. }
  destruct Hbranch as (extra & Hcs0 & Hextra).
  unfold grow_tip in H.
  destruct (_ && _).
  - destruct (Qltb tot max).
    + unfold _addTipSegment in H. do 4 run_step H. run_step H.
      match goal with Hn : new _ _ _ _ _ _ = Some (?c, _) |- _ =>
        apply new_fresh in Hn; exists (extra ++ [c]) end.
      cbn [set_children set_growing children] in *.
      rewrite Hcs0, app_assoc. split; [reflexivity|].
      apply Forall_app. auto.
    + run_step H. exists extra. auto.
  - run_step H. exists extra. auto.
Qed.

Lemma plant_new_fresh variety_ gravity lightDir r p r' :
  Plant.new variety_ gravity lightDir r = Some (p, r') ->
  fresh (Plant.shoot p) /\ fresh (Plant.root p).
Proof.
  unfold Plant.new. intro H. do 3 run_step H. run_step H.
  apply new_fresh in Hrun0, Hrun1. auto.
Qed.

(** A property of every segment that the segment's own part of a tick
    keeps when the draws are in [0, 1), whatever its children become, and
    that holds of a new segment, holds of the whole tree after the tick. *)
Theorem grow_All_fair (P : nat -> t -> Prop) :
  (forall parents gravity lightDir tot max s r s1 r1 cs',
      fair r -> P (List.length parents) s ->
      grow_self parents gravity lightDir tot max s r = Some (s1, r1) ->
      Forall2 same_identity (children s1) cs' ->
      P (List.length parents) (set_children cs' s1)) ->
  (forall depth c, fresh c -> P depth c) ->
  forall fuel parents gravity lightDir tot max (s : t) r s' r',
    fair r ->
    grow fuel parents gravity lightDir tot max s r = Some (s', r') ->
    All P (List.length parents) s -> All P (List.length parents) s'.
Proof.
  intros Hkeep Hfresh.
  induction fuel as [|fuel IH];
    intros parents gravity lightDir tot max s r s' r' Hr H Hall.
  - discriminate.
  - apply grow_inv in H.
    destruct H as (fuel' & s1 & r1 & cs & Hf & Hself & Hloop & ->).
    inversion Hf; subst fuel'; clear Hf.
    pose proof (keeps_fair _ _ _ _ (keeps_grow_self _ _ _ _ _ _) Hself Hr) as Hr1.
    apply All_unfold in Hall. destruct Hall as [HP Hkids].
    apply All_unfold. split.
    + apply (Hkeep parents gravity lightDir tot max s r s1 r1 cs Hr HP Hself).
      eapply grow_children_identity; eauto.
    + cbn [set_children children].
      apply forEach_fair in Hloop; [|intro; apply keeps_grow|exact Hr1].
      assert (Hall1 : Forall (All P (S (List.length parents))) (children s1)).
      { destruct (grow_self_fresh _ _ _ _ _ _ _ _ _ Hself)
          as (extra & -> & Hextra).
        apply Forall_app. split; [exact Hkids|].
        eapply Forall_impl; [|exact Hextra].
        intros c Hc. apply All_unfold.
        rewrite (fresh_no_children c Hc).
        split; [apply Hfresh; exact Hc|constructor]. }
      clear Hkids Hself HP.
      induction Hloop as [|c c' l l' (ra & rb & Hra & Hc) _ IHl];
        constructor; inversion Hall1; subst.
      * apply (IH (link s :: parents) gravity lightDir tot max c ra c' rb);
          auto.
      * auto.
Qed.

Lemma grown_reachable (p : Plant.t) : grown p -> reachable p.
Proof.
  induction 1.
  - eapply reachable_new; eauto.
  - eapply reachable_update; eauto.
Qed.

(** A property that every tick keeps and every new segment has holds of
    both organs of every plant grown from draws in [0, 1). *)
Lemma grown_All (P : nat -> t -> Prop) :
  (forall parents gravity lightDir tot max s r s1 r1 cs',
      fair r -> P (List.length parents) s ->
      grow_self parents gravity lightDir tot max s r = Some (s1, r1) ->
      Forall2 same_identity (children s1) cs' ->
      P (List.length parents) (set_children cs' s1)) ->
  (forall depth c, fresh c -> P depth c) ->
  forall p, grown p ->
    All P 0%nat (Plant.shoot p) /\ All P 0%nat (Plant.root p).
Proof.
  intros Hkeep Hfresh p Hp.
  induction Hp as [v g l r p r' Hr H | p g l r p' r' Hp IH Hr H].
  - apply plant_new_fresh in H. destruct H as [Hs Hr'].
    split; apply All_unfold.
    + rewrite (fresh_no_children _ Hs). split; [auto|constructor].
    + rewrite (fresh_no_children _ Hr'). split; [auto|constructor].
  - apply update_inv in H.
    destruct H as (_ & _ & _ & _ & [(-> & -> & _) | (r1 & Hs & Hr1)]); auto.
    destruct IH as [IHs IHr].
    pose proof (keeps_fair _ _ _ _ (keeps_grow _ _ _ _ _ _ _) Hs Hr) as Hfair1.
    split.
    + exact (grow_All_fair P Hkeep Hfresh _ [] _ _ _ _ _ _ _ _ Hr Hs IHs).
    + exact (grow_All_fair P Hkeep Hfresh _ [] _ _ _ _ _ _ _ _ Hfair1 Hr1 IHr).
Qed.

Lemma run_grown r variety_ gravity lightDir n p :
  fair r -> run r variety_ gravity lightDir n = Some p -> grown p.
Proof.
  intros Hr H. unfold run in H.
  destruct (bind _ _ r) as [[p1 r1]|] eqn:Hb; [|discriminate].
  inversion H; subst p1; clear H.
  apply bind_Some in Hb. destruct Hb as (p0 & r0 & Hnew & Hup).
  assert (Hp0 : grown p0) by (eapply grown_new; eauto).
  assert (Hr0 : fair r0) by (eapply keeps_fair; [apply keeps_plant_new| |]; eauto).
  clear Hnew Hr. revert p0 r0 Hp0 Hr0 Hup.
  induction n as [|n IH]; intros p0 r0 Hp0 Hr0 Hup; simpl in Hup.
  - run_step Hup. exact Hp0.
  - run_step Hup. eapply IH; [| |exact Hup].
    + eapply grown_update; eauto.
    + eapply keeps_fair; [apply keeps_update| |]; eauto.
Qed.

End DrawFacts.

(** ** The turn of a new segment *)

Module TurnFacts.
Import Segment Tick TickFacts PlantFacts Shape Draws DrawFacts.

Lemma angleDiff_range (a b d : Q) :
  angleDiff a b = Some d -> - Math_PI <= d /\ d <= Math_PI.
Proof.
  destruct (angleDiff_spec a b) as (d' & k & Hrun & _ & Hlo & Hhi).
  rewrite Hrun. intro H. inversion H; subst. auto.
Qed.

(** [_createBranch] turns the branch by 0.4 to 0.75 to one side. *)
Lemma createBranch_turn parents gravity lightDir (s : t) r s' r' :
  fair r ->
  _createBranch parents gravity lightDir s r = Some (s', r') ->
  exists c, is_new false (variety s) true c /\
            s' = set_children (children s ++ [c]) s /\
            0.4 <= Qabs (angleOffset c) /\ Qabs (angleOffset c) < 0.75.
Proof.
  intros Hr H. unfold _createBranch in H. do 3 run_step H. run_step H.
  destruct (random_fair _ _ _ Hr Hrun) as (_ & _ & Hr0).
  destruct (random_fair _ _ _ Hr0 Hrun0) as (Hu0 & Hu1 & _).
  apply new_spec in Hrun1. destruct Hrun1 as [Hnew Hoff].
  exists a1. split; [exact Hnew|]. split; [reflexivity|].
  rewrite Hoff, Qred_correct.
  destruct (Qltb a 0.5); split; apply Qabs_case; intros; lra.
Qed.

(** [_addTipSegment] turns the continuation by less than 0.224: at most
    0.07 of half a turn for the stimuli, and the jitter. *)
Lemma addTipSegment_turn parents gravity lightDir (s : t) r s' r' :
  fair r ->
  _addTipSegment parents gravity lightDir s r = Some (s', r') ->
  exists c, is_new (isRoot s) (variety s) (isBranch s) c /\
            s' = set_children (children s ++ [c]) s /\
            Qabs (angleOffset c) < 0.224.
Proof.
  intros Hr H. unfold _addTipSegment in H. do 4 run_step H. run_step H.
  assert (H1 : r0 = r /\ exists d, - Math_PI <= d /\ d <= Math_PI /\
            a == d * (if isRoot s then 0.06 else 0.028) /\
            (Qgtb gravity 0 = false -> d == 0)).
  { destruct (Qgtb gravity 0).
    - run_step Hrun. run_step Hrun.
      apply lift_Some in Hrun3. destruct Hrun3 as [Hd ->].
      apply angleDiff_range in Hd. split; [reflexivity|].
      exists a3. split; [tauto|]. split; [tauto|].
      split; [ring|discriminate].
    - run_step Hrun. split; [reflexivity|]. exists 0.
      pose proof Math_PI_pos.
      split; [lra|]. split; [lra|]. split; [ring|reflexivity]. }
  destruct H1 as (-> & d1 & Hd1lo & Hd1hi & Ha & Hd1).
  assert (H2 : r1 = r /\ exists d, - Math_PI <= d /\ d <= Math_PI /\
            a0 == a + d * (if isRoot s
                           then (if Qis0 gravity then 0.020 else 0.010)
                           else (if Qis0 gravity then 0.042 else 0.025))).
  { destruct (negb _).
    - run_step Hrun0. run_step Hrun0.
      apply lift_Some in Hrun3. destruct Hrun3 as [Hd ->].
      apply angleDiff_range in Hd. split; [reflexivity|].
      exists a3. split; [tauto|]. split; [tauto|]. reflexivity.
    - run_step Hrun0. split; [reflexivity|]. exists 0.
      pose proof Math_PI_pos.
      split; [lra|]. split; [lra|]. ring. }
  destruct H2 as (-> & d2 & Hd2lo & Hd2hi & Ha0).
  destruct (random_fair _ _ _ Hr Hrun1) as (Hu0 & Hu1 & _).
  apply new_spec in Hrun2. destruct Hrun2 as [Hnew Hoff].
  exists a2. split; [exact Hnew|]. split; [reflexivity|].
  rewrite Hoff, Qred_correct, Ha0, Ha.
  assert (Hg : Qgtb gravity 0 = true -> Qis0 gravity = false).
  { unfold Qgtb, Qis0. intro Hg. apply Qltb_true in Hg.
    destruct (Qeq_bool gravity 0) eqn:He; [|reflexivity].
    apply Qeq_bool_iff in He. lra. }
  unfold Math_PI in *.
  destruct (Qgtb gravity 0).
  - rewrite (Hg eq_refl).
    destruct (isRoot s); apply Qabs_case; intros; lra.
  - specialize (Hd1 eq_refl).
    destruct (isRoot s), (Qis0 gravity); apply Qabs_case; intros; lra.
Qed.

Lemma grow_leaves_children (s : t) r s0 r0 :
  grow_leaves s r = Some (s0, r0) ->
  children s0 = children s /\ isBranch s0 = isBranch s.
Proof.
  intro H. apply grow_leaves_spec in H.
  destruct H as (extra & side_ & -> & _). auto.
Qed.

(** The children that the segment's own part of a tick adds have the turn
    of their kind. *)
Lemma grow_self_turn parents gravity lightDir tot max (s : t) r s1 r1 :
  fair r ->
  grow_self parents gravity lightDir tot max s r = Some (s1, r1) ->
  isBranch s1 = isBranch s /\
  exists extra, children s1 = children s ++ extra /\ Forall (turn_ok s) extra.
Proof.
  intros Hr H. unfold grow_self in H.
  destruct (growing s).
  2:{ run_step H. split; [reflexivity|]. exists []. rewrite app_nil_r. auto. }
  run_step H. run_step H.
  pose proof (keeps_fair _ _ _ _ (keeps_grow_leaves _) Hrun Hr) as Hr0.
  pose proof (keeps_fair _ _ _ _ (keeps_grow_branch _ _ _ _) Hrun0 Hr0) as Hr2.
  apply grow_leaves_children in Hrun. cbn [grow_length set_length children isBranch] in Hrun.
  destruct Hrun as [Hcs Hb].
  assert (Hbranch : isBranch a0 = isBranch s /\
            exists extra, children a0 = children s ++ extra /\
                          Forall (turn_ok s) extra).
  { unfold grow_branch in Hrun0.
    destruct (_ && _) eqn:Hc.
    - repeat (apply andb_prop in Hc; let H := fresh "Hc" in destruct Hc as [Hc H]).
      apply negb_true_iff in Hc3.
      run_step Hrun0.
      pose proof (keeps_fair _ _ _ _ keeps_random Hrun Hr0) as Hfr.
      destruct (Qltb a1 0.15).
      + run_step Hrun0. run_step Hrun0.
        destruct (createBranch_turn _ _ _ _ _ _ _ Hfr Hrun1)
          as (c & Hnew & -> & Hlo & Hhi).
        cbn [set_hasBranched set_children children isBranch].
        split; [exact Hb|]. exists [c]. rewrite Hcs. split; [reflexivity|].
        constructor; [|constructor].
        unfold turn_ok. destruct Hnew as (_ & _ & -> & _).
        rewrite <- Hb, Hc3. simpl. auto.
      + run_step Hrun0. split; [exact Hb|]. exists [].
        rewrite app_nil_r. auto.
    - run_step Hrun0. split; [exact Hb|]. exists [].
      rewrite app_nil_r. auto. }
  destruct Hbranch as (Hb0 & extra & Hcs0 & Hextra).
  unfold grow_tip in H.
  destruct (_ && _).
  - destruct (Qltb tot max).
    + destruct (addTipSegment_turn _ _ _ _ _ _ _ Hr2 H)
        as (c & Hnew & -> & Hturn).
      cbn [set_children set_growing children isBranch] in *.
      split; [exact Hb0|]. exists (extra ++ [c]).
      rewrite Hcs0, app_assoc. split; [reflexivity|].
      apply Forall_app. split; [exact Hextra|].
      constructor; [|constructor].
      unfold turn_ok. destruct Hnew as (_ & _ & -> & _).
      rewrite Hb0. destruct (isBranch s); simpl; exact Hturn.
    + run_step H. cbn [set_growing children isBranch].
      split; [exact Hb0|]. exists extra. auto.
  - run_step H. split; [exact Hb0|]. exists extra. auto.
Qed.

Lemma turn_ok_identity (s s' c c' : t) :
  isBranch s' = isBranch s -> same_identity c c' ->
  turn_ok s c -> turn_ok s' c'.
Proof.
  intros Hs (_ & _ & Ho & Hb & _). unfold turn_ok. rewrite Hs, Ho, Hb. auto.
Qed.

Lemma grown_child_turns (p : Plant.t) :
  grown p ->
  All child_turns 0%nat (Plant.shoot p) /\ All child_turns 0%nat (Plant.root p).
Proof.
  apply grown_All.
  - intros parents gravity lightDir tot max s r s1 r1 cs' Hr HP Hself Hid.
    destruct (grow_self_turn _ _ _ _ _ _ _ _ _ Hr Hself)
      as (Hb & extra & Hcs & Hextra).
    unfold child_turns in *. cbn [set_children children].
    assert (Hall : Forall (turn_ok s) (children s1)).
    { rewrite Hcs. apply Forall_app. auto. }
    clear Hcs. induction Hid as [|c c' l l' Hc _ IH]; constructor;
      inversion Hall; subst.
    + eapply turn_ok_identity; [|exact Hc|eassumption]. exact Hb.
    + auto.
  - intros depth c Hc.
    unfold child_turns. rewrite (fresh_no_children c Hc). constructor.
Qed.

(** X8.  In a plant grown from draws in [0, 1), a branch child of a stem
    segment is turned against it by at least 0.4 and at most 0.75, and
    every continuation segment is turned against its parent by less than
    0.224. *)
Theorem branches_turn_wide_tips_turn_narrow (p : Plant.t) (organ : t)
    (path : list nat) (x : t) (i : nat) (c : t) :
  grown p ->
  organ = Plant.shoot p \/ organ = Plant.root p ->
  at_path path organ = Some x ->
  nth_error (children x) i = Some c ->
  (isBranch c = true -> isBranch x = false ->
   0.4 <= Qabs (angleOffset c) /\ Qabs (angleOffset c) <= 0.75) /\
  (isBranch c = isBranch x -> Qabs (angleOffset c) < 0.224).
Proof.
  intros Hp Horgan Hat Hc.
  assert (Hall : All child_turns 0%nat organ).
  { destruct (grown_child_turns p Hp). destruct Horgan; subst; auto. }
  pose proof (All_at_path _ _ _ _ _ Hall Hat) as Hx.
  unfold child_turns in Hx. rewrite Forall_forall in Hx.
  specialize (Hx c (nth_error_In _ _ Hc)). unfold turn_ok in Hx.
  split.
  - intros Hbc Hbx. rewrite Hbc, Hbx in Hx. simpl in Hx.
    destruct Hx as [Hlo Hhi]. split; [exact Hlo|].
    apply Qlt_le_weak. exact Hhi.
  - intros Hb. rewrite Hb in Hx.
    destruct (isBranch x); simpl in Hx; exact Hx.
Qed.

(** The shoot that has branched, after 800 ticks of draws 0.1: the branch
    is the child of the first segment. *)
Lemma branches_turn_wide_tips_turn_narrow_witness :
  exists (p : Plant.t) (x c : t),
    run (constant_draws 0.1) cress 0 "none" 800 = Some p /\
    at_path [] (Plant.shoot p) = Some x /\
    nth_error (children x) 0 = Some c /\
    isBranch c = true /\ isBranch x = false /\
    0.4 <= Qabs (angleOffset c) /\ Qabs (angleOffset c) <= 0.75.
Proof.
  with_run branching_run_800_eq branching_run_800.
  do 2 eexists. split; [exact Hrun|]. split; [reflexivity|].
  split; [reflexivity|]. split; [reflexivity|]. split; [reflexivity|].
  eapply (branches_turn_wide_tips_turn_narrow _ _ [] _ 0%nat).
  - apply (run_grown (constant_draws 0.1) cress 0 "none" 800); [|exact Hrun].
    apply constant_draws_fair; reflexivity || discriminate.
  - left. reflexivity.
  - reflexivity.
  - reflexivity.
  - reflexivity.
  - reflexivity.
Defined.

End TurnFacts.

(** ** The leaves of a segment *)

Module LeafFacts.
Import Segment Tick TickFacts PlantFacts Shape Draws DrawFacts.









End LeafFacts.

(** ** Tropism: the turn of a new tip against one stimulus *)

Module TropismFacts.
Import Segment Tick TickFacts PlantFacts Shape Draws DrawFacts.

Lemma whole_turns_within_a_turn (m : Z) :
  - (2 * Math_PI) < inject_Z m * (2 * Math_PI) ->
  inject_Z m * (2 * Math_PI) < 2 * Math_PI ->
  m = 0%Z.
Proof.
  pose proof Math_PI_pos as Hpi. intros Hlo Hhi.
  destruct (Z.eq_dec m 0) as [|Hm]; [assumption|exfalso].
  destruct (Z_le_gt_dec m (-1)) as [Hneg | Hpos].
  - assert (inject_Z m <= -1).
    { change (-1) with (inject_Z (-1)). rewrite <- Zle_Qle. exact Hneg. }
    nra.
  - assert (1 <= inject_Z m).
    { change 1 with (inject_Z 1). rewrite <- Zle_Qle. lia. }
    nra.
Qed.

(** A turn by the share [k] of the rotation that is missing, up to a
    jitter [j], leaves less to turn: the rotation from the new direction to
    the target is the old one less the turn, no whole turn is added. *)
Lemma turn_contracts (target cur off d k j : Q) :
  angleDiff target cur = Some d ->
  0 <= k -> k <= 1 -> 0 <= j ->
  (1 - k) * Math_PI + j < Math_PI ->
  Qabs (off - d * k) <= j ->
  exists d', angleDiff target (cur + off) = Some d' /\
             d' == d - off /\
             Qabs d' <= (1 - k) * Qabs d + j.
Proof.
  intros Hd Hk0 Hk1 Hj Hsmall Hoff.
  pose proof Math_PI_pos as Hpi.
  destruct (angleDiff_spec target cur) as (d0 & k0 & Hrun0 & Heq0 & Hlo0 & Hhi0).
  rewrite Hd in Hrun0. inversion Hrun0; subst d0; clear Hrun0.
  destruct (angleDiff_spec target (cur + off))
    as (d' & k' & Hrun' & Heq' & Hlo' & Hhi').
  apply Qabs_Qle_condition in Hoff. destruct Hoff as [Hoff0 Hoff1].
  assert (Ha : 0 <= Qabs d) by apply Qabs_nonneg.
  assert (Hda : - Qabs d <= d /\ d <= Qabs d).
  { apply Qabs_Qle_condition. apply Qle_refl. }
  assert (Hapi : Qabs d <= Math_PI).
  { apply Qabs_Qle_condition. split; assumption. }
  destruct Hda as [Hda0 Hda1].
  assert (Hrest : - ((1 - k) * Qabs d + j) <= d - off /\
                  d - off <= (1 - k) * Qabs d + j).
  { split; nra. }
  assert (Hlt : (1 - k) * Qabs d + j < Math_PI) by nra.
  assert (Hm : (k' - k0 = 0)%Z).
  { apply whole_turns_within_a_turn;
      unfold Zminus; rewrite inject_Z_plus, inject_Z_opp; lra. }
  assert (Hk' : inject_Z k' == inject_Z k0).
  { apply inject_Z_injective. lia. }
  assert (Hd' : d' == d - off).
  { rewrite Heq', Heq0, Hk'. ring. }
  exists d'. split; [exact Hrun'|]. split; [exact Hd'|].
  rewrite Hd'. apply Qabs_Qle_condition. exact Hrest.
Qed.

Lemma jitter_bound (u n j : Q) :
  0 <= u -> u < 1 -> 0 <= n -> n <= 2 * j -> Qabs ((u - 0.5) * n) <= j.
Proof.
  intros Hu0 Hu1 Hn Hj. apply Qabs_Qle_condition.
  split; nra.
Qed.

(** X10.  Under gravity and without light, with draws in [0, 1),
    [_addTipSegment] on a segment whose direction is within 100 radians
    appends a segment whose direction is nearer the direction of
    gravitropic growth (down for a root, up for a shoot): the rotation
    that is left to it, as [angleDiff] measures it, is at most 0.94 of the
    parent's plus 0.005 for a root, 0.972 of the parent's plus 0.01 for a
    shoot.  The jitter is up to 0.004 and 0.009; the rest, and the bound
    on the direction, leave room for the rounding of the machine. *)
Theorem new_tip_leans_toward_gravity (parents : list Link) (gravity : Q)
    (s : t) (r : Rand) (s' : t) (r' : Rand) :
  fair r ->
  0 < gravity ->
  Qabs (angle parents s) <= 100 ->
  _addTipSegment parents gravity "none" s r = Some (s', r') ->
  exists (c : t) (d d' : Q),
    s' = set_children (children s ++ [c]) s /\
    angleDiff (if isRoot s then Math_PI / 2 else - Math_PI / 2)
              (angle parents s) = Some d /\
    angleDiff (if isRoot s then Math_PI / 2 else - Math_PI / 2)
              (angle (link s :: parents) c) = Some d' /\
    Qabs d' <= (1 - (if isRoot s then 0.06 else 0.028)) * Qabs d
               + (if isRoot s then 0.005 else 0.01).
Proof.
  intros Hr Hg _ H. unfold _addTipSegment in H.
  assert (Hgt : Qgtb gravity 0 = true) by (apply Qltb_true; exact Hg).
  assert (Hz : Qis0 gravity = false).
  { unfold Qis0. destruct (Qeq_bool gravity 0) eqn:He; [|reflexivity].
    apply Qeq_bool_iff in He. lra. }
  rewrite Hgt, Hz in H. cbn [String.eqb Ascii.eqb Bool.eqb negb] in H.
  do 4 run_step H. run_step H. run_step Hrun. run_step Hrun. run_step Hrun0.
  apply lift_Some in Hrun3. destruct Hrun3 as [Hd ->].
  destruct (random_fair _ _ _ Hr Hrun1) as (Hu0 & Hu1 & _).
  apply new_spec in Hrun2. destruct Hrun2 as [Hnew Hoff].
  destruct Hnew as (Hcr & _).
  pose proof Math_PI_pos as Hpi.
  destruct (turn_contracts _ _ (angleOffset a2) _
              (if isRoot s then 0.06 else 0.028)
              (if isRoot s then 0.004 else 0.009) Hd)
    as (d' & Hd' & _ & Hbound).
  - destruct (isRoot s); discriminate.
  - destruct (isRoot s); discriminate.
  - destruct (isRoot s); discriminate.
  - unfold Math_PI. destruct (isRoot s); reflexivity.
  - rewrite Hoff, Qred_correct.
    destruct (isRoot s).
    + setoid_replace (0 + a3 * 0.06 + (a1 - 0.5) * 0.008 - a3 * 0.06)
        with ((a1 - 0.5) * 0.008) by ring.
      apply (jitter_bound a1 0.008); [assumption|assumption|discriminate|discriminate].
    + setoid_replace (0 + a3 * 0.028 + (a1 - 0.5) * 0.018 - a3 * 0.028)
        with ((a1 - 0.5) * 0.018) by ring.
      apply (jitter_bound a1 0.018); [assumption|assumption|discriminate|discriminate].
  - exists a2, a3, d'. split; [reflexivity|]. split; [exact Hd|].
    split.
    + unfold angle, link. cbn [angle_from]. unfold angle in Hd'. exact Hd'.
    + eapply Qle_trans; [exact Hbound|].
      destruct (isRoot s); lra.
Qed.

(** A root segment that is 0.5 off the vertical: its continuation is 0.47
    off. *)
Lemma new_tip_leans_toward_gravity_witness :
  exists (s s' : t) (r' : Rand) (c : t) (d d' : Q),
    isRoot s = true /\ angleOffset s = 0.5 /\
    fair (constant_draws 0.5) /\ 0 < 1 /\
    Qabs (angle [(true, 0)] s) <= 100 /\
    _addTipSegment [(true, 0)] 1 "none" s (constant_draws 0.5) = Some (s', r') /\
    s' = set_children (children s ++ [c]) s /\
    angleDiff (Math_PI / 2) (angle [(true, 0)] s) = Some d /\
    angleDiff (Math_PI / 2) (angle (link s :: [(true, 0)]) c) = Some d' /\
    Qabs d' <= (1 - 0.06) * Qabs d + 0.005.
Proof.
  set (s := mk true cress 0.5 false 10 10 false [] [] 1 false 1.6).
  assert (Hfair : fair (constant_draws 0.5)).
  { apply constant_draws_fair; reflexivity || discriminate. }
  assert (Hnear : Qabs (angle [(true, 0)] s) <= 100)
    by (vm_compute; discriminate).
  destruct (_addTipSegment_total [(true, 0)] 1 "none" s (constant_draws 0.5))
    as (s' & r' & Hrun).
  destruct (new_tip_leans_toward_gravity [(true, 0)] 1 s (constant_draws 0.5)
              s' r' Hfair eq_refl Hnear Hrun)
    as (c & d & d' & Hs' & Hd & Hd' & Hbound).
  exists s, s', r', c, d, d'.
  split; [reflexivity|]. split; [reflexivity|]. split; [exact Hfair|].
  split; [reflexivity|]. split; [exact Hnear|].
  split; [exact Hrun|]. split; [exact Hs'|].
  split; [exact Hd|]. split; [exact Hd'|]. exact Hbound.
Defined.

(** X11.  Without gravity and under light from one of the four sides,
    with draws in [0, 1), [_addTipSegment] on a segment whose direction is
    within 100 radians appends a segment whose direction is nearer the
    direction of phototropic growth (toward the light for a shoot, away
    from it for a root): the rotation that is left to it is at most 0.98
    of the parent's plus 0.012 for a root, 0.958 of the parent's plus
    0.02 for a shoot.  The jitter is up to 0.011 and 0.019; the rest, and
    the bound on the direction, leave room for the rounding of the
    machine. *)
Theorem new_tip_leans_toward_light (parents : list Link) (gravity : Q)
    (lightDir : string) (s : t) (r : Rand) (s' : t) (r' : Rand) :
  fair r ->
  gravity == 0 ->
  In lightDir ["top"; "bottom"; "left"; "right"]%string ->
  Qabs (angle parents s) <= 100 ->
  _addTipSegment parents gravity lightDir s r = Some (s', r') ->
  exists (c : t) (d d' : Q),
    s' = set_children (children s ++ [c]) s /\
    angleDiff (if isRoot s then dirToRad lightDir + Math_PI
               else dirToRad lightDir)
              (angle parents s) = Some d /\
    angleDiff (if isRoot s then dirToRad lightDir + Math_PI
               else dirToRad lightDir)
              (angle (link s :: parents) c) = Some d' /\
    Qabs d' <= (1 - (if isRoot s then 0.020 else 0.042)) * Qabs d
               + (if isRoot s then 0.012 else 0.02).
Proof.
  intros Hr Hg Hl _ H. unfold _addTipSegment in H.
  assert (Hgt : Qgtb gravity 0 = false) by (apply Qltb_false; lra).
  assert (Hz : Qis0 gravity = true).
  { unfold Qis0. apply Qeq_bool_iff. exact Hg. }
  assert (Hnone : String.eqb lightDir "none" = false).
  { apply String.eqb_neq. intros ->.
    repeat (destruct Hl as [Hl | Hl]; [discriminate|]). exact Hl. }
  rewrite Hgt, Hz, Hnone in H. cbn [negb] in H.
  do 4 run_step H. run_step H. run_step Hrun. run_step Hrun0. run_step Hrun0.
  apply lift_Some in Hrun. destruct Hrun as [Hd ->].
  destruct (random_fair _ _ _ Hr Hrun1) as (Hu0 & Hu1 & _).
  apply new_spec in Hrun2. destruct Hrun2 as [Hnew Hoff].
  pose proof Math_PI_pos as Hpi.
  destruct (turn_contracts _ _ (angleOffset a2) _
              (if isRoot s then 0.020 else 0.042)
              (if isRoot s then 0.011 else 0.019) Hd)
    as (d' & Hd' & _ & Hbound).
  - destruct (isRoot s); discriminate.
  - destruct (isRoot s); discriminate.
  - destruct (isRoot s); discriminate.
  - unfold Math_PI. destruct (isRoot s); reflexivity.
  - rewrite Hoff, Qred_correct.
    destruct (isRoot s).
    + setoid_replace (0 + a * 0.020 + (a1 - 0.5) * 0.022 - a * 0.020)
        with ((a1 - 0.5) * 0.022) by ring.
      apply (jitter_bound a1 0.022); [assumption|assumption|discriminate|discriminate].
    + setoid_replace (0 + a * 0.042 + (a1 - 0.5) * 0.038 - a * 0.042)
        with ((a1 - 0.5) * 0.038) by ring.
      apply (jitter_bound a1 0.038); [assumption|assumption|discriminate|discriminate].
  - exists a2, a, d'. split; [reflexivity|]. split; [exact Hd|].
    split.
    + unfold angle, link. cbn [angle_from]. unfold angle in Hd'. exact Hd'.
    + eapply Qle_trans; [exact Hbound|].
      destruct (isRoot s); lra.
Qed.

(** A shoot segment that points up, under light from the right: the
    continuation turns to the right. *)
Lemma new_tip_leans_toward_light_witness :
  exists (s s' : t) (r' : Rand) (c : t) (d d' : Q),
    isRoot s = false /\
    fair (constant_draws 0.5) /\ 0 == 0 /\
    In "right"%string ["top"; "bottom"; "left"; "right"]%string /\
    Qabs (angle [] s) <= 100 /\
    _addTipSegment [] 0 "right" s (constant_draws 0.5) = Some (s', r') /\
    s' = set_children (children s ++ [c]) s /\
    angleDiff (dirToRad "right") (angle [] s) = Some d /\
    angleDiff (dirToRad "right") (angle (link s :: []) c) = Some d' /\
    Qabs d' <= (1 - 0.042) * Qabs d + 0.02.
Proof.
  set (s := mk false cress 0 false 12 12 false [] [] 1 false 2.2).
  assert (Hfair : fair (constant_draws 0.5)).
  { apply constant_draws_fair; reflexivity || discriminate. }
  assert (Hl : In "right"%string ["top"; "bottom"; "left"; "right"]%string)
    by (simpl; tauto).
  assert (Hnear : Qabs (angle [] s) <= 100) by (vm_compute; discriminate).
  destruct (_addTipSegment_total [] 0 "right" s (constant_draws 0.5))
    as (s' & r' & Hrun).
  destruct (new_tip_leans_toward_light [] 0 "right" s (constant_draws 0.5)
              s' r' Hfair (Qeq_refl 0) Hl Hnear Hrun)
    as (c & d & d' & Hs' & Hd & Hd' & Hbound).
  exists s, s', r', c, d, d'.
  split; [reflexivity|]. split; [exact Hfair|]. split; [reflexivity|].
  split; [exact Hl|]. split; [exact Hnear|].
  split; [exact Hrun|]. split; [exact Hs'|].
  split; [exact Hd|]. split; [exact Hd'|]. exact Hbound.
Defined.

End TropismFacts.

(** ** Sessions *)

Module SessionFacts.
Import Session.

Lemma recordPoint_fields (a : App.t) :
  App.isRunning (recordPoint a) = App.isRunning a /\
  App.isComplete (recordPoint a) = App.isComplete a /\
  App.plant (recordPoint a) = App.plant a /\
  App.comparePlant (recordPoint a) = App.comparePlant a /\
  App.startTime (recordPoint a) = App.startTime a /\
  App.elapsedMs (recordPoint a) = App.elapsedMs a /\
  App.compareData (recordPoint a) = App.compareData a /\
  exists extra, App.dataPoints (recordPoint a) = App.dataPoints a ++ extra /\
                List.length extra = match App.plant a with Some _ => 1%nat | None => 0%nat end.
Proof.
  unfold recordPoint. destruct (App.plant a) eqn:Hp; simpl.
  - rewrite Hp. repeat split; auto. eauto.
  - rewrite Hp. repeat split; auto. exists []. rewrite app_nil_r. auto.
Qed.

Lemma recordPoint_lightDir (a : App.t) :
  App.lightDir (recordPoint a) = App.lightDir a.
Proof. unfold recordPoint. destruct (App.plant a); reflexivity. Qed.

Lemma recordComparePoint_all (a : App.t) :
  App.isRunning (recordComparePoint a) = App.isRunning a /\
  App.isComplete (recordComparePoint a) = App.isComplete a /\
  App.plant (recordComparePoint a) = App.plant a /\
  App.comparePlant (recordComparePoint a) = App.comparePlant a /\
  App.startTime (recordComparePoint a) = App.startTime a /\
  App.elapsedMs (recordComparePoint a) = App.elapsedMs a /\
  App.dataPoints (recordComparePoint a) = App.dataPoints a /\
  exists extra,
    App.compareData (recordComparePoint a) = App.compareData a ++ extra /\
    (List.length extra <= 1)%nat.
Proof.
  unfold recordComparePoint. destruct (App.comparePlant a) eqn:Hp; simpl.
  - rewrite Hp. repeat split; auto. eexists. split; [reflexivity|]. simpl. lia.
  - rewrite Hp. repeat split; auto. exists []. rewrite app_nil_r. simpl. auto.
Qed.

(** One frame of a running experiment, field by field. *)
Lemma animate_frame (now : Z) (a : App.t) (r : Rand) (a' : App.t) (r' : Rand) :
  animate now a r = Some (a', r') ->
  App.isRunning a = true ->
  App.startTime a' = App.startTime a /\
  App.elapsedMs a' = (now - App.startTime a)%Z /\
  (match App.plant a with
   | Some p =>
       exists p' ra rb,
         Plant.update (App.gravity a) (App.lightDir a) p ra = Some (p', rb) /\
         App.plant a' = Some p' /\
         ((App.isRunning a' = true /\ App.isComplete a' = App.isComplete a) \/
          (App.isComplete a = false /\ Plant.isFullyGrown p' = true /\
           App.isRunning a' = false /\ App.isComplete a' = true))
   | None =>
       App.plant a' = None /\ App.isRunning a' = true /\
       App.isComplete a' = App.isComplete a
   end) /\
  (match App.comparePlant a with
   | Some p =>
       exists p' ra rb,
         Plant.update 1 (App.lightDir a) p ra = Some (p', rb) /\
         App.comparePlant a' = Some p'
   | None => App.comparePlant a' = None
   end) /\
  (exists extra, App.dataPoints a' = App.dataPoints a ++ extra /\
                 (List.length extra <= 1)%nat) /\
  (exists extra, App.compareData a' = App.compareData a ++ extra /\
                 (List.length extra <= 1)%nat).
Proof.
  intros H Hrun. unfold animate in H. rewrite Hrun in H. cbn [negb] in H.
  run_step H. rename a0 into b, r0 into rb.
  set (a1 := App.set_elapsedMs (now - App.startTime a) a) in *.
  assert (Hb :
    App.startTime b = App.startTime a /\
    App.elapsedMs b = (now - App.startTime a)%Z /\
    App.comparePlant b = App.comparePlant a /\
    App.compareData b = App.compareData a /\
    App.lightDir b = App.lightDir a /\
    (match App.plant a with
     | Some p =>
         exists p' ra rb,
           Plant.update (App.gravity a) (App.lightDir a) p ra = Some (p', rb) /\
           App.plant b = Some p' /\
           ((App.isRunning b = true /\ App.isComplete b = App.isComplete a) \/
            (App.isComplete a = false /\ Plant.isFullyGrown p' = true /\
             App.isRunning b = false /\ App.isComplete b = true))
     | None =>
         App.plant b = None /\ App.isRunning b = true /\
         App.isComplete b = App.isComplete a
     end) /\
    (exists extra, App.dataPoints b = App.dataPoints a ++ extra /\
                   (List.length extra <= 1)%nat)).
  { change (App.plant a1) with (App.plant a) in Hrun0.
    destruct (App.plant a) as [p|] eqn:Hp.
    2:{ run_step Hrun0. subst a1. simpl. rewrite Hp.
        repeat split; auto. exists []. rewrite app_nil_r. auto. }
    run_step Hrun0. run_step Hrun0. rename a0 into p'.
    set (a2 := App.set_plant (Some p') a1) in *.
    change (App.gravity a1) with (App.gravity a) in Hrun1.
    change (App.lightDir a1) with (App.lightDir a) in Hrun1.
    unfold animate_maturity.
    change (App.plant a2) with (Some p').
    change (App.isComplete a2) with (App.isComplete a).
    cbv beta iota.
    destruct (negb (App.isComplete a) && Plant.isFullyGrown p') eqn:Hc.
    - apply andb_prop in Hc. destruct Hc as [Hc Hfull].
      apply negb_true_iff in Hc.
      match goal with |- context [recordPoint ?x] => set (a3 := x) end.
      destruct (recordPoint_fields a3)
        as (Hr3 & Hc3 & Hp3 & Hcp3 & Hs3 & He3 & Hcd3 & extra & Hd3 & Hn3).
      change (App.isRunning a3) with false in Hr3.
      rewrite Hr3, andb_false_r.
      rewrite Hs3, He3, Hcp3, Hcd3, Hp3, Hr3, Hc3, Hd3.
      change (App.plant a3) with (Some p') in *.
      split; [reflexivity|]. split; [reflexivity|]. split; [reflexivity|].
      split; [reflexivity|]. split; [rewrite recordPoint_lightDir; reflexivity|].
      split.
      + exists p'. do 2 eexists. split; [exact Hrun1|]. split; [reflexivity|].
        right. auto.
      + exists extra. split; [reflexivity|]. rewrite Hn3. auto.
    - destruct (sampleDue a2 _ && App.isRunning a2).
      + destruct (recordPoint_fields a2)
          as (Hr3 & Hc3 & Hp3 & Hcp3 & Hs3 & He3 & Hcd3 & extra & Hd3 & Hn3).
        rewrite Hs3, He3, Hcp3, Hcd3, Hp3, Hr3, Hc3, Hd3.
        change (App.plant a2) with (Some p') in *.
        split; [reflexivity|]. split; [reflexivity|]. split; [reflexivity|].
        split; [reflexivity|].
        split; [rewrite recordPoint_lightDir; reflexivity|].
        split.
        * exists p'. do 2 eexists. split; [exact Hrun1|]. split; [reflexivity|].
          left. auto.
        * exists extra. split; [reflexivity|]. rewrite Hn3. auto.
      + split; [reflexivity|]. split; [reflexivity|]. split; [reflexivity|].
        split; [reflexivity|]. split; [reflexivity|].
        split.
        * exists p'. do 2 eexists. split; [exact Hrun1|]. split; [reflexivity|].
          left. auto.
        * exists []. rewrite app_nil_r. auto. }
  destruct Hb as (Hs & He & Hcp & Hcd & Hl & Hplant & Hdata).
  rewrite Hcp in *.
  destruct (App.comparePlant a) as [cp|] eqn:Hcpa.
  - run_step H. run_step H. rename a0 into cp'.
    set (b2 := App.set_comparePlant (Some cp') b) in *.
    match goal with Hu : Plant.update 1 _ _ _ = Some _ |- _ =>
      rewrite Hl in Hu end.
    assert (Hb2 : forall x : App.t,
              App.isRunning x = App.isRunning b2 ->
              App.isComplete x = App.isComplete b2 ->
              App.plant x = App.plant b2 ->
              App.comparePlant x = Some cp' ->
              App.startTime x = App.startTime b2 ->
              App.elapsedMs x = App.elapsedMs b2 ->
              App.dataPoints x = App.dataPoints b2 ->
              (exists extra, App.compareData x = App.compareData b2 ++ extra /\
                             (List.length extra <= 1)%nat) ->
              App.startTime x = App.startTime a /\
              App.elapsedMs x = (now - App.startTime a)%Z /\
              match App.plant a with
              | Some p =>
                  exists p' ra rb,
                    Plant.update (App.gravity a) (App.lightDir a) p ra
                    = Some (p', rb) /\
                    App.plant x = Some p' /\
                    ((App.isRunning x = true /\
                      App.isComplete x = App.isComplete a) \/
                     (App.isComplete a = false /\
                      Plant.isFullyGrown p' = true /\
                      App.isRunning x = false /\ App.isComplete x = true))
              | None =>
                  App.plant x = None /\ App.isRunning x = true /\
                  App.isComplete x = App.isComplete a
              end /\
              (exists p' ra rb,
                  Plant.update 1 (App.lightDir a) cp ra = Some (p', rb) /\
                  App.comparePlant x = Some p') /\
              (exists extra, App.dataPoints x = App.dataPoints a ++ extra /\
                             (List.length extra <= 1)%nat) /\
              (exists extra, App.compareData x = App.compareData a ++ extra /\
                             (List.length extra <= 1)%nat)).
    { intros x Hxr Hxc Hxp Hxcp Hxs Hxe Hxd Hxcd.
      change (App.isRunning b2) with (App.isRunning b) in Hxr.
      change (App.isComplete b2) with (App.isComplete b) in Hxc.
      change (App.plant b2) with (App.plant b) in Hxp.
      change (App.startTime b2) with (App.startTime b) in Hxs.
      change (App.elapsedMs b2) with (App.elapsedMs b) in Hxe.
      change (App.dataPoints b2) with (App.dataPoints b) in Hxd.
      change (App.compareData b2) with (App.compareData b) in Hxcd.
      rewrite Hxs, Hxe, Hxr, Hxc, Hxp, Hxd.
      rewrite Hcd in Hxcd.
      split; [exact Hs|]. split; [exact He|]. split; [exact Hplant|].
      split; [eauto|]. split; [exact Hdata|exact Hxcd]. }
    destruct (sampleDue b2 _ && App.isRunning b2).
    + destruct (recordComparePoint_all b2)
        as (H1 & H2 & H3 & H4 & H5 & H6 & H7 & H8).
      apply Hb2; auto.
    + apply Hb2; auto. exists []. rewrite app_nil_r. auto.
  - run_step H.
    split; [exact Hs|]. split; [exact He|]. split; [exact Hplant|].
    split; [exact Hcp|]. split; [exact Hdata|].
    exists []. rewrite app_nil_r. auto.
Qed.

(** [startExperiment] on an experiment that is not running: the state that
    it hands to [animate]. *)
Lemma startExperiment_inv (now now' : Z) (a : App.t) (r : Rand)
    (a' : App.t) (r' : Rand) :
  startExperiment now now' a r = Some (a', r') ->
  App.isRunning a = false ->
  exists (p0 : Plant.t) (r1 : Rand) (a0 : App.t) (r0 : Rand),
    Plant.new (App.variety a) (App.gravity a) (App.lightDir a) r
    = Some (p0, r1) /\
    App.isRunning a0 = true /\ App.isComplete a0 = false /\
    App.plant a0 = Some p0 /\
    App.startTime a0 = (now - App.elapsedMs a)%Z /\
    App.dataPoints a0 = App.dataPoints a /\
    ((App.comparePlant a0 = None /\ App.compareData a0 = []) \/
     (exists cp r2,
        Plant.new (App.variety a) 1 (App.lightDir a) r1 = Some (cp, r2) /\
        App.comparePlant a0 = Some cp /\
        App.compareData a0 = App.compareData a)) /\
    animate now' a0 r0 = Some (a', r').
Proof.
  intros H Hrun. unfold startExperiment in H. rewrite Hrun in H.
  run_step H. run_step H.
  match type of Hrun1 with (if ?c then _ else _) _ = _ => destruct c end.
  - run_step Hrun1. run_step Hrun1.
    do 4 eexists. split; [exact Hrun0|].
    split; [|split; [|split; [|split; [|split; [|split; [|exact H]]]]]];
      try reflexivity.
    right. do 2 eexists. split; [exact Hrun2|]. split; reflexivity.
  - run_step Hrun1.
    do 4 eexists. split; [exact Hrun0|].
    split; [|split; [|split; [|split; [|split; [|split; [|exact H]]]]]];
      try reflexivity.
    left. split; reflexivity.
Qed.

Lemma animate_consistent (now : Z) (a : App.t) (r : Rand) (a' : App.t)
    (r' : Rand) :
  consistent a -> animate now a r = Some (a', r') -> consistent a'.
Proof.
  intros Hc H.
  destruct (App.isRunning a) eqn:Hrun.
  2:{ rewrite DriverFacts.animate_not_running in H by exact Hrun.
      inversion H; subst. exact Hc. }
  destruct Hc as (Hc1 & Hc2 & Hc3 & Hc4).
  destruct (Hc1 Hrun) as [Hcomplete Hplant].
  destruct (animate_frame _ _ _ _ _ H Hrun) as (_ & _ & Hp & Hcp & _).
  destruct (App.plant a) as [p|] eqn:Hpa; [|congruence].
  destruct Hp as (p' & ra & rb & Hup & Hp' & Hflags).
  assert (Hreach : reachable p').
  { eapply reachable_update; [|exact Hup]. apply Hc4. auto. }
  unfold consistent. rewrite Hp'.
  split; [|split; [|split]].
  - intros Hr'. split; [|discriminate].
    destruct Hflags as [[_ ->] | (_ & _ & Hr0 & _)]; congruence.
  - discriminate.
  - intros Hc'. exists p'. split; [reflexivity|].
    destruct Hflags as [[_ Hsame] | (_ & Hfull & _)]; [congruence|exact Hfull].
  - intros q [Hq | Hq].
    + inversion Hq; subst. exact Hreach.
    + destruct (App.comparePlant a) as [cp|] eqn:Hcpa; [|congruence].
      destruct Hcp as (cp' & rc & rd & Hcup & Hcp').
      rewrite Hcp' in Hq. inversion Hq; subst.
      eapply reachable_update; [|exact Hcup]. apply Hc4. auto.
Qed.

Lemma step_consistent (a a' : App.t) :
  consistent a -> step a a' -> consistent a'.
Proof.
  intros Hc Hstep.
  destruct Hstep as [now now' a r a' r' H | a | a | now a r a' r' H | a
                    | a a' Hs].
  - destruct (App.isRunning a) eqn:Hrun.
    + unfold startExperiment in H. rewrite Hrun in H. run_step H. exact Hc.
    + destruct (startExperiment_inv _ _ _ _ _ _ H Hrun)
        as (p0 & r1 & a0 & r0 & Hnew & Hr0 & Hc0 & Hp0 & _ & _ & Hcp0 & Hani).
      eapply animate_consistent; [|exact Hani].
      unfold consistent. rewrite Hr0, Hc0, Hp0.
      split; [|split; [|split]].
      * intros _. split; [reflexivity|discriminate].
      * discriminate.
      * discriminate.
      * intros q [Hq | Hq].
        -- inversion Hq; subst. eapply reachable_new; eauto.
        -- destruct Hcp0 as [[Hnone _] | (cp & r2 & Hcnew & Hsome & _)];
             [congruence|].
           rewrite Hsome in Hq. inversion Hq; subst.
           eapply reachable_new; eauto.
  - destruct Hc as (Hc1 & Hc2 & Hc3 & Hc4).
    unfold stopExperiment.
    match goal with |- consistent (recordPoint ?x) =>
      destruct (recordPoint_fields x) as (Hr & Hcm & Hp & Hcp & _) end.
    unfold consistent. rewrite Hr, Hcm, Hp, Hcp. simpl.
    split; [discriminate|]. split; [exact Hc2|]. split; [exact Hc3|exact Hc4].
  - unfold consistent, resetExperiment. simpl.
    split; [discriminate|]. split; [congruence|]. split; [discriminate|].
    intros q [Hq | Hq]; discriminate.
  - eapply animate_consistent; eauto.
  - exact Hc.
  - destruct Hs as (Hr & Hcm & _ & _ & Hp & Hcp & _).
    unfold consistent. rewrite Hr, Hcm, Hp, Hcp. exact Hc.
Qed.

(** X12.  In every state of a session, a running experiment holds a plant
    and is not complete; a comparison plant is only held along with the
    plant; a complete experiment holds a plant that is fully grown; and
    the plants held are made by [new Plant] and [update] alone. *)
Theorem session_flags_agree_with_plants (a : App.t) :
  state a ->
  (App.isRunning a = true ->
   App.isComplete a = false /\ App.plant a <> None) /\
  (App.comparePlant a <> None -> App.plant a <> None) /\
  (App.isComplete a = true ->
   exists p, App.plant a = Some p /\ Plant.isFullyGrown p = true) /\
  (forall p, App.plant a = Some p \/ App.comparePlant a = Some p ->
             reachable p).
Proof.
  intro Hs. change (consistent a).
  induction Hs as [|a a' _ IH Hstep].
  - unfold consistent. simpl.
    split; [discriminate|]. split; [congruence|]. split; [discriminate|].
    intros q [Hq | Hq]; discriminate.
  - eapply step_consistent; eauto.
Qed.

(** The experiment is started, paused and started again. *)
Lemma session_flags_agree_with_plants_witness :
  exists (a1 : App.t) (r1 : Rand) (a3 : App.t) (r3 : Rand),
    startExperiment 1000 1016 App.init (constant_draws 0.5) = Some (a1, r1) /\
    startExperiment 5000 5016 (stopExperiment a1) r1 = Some (a3, r3) /\
    state a3 /\
    (App.isRunning a3 = true ->
     App.isComplete a3 = false /\ App.plant a3 <> None) /\
    (App.comparePlant a3 <> None -> App.plant a3 <> None) /\
    (App.isComplete a3 = true ->
     exists p, App.plant a3 = Some p /\ Plant.isFullyGrown p = true) /\
    (forall p, App.plant a3 = Some p \/ App.comparePlant a3 = Some p ->
               reachable p).
Proof.
  destruct (DriverFacts.startExperiment_total 1000 1016 App.init
              (constant_draws 0.5)) as (a1 & r1 & H1).
  destruct (DriverFacts.startExperiment_total 5000 5016 (stopExperiment a1) r1)
    as (a3 & r3 & H3).
  assert (Hs : state a3).
  { eapply state_step; [|eapply step_start; exact H3].
    eapply state_step; [|apply step_stop].
    eapply state_step; [apply state_init|eapply step_start; exact H1]. }
  exists a1, r1, a3, r3.
  split; [exact H1|]. split; [exact H3|]. split; [exact Hs|].
  exact (session_flags_agree_with_plants a3 Hs).
Defined.

(** X13.  Whatever happens in a session other than [clearData], the
    treatment series keeps its samples in order and gains at most one. *)
Theorem samples_are_kept_and_come_one_at_a_time (a a' : App.t) :
  step a a' ->
  a' = clearData a \/
  exists extra, App.dataPoints a' = App.dataPoints a ++ extra /\
                (List.length extra <= 1)%nat.
Proof.
  assert (Hnone : forall x y : App.t,
            App.dataPoints y = App.dataPoints x ->
            exists extra, App.dataPoints y = App.dataPoints x ++ extra /\
                          (List.length extra <= 1)%nat).
  { intros x y ->. exists []. rewrite app_nil_r. auto. }
  assert (Hframe : forall now x r y r',
            animate now x r = Some (y, r') ->
            exists extra, App.dataPoints y = App.dataPoints x ++ extra /\
                          (List.length extra <= 1)%nat).
  { intros now x r y r' H.
    destruct (App.isRunning x) eqn:Hrun.
    - destruct (animate_frame _ _ _ _ _ H Hrun) as (_ & _ & _ & _ & Hd & _).
      exact Hd.
    - rewrite DriverFacts.animate_not_running in H by exact Hrun.
      inversion H; subst. apply Hnone. reflexivity. }
  intros [now now' x r y r' H | x | x | now x r y r' H | x | x y Hs].
  - right. destruct (App.isRunning x) eqn:Hrun.
    + unfold startExperiment in H. rewrite Hrun in H. run_step H.
      apply Hnone. reflexivity.
    + destruct (startExperiment_inv _ _ _ _ _ _ H Hrun)
        as (p0 & r1 & a0 & r0 & _ & _ & _ & _ & _ & Hd0 & _ & Hani).
      rewrite <- Hd0. eapply Hframe; eauto.
  - right. unfold stopExperiment.
    match goal with |- context [recordPoint ?z] =>
      destruct (recordPoint_fields z)
        as (_ & _ & _ & _ & _ & _ & _ & extra & Hd & Hn) end.
    exists extra. split; [exact Hd|].
    rewrite Hn. destruct (App.plant _); auto.
  - right. apply Hnone. reflexivity.
  - right. eapply Hframe; eauto.
  - left. reflexivity.
  - right. apply Hnone. destruct Hs as (_ & _ & _ & _ & _ & _ & Hd & _).
    exact Hd.
Qed.

(** Pausing the experiment that has just been started records a sample. *)
Lemma samples_are_kept_and_come_one_at_a_time_witness :
  exists (a1 : App.t) (r1 : Rand),
    startExperiment 1000 1016 App.init (constant_draws 0.5) = Some (a1, r1) /\
    step a1 (stopExperiment a1) /\
    (stopExperiment a1 = clearData a1 \/
     exists extra,
       App.dataPoints (stopExperiment a1) = App.dataPoints a1 ++ extra /\
       (List.length extra <= 1)%nat).
Proof.
  destruct (DriverFacts.startExperiment_total 1000 1016 App.init
              (constant_draws 0.5)) as (a1 & r1 & H1).
  exists a1, r1. split; [exact H1|].
  split; [apply step_stop|].
  exact (samples_are_kept_and_come_one_at_a_time a1 (stopExperiment a1)
           (step_stop a1)).
Defined.

Lemma plant_new_age variety_ gravity lightDir r p r' :
  Plant.new variety_ gravity lightDir r = Some (p, r') -> Plant.age p = 0%Z.
Proof.
  unfold Plant.new. intro H. do 3 run_step H. run_step H. reflexivity.
Qed.

(** X14.  [startExperiment] on an experiment that is not running sows
    anew: whatever plant was held, after the call the plant is one tick
    old with a shoot and a root of the first length 0.1 and no further
    segment, the experiment runs, and the elapsed time goes on from where
    it was, by the time between the two readings of the clock. *)
Theorem start_after_pause_sows_anew (now now' : Z) (a : App.t) (r : Rand)
    (a' : App.t) (r' : Rand) :
  App.isRunning a = false ->
  startExperiment now now' a r = Some (a', r') ->
  App.isRunning a' = true /\
  App.elapsedMs a' = (App.elapsedMs a + (now' - now))%Z /\
  exists p,
    App.plant a' = Some p /\ Plant.age p = 1%Z /\
    Segment.length (Plant.shoot p) = 0.1 /\
    Segment.children (Plant.shoot p) = [] /\
    Segment.length (Plant.root p) = 0.1 /\
    Segment.children (Plant.root p) = [].
Proof.
  intros Hrun H.
  destruct (startExperiment_inv _ _ _ _ _ _ H Hrun)
    as (p0 & r1 & a0 & r0 & Hnew & Hr0 & Hc0 & Hp0 & Hs0 & _ & _ & Hani).
  destruct (animate_frame _ _ _ _ _ Hani Hr0) as (_ & He & Hp & _).
  rewrite Hp0 in Hp. destruct Hp as (p' & ra & rb & Hup & Hp' & Hflags).
  pose proof (plant_new_age _ _ _ _ _ _ Hnew) as Hage.
  destruct (PlantFacts.plant_new_spec _ _ _ _ _ _ Hnew)
    as (Hshoot & Hroot & _).
  unfold Plant.update in Hup. rewrite Hage in Hup. simpl in Hup.
  run_step Hup.
  destruct Hshoot as (_ & _ & _ & _ & Hsl & Hsg & Hsc & _).
  destruct Hroot as (_ & _ & _ & _ & Hrl & _ & Hrc & _).
  split.
  - destruct Hflags as [[Hr' _] | (_ & Hfull & _)]; [exact Hr'|].
    unfold Plant.isFullyGrown in Hfull. cbn [Plant.shoot] in Hfull.
    rewrite Properties.isFullyGrown_unfold, Hsg in Hfull. discriminate.
  - split; [rewrite He, Hs0; lia|].
    eexists. split; [exact Hp'|]. simpl. auto.
Qed.

(** A plant of 1727 ticks is held by an experiment that is paused; the
    experiment is started again 4 s later. *)
Lemma start_after_pause_sows_anew_witness :
  exists (q : Plant.t) (a : App.t) (a' : App.t) (r' : Rand),
    run (constant_draws 0.5) cress 0 "none" 1727 = Some q /\
    a = stopExperiment
          (App.set_isRunning true
             (App.set_elapsedMs 29000 (App.set_plant (Some q) App.init))) /\
    App.isRunning a = false /\
    startExperiment 34000 34016 a (constant_draws 0.5) = Some (a', r') /\
    App.isRunning a' = true /\
    App.elapsedMs a' = (29000 + (34016 - 34000))%Z /\
    exists p,
      App.plant a' = Some p /\ Plant.age p = 1%Z /\
      Segment.length (Plant.shoot p) = 0.1 /\
      Segment.children (Plant.shoot p) = [] /\
      Segment.length (Plant.root p) = 0.1 /\
      Segment.children (Plant.root p) = [].
Proof.
  pose proof PlantFacts.ripening_run_eq as Hrun. unfold ripening_run in Hrun.
  match type of Hrun with _ = Some ?p0 => set (q := p0) in * end.
  set (a := stopExperiment
              (App.set_isRunning true
                 (App.set_elapsedMs 29000 (App.set_plant (Some q) App.init)))).
  destruct (DriverFacts.startExperiment_total 34000 34016 a (constant_draws 0.5))
    as (a' & r' & H).
  exists q, a, a', r'.
  split; [exact Hrun|]. split; [reflexivity|]. split; [reflexivity|].
  split; [exact H|].
  exact (start_after_pause_sows_anew 34000 34016 a (constant_draws 0.5) a' r'
           eq_refl H).
Defined.

End SessionFacts.

(** ** angleDiff, further *)

Module AngleFacts.

(** X15.  When [a - b] is within half a turn either way, neither loop of
    [angleDiff] runs its body: the result is [a - b] itself. *)
Theorem angleDiff_of_a_small_difference (a b : Q) :
  - Math_PI <= a - b ->
  a - b <= Math_PI ->
  angleDiff a b = Some (a - b).
Proof.
  intros Hlo Hhi.
  unfold angleDiff, angleDiff_fuel, angleDiff_bound. cbn [while_above].
  destruct (Qlt_le_dec Math_PI (a - b)) as [Hlt|_]; [lra|].
  cbn [while_below].
  destruct (Qlt_le_dec (a - b) (- Math_PI)) as [Hlt|_]; [lra|].
  reflexivity.
Qed.

Lemma angleDiff_of_a_small_difference_witness :
  - Math_PI <= 1 - 0.5 /\ 1 - 0.5 <= Math_PI /\
  angleDiff 1 0.5 = Some (1 - 0.5).
Proof.
  assert (Hlo : - Math_PI <= 1 - 0.5) by (unfold Math_PI; lra).
  assert (Hhi : 1 - 0.5 <= Math_PI) by (unfold Math_PI; lra).
  split; [exact Hlo|]. split; [exact Hhi|].
  exact (angleDiff_of_a_small_difference 1 0.5 Hlo Hhi).
Defined.

(** The result is half a turn forward only for a positive difference, and
    half a turn backward only for a negative one. *)
Lemma angleDiff_signs (a b : Q) :
  exists (d : Q) (k : Z),
    angleDiff a b = Some d /\
    d == a - b + inject_Z k * (2 * Math_PI) /\
    - Math_PI <= d /\ d <= Math_PI /\
    (d == Math_PI -> 0 < a - b) /\
    (d == - Math_PI -> a - b < 0).
Proof.
  pose proof Math_PI_pos as Hpi.
  unfold angleDiff, angleDiff_fuel, angleDiff_bound.
  set (n := Z.to_nat (Qceiling (Qabs (a - b) / (2 * Math_PI)))).
  pose proof (angleDiff_bound_enough a b) as Hn. fold n in Hn.
  pose proof (Qle_Qabs (a - b)) as Hab.
  assert (Hab' : - Qabs (a - b) <= a - b).
  { pose proof (Qle_Qabs (- (a - b))) as H. rewrite Qabs_opp in H. lra. }
  destruct (while_above_spec n (a - b)) as (k1 & d1 & Hrun1 & Heq1 & Hub1 & Hlb1).
  { lra. }
  rewrite Hrun1.
  assert (Hk1 : 0 <= inject_Z (Z.of_nat k1)).
  { change 0 with (inject_Z 0). rewrite <- Zle_Qle. lia. }
  assert (Hn0 : 0 <= inject_Z (Z.of_nat n)).
  { change 0 with (inject_Z 0). rewrite <- Zle_Qle. lia. }
  destruct (while_below_spec n d1) as (k2 & d2 & Hrun2 & Heq2 & Hlb2 & Hub2).
  { destruct Hlb1 as [-> | Hlb1].
    - change (inject_Z (Z.of_nat 0)) with 0 in Heq1. lra.
    - nra. }
  assert (Hk2 : 0 <= inject_Z (Z.of_nat k2)).
  { change 0 with (inject_Z 0). rewrite <- Zle_Qle. lia. }
  assert (Hone : forall k : nat, k <> 0%nat -> 1 <= inject_Z (Z.of_nat k)).
  { intros k Hk. change 1 with (inject_Z 1). rewrite <- Zle_Qle. lia. }
  assert (Hd2 : d2 <= Math_PI).
  { destruct Hub2 as [-> | Hub2]; [|lra].
    change (inject_Z (Z.of_nat 0)) with 0 in Heq2. lra. }
  exists d2, (Z.of_nat k2 - Z.of_nat k1)%Z.
  split; [exact Hrun2|]. split; [|split; [exact Hlb2|split; [exact Hd2|split]]].
  - rewrite Heq2, Heq1. unfold Zminus. rewrite inject_Z_plus, inject_Z_opp. lra.
  - intro Hpi2. destruct Hub2 as [-> | Hub2]; [|lra].
    change (inject_Z (Z.of_nat 0)) with 0 in Heq2. nra.
  - intro Hmpi.
    destruct (Nat.eq_dec k1 0) as [-> | Hk1'].
    + change (inject_Z (Z.of_nat 0)) with 0 in Heq1. nra.
    + destruct Hlb1 as [-> | Hlb1]; [congruence|].
      exfalso. nra.
Qed.

(** X16.  [angleDiff] is antisymmetric: when [angleDiff a b] returns a
    rotation, [angleDiff b a] returns the opposite one, also where they
    are half a turn. *)
Theorem angleDiff_is_antisymmetric (a b d : Q) :
  angleDiff a b = Some d ->
  exists d' : Q, angleDiff b a = Some d' /\ d' == - d.
Proof.
  intro Hab.
  pose proof Math_PI_pos as Hpi.
  destruct (angleDiff_signs a b) as (d0 & k & Hrun & Heq & Hlo & Hhi & Hp & Hm).
  rewrite Hab in Hrun. inversion Hrun; subst d0; clear Hrun.
  destruct (angleDiff_signs b a)
    as (d' & k' & Hrun' & Heq' & Hlo' & Hhi' & Hp' & Hm').
  exists d'. split; [exact Hrun'|].
  assert (Hsum : d' + d == inject_Z (k' + k) * (2 * Math_PI)).
  { rewrite inject_Z_plus, Heq, Heq'. ring. }
  destruct (Z.eq_dec (k' + k) 0) as [Hz | Hnz].
  - rewrite Hz in Hsum. change (inject_Z 0) with 0 in Hsum. lra.
  - exfalso.
    destruct (Z_le_gt_dec (k' + k) (-1)) as [Hneg | Hpos].
    + assert (Hle : inject_Z (k' + k) <= -1).
      { change (-1) with (inject_Z (-1)). rewrite <- Zle_Qle. exact Hneg. }
      assert (Hd : d == - Math_PI) by nra.
      assert (Hd' : d' == - Math_PI) by nra.
      specialize (Hm Hd). specialize (Hm' Hd'). lra.
    + assert (Hge : 1 <= inject_Z (k' + k)).
      { change 1 with (inject_Z 1). rewrite <- Zle_Qle. lia. }
      assert (Hd : d == Math_PI) by nra.
      assert (Hd' : d' == Math_PI) by nra.
      specialize (Hp Hd). specialize (Hp' Hd'). lra.
Qed.

(** From a quarter turn to a direction of one radian and back. *)
Lemma angleDiff_is_antisymmetric_witness :
  angleDiff 1 0.5 = Some (1 - 0.5) /\
  exists d' : Q, angleDiff 0.5 1 = Some d' /\ d' == - (1 - 0.5).
Proof.
  assert (H : angleDiff 1 0.5 = Some (1 - 0.5)) by reflexivity.
  split; [exact H|].
  exact (angleDiff_is_antisymmetric 1 0.5 (1 - 0.5) H).
Defined.

End AngleFacts.

(** ** The box around the plant *)

Module GeometryFacts.
Import Segment Geometry.

Lemma Math_min_le (rest : list Q) :
  forall first, Math_min first rest <= first /\
                forall v, In v rest -> Math_min first rest <= v.
Proof.
  unfold Math_min.
  induction rest as [|w rest IH]; intro first; simpl.
  - split; [apply Qle_refl|]. intros v [].
  - destruct (IH (Qmin first w)) as [Hf Hr].
    pose proof (Q.le_min_l first w). pose proof (Q.le_min_r first w).
    split; [lra|]. intros v [<- | Hv]; [lra|auto].
Qed.

Lemma Math_max_ge (rest : list Q) :
  forall first, first <= Math_max first rest /\
                forall v, In v rest -> v <= Math_max first rest.
Proof.
  unfold Math_max.
  induction rest as [|w rest IH]; intro first; simpl.
  - split; [apply Qle_refl|]. intros v [].
  - destruct (IH (Qmax first w)) as [Hf Hr].
    pose proof (Q.le_max_l first w). pose proof (Q.le_max_r first w).
    split; [lra|]. intros v [<- | Hv]; [lra|auto].
Qed.

Lemma collectPts_unfold Math_cos Math_sin parents (seg : t) :
  collectPts Math_cos Math_sin parents seg =
  {| px := x Math_cos parents seg; py := y Math_sin parents seg |}
  :: {| px := endX Math_cos parents seg; py := endY Math_sin parents seg |}
  :: flat_map (collectPts Math_cos Math_sin (seg :: parents)) (children seg).
Proof. destruct seg; reflexivity. Qed.

(** X17.  [Plant.bounds()] never falls back on its default box: the box
    it returns holds every point that [collectPts] gathers from the shoot
    and the root, it holds the seed at the origin, and the width and the
    height that [renderCanvas] divides by, the extent plus 80, are at
    least 80. *)
Theorem bounds_hold_the_plant_and_the_seed (Math_cos Math_sin : Q -> Q)
    (p : Plant.t) :
  let b := bounds Math_cos Math_sin p in
  (forall pt,
      In pt (collectPts Math_cos Math_sin [] (Plant.shoot p)
             ++ collectPts Math_cos Math_sin [] (Plant.root p)) ->
      minX b <= px pt /\ px pt <= maxX b /\
      minY b <= py pt /\ py pt <= maxY b) /\
  (minX b <= 0 /\ 0 <= maxX b /\ minY b <= 0 /\ 0 <= maxY b) /\
  80 <= maxX b - minX b + 80 /\
  80 <= maxY b - minY b + 80.
Proof.
  unfold bounds.
  rewrite (collectPts_unfold _ _ [] (Plant.shoot p)).
  cbn [app x y].
  match goal with
  | |- context [Math_min _ (map px ?l)] => set (rest := l)
  end.
  cbn zeta. cbn [minX maxX minY maxY px py].
  destruct (Math_min_le (map px rest) 0) as [Hx0 Hx].
  destruct (Math_max_ge (map px rest) 0) as [HX0 HX].
  destruct (Math_min_le (map py rest) 0) as [Hy0 Hy].
  destruct (Math_max_ge (map py rest) 0) as [HY0 HY].
  split; [|split; [tauto|split; lra]].
  intros pt [<- | Hpt].
  - cbn [px py]. tauto.
  - pose proof (in_map px _ _ Hpt) as Hpx.
    pose proof (in_map py _ _ Hpt) as Hpy.
    split; [apply Hx; exact Hpx|]. split; [apply HX; exact Hpx|].
    split; [apply Hy; exact Hpy|apply HY; exact Hpy].
Qed.

(** The plant of 1727 ticks, drawn along the direction (3/5, 4/5): the
    start of its shoot is the seed. *)
Lemma bounds_hold_the_plant_and_the_seed_witness :
  exists (p : Plant.t) (pt : Point),
    run (constant_draws 0.5) cress 0 "none" 1727 = Some p /\
    In pt (collectPts (fun _ => 3 # 5) (fun _ => 4 # 5) [] (Plant.shoot p)
           ++ collectPts (fun _ => 3 # 5) (fun _ => 4 # 5) [] (Plant.root p)) /\
    (minX (bounds (fun _ => 3 # 5) (fun _ => 4 # 5) p) <= px pt /\
     px pt <= maxX (bounds (fun _ => 3 # 5) (fun _ => 4 # 5) p) /\
     minY (bounds (fun _ => 3 # 5) (fun _ => 4 # 5) p) <= py pt /\
     py pt <= maxY (bounds (fun _ => 3 # 5) (fun _ => 4 # 5) p)) /\
    80 <= maxX (bounds (fun _ => 3 # 5) (fun _ => 4 # 5) p)
          - minX (bounds (fun _ => 3 # 5) (fun _ => 4 # 5) p) + 80.
Proof.
  pose proof PlantFacts.ripening_run_eq as Hrun. unfold ripening_run in Hrun.
  match type of Hrun with _ = Some ?p0 => set (p := p0) in * end.
  exists p, {| px := 0; py := 0 |}.
  assert (Hin : In {| px := 0; py := 0 |}
                   (collectPts (fun _ => 3 # 5) (fun _ => 4 # 5) []
                      (Plant.shoot p)
                    ++ collectPts (fun _ => 3 # 5) (fun _ => 4 # 5) []
                         (Plant.root p))).
  { rewrite (collectPts_unfold _ _ [] (Plant.shoot p)). left. reflexivity. }
  destruct (bounds_hold_the_plant_and_the_seed (fun _ => 3 # 5)
              (fun _ => 4 # 5) p) as (Hall & _ & Hw & _).
  split; [exact Hrun|]. split; [exact Hin|].
  split; [exact (Hall _ Hin)|exact Hw].
Defined.

Lemma totalLength_nonneg (n : nat) :
  forall s : t,
    (height s <= n)%nat ->
    (forall path z, at_path path s = Some z -> 0 <= length z) ->
    0 <= totalLength s /\ length s <= totalLength s /\
    forall c, In c (children s) -> length s + totalLength c <= totalLength s.
Proof.
  induction n as [|n IH]; intros s Hh Hlen;
    pose proof (OrganLength.totalLength_children s) as Htc;
    pose proof (Hlen [] s eq_refl) as Hs.
  - destruct (children s) as [|c cs] eqn:Hcs.
    + unfold Shape.childrenLength in Htc. simpl in Htc.
      split; [lra|]. split; [lra|]. intros c [].
    + exfalso. assert (Hc : In c (children s)) by (rewrite Hcs; left; reflexivity).
      apply TickFacts.height_child in Hc. lia.
  - assert (Hkids : forall c, In c (children s) -> 0 <= totalLength c).
    { intros c Hc. apply IH.
      - apply TickFacts.height_child in Hc. lia.
      - destruct (In_nth_error _ _ Hc) as [i Hi].
        intros path z Hz. apply (Hlen (i :: path)). simpl. rewrite Hi. exact Hz. }
    assert (Hsum : forall cs, (forall c, In c cs -> 0 <= totalLength c) ->
              0 <= Shape.childrenLength cs /\
              forall c, In c cs -> totalLength c <= Shape.childrenLength cs).
    { induction cs as [|d cs IHcs]; intro Hall.
      - unfold Shape.childrenLength. simpl. split; [lra|]. intros c [].
      - destruct IHcs as [H0 Hin]; [intros c Hc; apply Hall; right; exact Hc|].
        pose proof (Hall d (or_introl eq_refl)).
        split; [rewrite OrganLength.childrenLength_cons; lra|].
        intros c Hc. rewrite OrganLength.childrenLength_cons.
        destruct Hc as [<- | Hc]; [lra|].
        specialize (Hin c Hc). lra. }
    destruct (Hsum (children s) Hkids) as [H0 Hin].
    split; [lra|]. split; [lra|].
    intros c Hc. specialize (Hin c Hc). lra.
Qed.

Lemma reach_of_an_organ (Math_cos Math_sin : Q -> Q) (n : nat) :
  (forall a, Qabs (Math_cos a) <= 1) ->
  (forall a, Qabs (Math_sin a) <= 1) ->
  forall parents (s : t),
    (height s <= n)%nat ->
    (forall path z, at_path path s = Some z -> 0 <= length z) ->
    forall pt, In pt (collectPts Math_cos Math_sin parents s) ->
      Qabs (px pt - x Math_cos parents s) <= totalLength s /\
      Qabs (py pt - y Math_sin parents s) <= totalLength s.
Proof.
  intros Hcos Hsin.
  induction n as [|n IH]; intros parents s Hh Hlen pt Hpt;
    destruct (totalLength_nonneg _ s Hh Hlen) as (Htot & Hown & Hkid);
    pose proof (Hlen [] s eq_refl) as Hs;
    rewrite collectPts_unfold in Hpt;
    assert (Hend : endX Math_cos parents s
                   = x Math_cos parents s
                     + length s * Math_cos (angle (map link parents) s))
      by (destruct parents; reflexivity);
    assert (Hend' : endY Math_sin parents s
                    = y Math_sin parents s
                      + length s * Math_sin (angle (map link parents) s))
      by (destruct parents; reflexivity);
    pose proof (Hcos (angle (map link parents) s)) as Hc;
    pose proof (Hsin (angle (map link parents) s)) as Hsn;
    apply Qabs_Qle_condition in Hc; apply Qabs_Qle_condition in Hsn;
    (destruct Hpt as [<- | [<- | Hpt]];
     [cbn [px py]; split; apply Qabs_Qle_condition; split; lra
     |cbn [px py]; rewrite Hend, Hend';
      split; apply Qabs_Qle_condition; split; nra
     |]).
  - exfalso. apply in_flat_map in Hpt. destruct Hpt as (c & Hc' & _).
    apply TickFacts.height_child in Hc'. lia.
  - apply in_flat_map in Hpt. destruct Hpt as (c & Hc' & Hpt).
    assert (Hhc : (height c <= n)%nat).
    { apply TickFacts.height_child in Hc'. lia. }
    assert (Hlenc : forall path z, at_path path c = Some z -> 0 <= length z).
    { destruct (In_nth_error _ _ Hc') as [i Hi].
      intros path z Hz. apply (Hlen (i :: path)). simpl. rewrite Hi. exact Hz. }
    destruct (IH (s :: parents) c Hhc Hlenc pt Hpt) as [Hx Hy].
    specialize (Hkid c Hc').
    change (x Math_cos (s :: parents) c) with (endX Math_cos parents s) in Hx.
    change (y Math_sin (s :: parents) c) with (endY Math_sin parents s) in Hy.
    rewrite Hend in Hx. rewrite Hend' in Hy.
    apply Qabs_Qle_condition in Hx. apply Qabs_Qle_condition in Hy.
    split; apply Qabs_Qle_condition; split; nra.
Qed.

(** X18.  Whatever [Math.cos] and [Math.sin] return within [-1, 1], no
    point of an organ of a reachable plant is further from the seed, along
    either axis, than the organ's [totalLength()], to one part in a
    million: the points and the length are sums of the same lengths, taken
    in another order. *)
Theorem organ_stays_within_its_length (Math_cos Math_sin : Q -> Q)
    (p : Plant.t) (organ : t) (pt : Point) :
  (forall a, Qabs (Math_cos a) <= 1) ->
  (forall a, Qabs (Math_sin a) <= 1) ->
  reachable p ->
  organ = Plant.shoot p \/ organ = Plant.root p ->
  In pt (collectPts Math_cos Math_sin [] organ) ->
  Qabs (px pt) <= totalLength organ * 1.000001 /\
  Qabs (py pt) <= totalLength organ * 1.000001.
Proof.
  intros Hcos Hsin Hp Horgan Hpt.
  assert (Hlen : forall path z, at_path path organ = Some z -> 0 <= length z).
  { intros path z Hz.
    destruct (ShapeFacts.reachable_length_window p Hp) as [Hs Hr].
    assert (Hall : Tick.All Shape.length_window 0%nat organ)
      by (destruct Horgan; subst; assumption).
    pose proof (TickFacts.All_at_path _ _ _ _ _ Hall Hz) as (_ & Hmin & _).
    lra. }
  destruct (reach_of_an_organ Math_cos Math_sin (height organ) Hcos Hsin []
              organ (Nat.le_refl _) Hlen pt Hpt) as [Hx Hy].
  cbn [x y] in Hx, Hy.
  setoid_replace (px pt - 0) with (px pt) in Hx by ring.
  setoid_replace (py pt - 0) with (py pt) in Hy by ring.
  pose proof (Qabs_nonneg (px pt)) as Hx0.
  pose proof (Qabs_nonneg (py pt)) as Hy0.
  split; lra.
Qed.

(** The root of the plant of 1727 ticks, drawn along the direction
    (3/5, 4/5): the end of its first segment. *)
Lemma organ_stays_within_its_length_witness :
  exists (p : Plant.t) (pt : Point),
    run (constant_draws 0.5) cress 0 "none" 1727 = Some p /\
    (forall a : Q, Qabs ((fun _ => 3 # 5) a) <= 1) /\
    (forall a : Q, Qabs ((fun _ => 4 # 5) a) <= 1) /\
    reachable p /\
    In pt (collectPts (fun _ => 3 # 5) (fun _ => 4 # 5) [] (Plant.root p)) /\
    Qabs (px pt) <= totalLength (Plant.root p) * 1.000001 /\
    Qabs (py pt) <= totalLength (Plant.root p) * 1.000001.
Proof.
  pose proof PlantFacts.ripening_run_eq as Hrun. unfold ripening_run in Hrun.
  match type of Hrun with _ = Some ?p0 => set (p := p0) in * end.
  assert (Hcos : forall a : Q, Qabs ((fun _ => 3 # 5) a) <= 1)
    by (intro a; discriminate).
  assert (Hsin : forall a : Q, Qabs ((fun _ => 4 # 5) a) <= 1)
    by (intro a; discriminate).
  assert (Hp : reachable p) by exact (PlantFacts.run_reachable _ _ _ _ _ _ Hrun).
  exists p.
  exists {| px := endX (fun _ => 3 # 5) [] (Plant.root p);
            py := endY (fun _ => 4 # 5) [] (Plant.root p) |}.
  assert (Hin : In {| px := endX (fun _ => 3 # 5) [] (Plant.root p);
                      py := endY (fun _ => 4 # 5) [] (Plant.root p) |}
                   (collectPts (fun _ => 3 # 5) (fun _ => 4 # 5) []
                      (Plant.root p))).
  { rewrite collectPts_unfold. right. left. reflexivity. }
  split; [exact Hrun|]. split; [exact Hcos|]. split; [exact Hsin|].
  split; [exact Hp|]. split; [exact Hin|].
  exact (organ_stays_within_its_length _ _ p (Plant.root p) _ Hcos Hsin Hp
           (or_intror eq_refl) Hin).
Defined.

End GeometryFacts.

(** ** Growth in the variant with continuous curvature *)

Module ContinuousGrowthFacts.
Import Continuous ContinuousGrowth Draws DrawFacts.

(** *** [angleDiff] in degrees returns *)

Lemma degrees_above_spec (n : nat) :
  forall d, d <= 180 + 360 * inject_Z (Z.of_nat n) ->
  exists (k : nat) (d' : Q),
    Continuous.while_above (S n) d = Some d' /\
    d' == d - inject_Z (Z.of_nat k) * 360 /\
    d' <= 180 /\
    (k = 0%nat \/ -180 < d').
Proof.
  induction n as [|n IH]; intros d Hd.
  - simpl in *. destruct (Qlt_le_dec 180 d) as [Hlt|Hle].
    + exfalso. change (inject_Z 0) with 0 in Hd. lra.
    + exists 0%nat, d. repeat split; auto. simpl. change (inject_Z 0) with 0. lra.
  - cbn [Continuous.while_above]. destruct (Qlt_le_dec 180 d) as [Hlt|Hle].
    + destruct (IH (d - 360)) as (k & d' & Hrun & Heq & Hub & Hlb).
      { rewrite Nat2Z.inj_succ in Hd. unfold Z.succ in Hd.
        rewrite inject_Z_plus in Hd. change (inject_Z 1) with 1 in Hd. lra. }
      exists (S k), d'. split; [exact Hrun|]. split; [|split; [exact Hub|]].
      * rewrite Heq. rewrite Nat2Z.inj_succ. unfold Z.succ.
        rewrite inject_Z_plus. change (inject_Z 1) with 1. lra.
      * right. destruct Hlb as [-> | Hlb]; [|exact Hlb].
        change (inject_Z (Z.of_nat 0)) with 0 in Heq. lra.
    + exists 0%nat, d. repeat split; auto. change (inject_Z (Z.of_nat 0)) with 0. lra.
Qed.

Lemma degrees_below_spec (n : nat) :
  forall d, -180 - 360 * inject_Z (Z.of_nat n) <= d ->
  exists (k : nat) (d' : Q),
    Continuous.while_below (S n) d = Some d' /\
    d' == d + inject_Z (Z.of_nat k) * 360 /\
    -180 <= d' /\
    (k = 0%nat \/ d' < 180).
Proof.
  induction n as [|n IH]; intros d Hd.
  - simpl in *. destruct (Qlt_le_dec d (-180)) as [Hlt|Hle].
    + exfalso. change (inject_Z 0) with 0 in Hd. lra.
    + exists 0%nat, d. repeat split; auto. simpl. change (inject_Z 0) with 0. lra.
  - cbn [Continuous.while_below]. destruct (Qlt_le_dec d (-180)) as [Hlt|Hle].
    + destruct (IH (d + 360)) as (k & d' & Hrun & Heq & Hlb & Hub).
      { rewrite Nat2Z.inj_succ in Hd. unfold Z.succ in Hd.
        rewrite inject_Z_plus in Hd. change (inject_Z 1) with 1 in Hd. lra. }
      exists (S k), d'. split; [exact Hrun|]. split; [|split; [exact Hlb|]].
      * rewrite Heq. rewrite Nat2Z.inj_succ. unfold Z.succ.
        rewrite inject_Z_plus. change (inject_Z 1) with 1. lra.
      * right. destruct Hub as [-> | Hub]; [|exact Hub].
        change (inject_Z (Z.of_nat 0)) with 0 in Heq. lra.
    + exists 0%nat, d. repeat split; auto. change (inject_Z (Z.of_nat 0)) with 0. lra.
Qed.

Lemma degrees_bound_enough (a b : Q) :
  Qabs (a - b) <=
  360 * inject_Z (Z.of_nat (Z.to_nat (Qceiling (Qabs (a - b) / 360)))).
Proof.
  set (v := Qabs (a - b)).
  assert (Hx : 0 <= v) by apply Qabs_nonneg.
  assert (Hq : 0 <= v / 360).
  { apply Qle_shift_div_l; lra. }
  pose proof (Qle_ceiling (v / 360)) as Hc.
  assert (Hz : (0 <= Qceiling (v / 360))%Z).
  { rewrite Zle_Qle. change (inject_Z 0) with 0. lra. }
  rewrite Z2Nat.id by exact Hz.
  assert (Hm : v / 360 * 360 == v) by (field).
  lra.
Qed.

(** [angleDiff] of the variant returns a rotation within half a turn that
    differs from [a - b] by whole turns. *)
Lemma degrees_angleDiff_spec (a b : Q) :
  exists (d : Q) (k : Z),
    Continuous.angleDiff a b = Some d /\
    d == a - b + inject_Z k * 360 /\
    -180 <= d /\ d <= 180.
Proof.
  unfold Continuous.angleDiff.
  set (n := Z.to_nat (Qceiling (Qabs (a - b) / 360))).
  pose proof (degrees_bound_enough a b) as Hn. fold n in Hn.
  pose proof (Qle_Qabs (a - b)) as Hab.
  assert (Hab' : - Qabs (a - b) <= a - b).
  { pose proof (Qle_Qabs (- (a - b))) as H. rewrite Qabs_opp in H. lra. }
  cbv zeta.
  destruct (degrees_above_spec n (a - b)) as (k1 & d1 & Hrun1 & Heq1 & Hub1 & Hlb1).
  { lra. }
  rewrite Hrun1.
  destruct (degrees_below_spec n d1) as (k2 & d2 & Hrun2 & Heq2 & Hlb2 & Hub2).
  { destruct Hlb1 as [-> | Hlb1].
    - change (inject_Z (Z.of_nat 0)) with 0 in Heq1. lra.
    - assert (0 <= inject_Z (Z.of_nat n)).
      { change 0 with (inject_Z 0). rewrite <- Zle_Qle. lia. }
      lra. }
  exists d2, (Z.of_nat k2 - Z.of_nat k1)%Z.
  split; [exact Hrun2|]. split; [|split; [exact Hlb2|]].
  - rewrite Heq2, Heq1. unfold Zminus. rewrite inject_Z_plus, inject_Z_opp. lra.
  - destruct Hub2 as [-> | Hub2]; [|lra].
    change (inject_Z (Z.of_nat 0)) with 0 in Heq2. lra.
Qed.

Lemma lift_degrees_total (a b : Q) r :
  exists d, lift (Continuous.angleDiff a b) r = Some (d, r).
Proof.
  destruct (degrees_angleDiff_spec a b) as (d & k & H & _).
  unfold lift. rewrite H. eauto.
Qed.

(** *** A tick of a segment *)

(** [_applyTropism] returns, and writes the angle only. *)
Lemma applyTropism_spec (gravity : Q) (lightDir : string) (s : Segment) r :
  exists a r', _applyTropism gravity lightDir s r = Some (set_angle a s, r').
Proof.
  unfold _applyTropism.
  set (s0 := set_angle (angle s + curveDrift s * 0.4) s).
  assert (H1 : exists a1 r1,
            (if Qgtb gravity 0 && (generation s0 =? 0)%nat
             then
               diff <- lift (Continuous.angleDiff
                               (if isRoot s0 then 90 else -90) (angle s0)) ;;
               ret (set_angle
                      (angle s0
                       + diff * (gravity * (1.2 - length s0 / K s0 * 0.7))
                         * 0.018) s0)
             else ret s0) r = Some (set_angle a1 s, r1)).
  { destruct (_ && _).
    - unfold bind.
      match goal with |- context [lift (Continuous.angleDiff ?a ?b) r] =>
        destruct (lift_degrees_total a b r) as (d & ->) end.
      unfold ret. do 2 eexists. reflexivity.
    - unfold ret. do 2 eexists. reflexivity. }
  destruct H1 as (a1 & r1 & H1). unfold bind at 1. cbv zeta in H1 |- *.
  rewrite H1. clear H1.
  set (s1 := set_angle a1 s).
  assert (H2 : exists a2 r2,
            (if negb (String.eqb lightDir "none")
             then
               diff <- lift (Continuous.angleDiff
                               (if isRoot s1
                                then dirToDeg lightDir + 180
                                else dirToDeg lightDir) (angle s1)) ;;
               (if Qgtb (length s1 / K s1) 0.15
                then
                  ret (set_angle
                         (angle s1
                          + diff * (if Qis0 gravity then 0.80
                                    else 0.05 + length s1 / K s1 * 0.40)
                            * 0.018) s1)
                else ret s1)
             else ret s1) r1 = Some (set_angle a2 s, r2)).
  { destruct (negb _).
    - unfold bind.
      match goal with |- context [lift (Continuous.angleDiff ?a ?b) r1] =>
        destruct (lift_degrees_total a b r1) as (d & ->) end.
      destruct (Qgtb _ _); unfold ret; do 2 eexists; reflexivity.
    - unfold ret. do 2 eexists. reflexivity. }
  destruct H2 as (a2 & r2 & H2). unfold bind at 1. rewrite H2. clear H2.
  destruct (_ && _).
  - unfold bind, Math_random, ret. do 2 eexists. reflexivity.
  - unfold ret. do 2 eexists. reflexivity.
Qed.

Lemma keeps_applyTropism gravity lightDir (s : Segment) :
  keeps (_applyTropism gravity lightDir s).
Proof. unfold _applyTropism. keeps_tac. Qed.

Lemma keeps_continuous_new x_ y_ a g root_ v :
  keeps (Continuous.new x_ y_ a g root_ v).
Proof. unfold Continuous.new. keeps_tac. Qed.

Lemma Every_unfold (P : Segment -> Prop) (t : Tree) :
  Every P t <-> P (seg t) /\ Forall (Every P) (children t).
Proof.
  destruct t as [s cs]. cbn [Every seg children].
  assert (H : fold_right (fun c rest => Every P c /\ rest) True cs
              <-> Forall (Every P) cs).
  { induction cs as [|c cs IH]; simpl.
    - split; auto.
    - rewrite IH. split.
      + intros [H1 H2]. constructor; auto.
      + intro H. inversion H; auto. }
  rewrite H. reflexivity.
Qed.

Lemma tree_height_unfold (t : Tree) :
  height t = fold_right (fun c h => Nat.max (S (height c)) h) 0%nat (children t).
Proof. destruct t; reflexivity. Qed.

Lemma tree_height_child (t c : Tree) :
  In c (children t) -> (S (height c) <= height t)%nat.
Proof.
  rewrite (tree_height_unfold t).
  induction (children t) as [|d cs IH]; cbn [fold_right In]; [intros []|].
  intros [<- | Hc]; [lia|]. specialize (IH Hc). lia.
Qed.

Lemma tree_isFullyGrown_unfold (t : Tree) :
  isFullyGrown t =
  if growing (seg t) then false else forallb isFullyGrown (children t).
Proof. destruct t; reflexivity. Qed.

Lemma capacity_factor (g : nat) :
  (g <= 3)%nat ->
  0.238 <= Qpower 0.62 (Z.of_nat g) /\ Qpower 0.62 (Z.of_nat g) <= 1.
Proof.
  intro Hg.
  destruct g as [|[|[|[|g]]]]; [| | | |lia];
    vm_compute; split; discriminate.
Qed.

(** A new segment of a generation up to the third. *)
Lemma new_thriving x_ y_ a (g : nat) root_ v r s r' :
  fair r -> (g <= 3)%nat ->
  Continuous.new x_ y_ a g root_ v r = Some (s, r') ->
  generation s = g /\ length s = 0.1 /\ growing s = true /\
  branched s = false /\
  20 <= K s /\ K s < greatest_capacity.
Proof.
  intros Hr Hg H. unfold Continuous.new in H. do 3 run_step H.
  destruct (random_fair _ _ _ Hr Hrun) as (Hu0 & Hu1 & _).
  cbn [generation length growing branched K].
  split; [reflexivity|]. split; [reflexivity|]. split; [reflexivity|].
  split; [reflexivity|].
  rewrite Qred_correct.
  destruct (capacity_factor g Hg) as [Hf0 Hf1].
  set (gf := Qpower 0.62 (Z.of_nat g)) in *.
  set (b := if root_ then maxRootLen (VARIETIES v) else maxStemLen (VARIETIES v)).
  assert (Hb : 110 <= b /\ b <= 300).
  { subst b. destruct v, root_; simpl; split; discriminate. }
  destruct Hb as [Hb0 Hb1].
  assert (Hbg : 26.18 <= b * gf /\ b * gf <= 300) by (split; nra).
  destruct Hbg as [Hbg0 Hbg1].
  unfold greatest_capacity. split; nra.
Qed.

(** The least growth of a tick: [r * L * (1 - L / K)] is at least
    [r * 0.0995] between 0.1 and [0.995 * K]. *)
Lemma logistic_step (r L K_ : Q) :
  0.025 <= r -> 20 <= K_ -> 0.1 <= L -> L < K_ * 0.995 ->
  least_growth <= r * L * (1 - L / K_) /\
  L + r * L * (1 - L / K_) <= K_ + r * L.
Proof.
  intros Hr HK HL0 HL1. unfold least_growth.
  set (w := L / K_).
  assert (Hw : w * K_ == L) by (unfold w; field; lra).
  assert (Hw0 : 0 <= w).
  { unfold w. apply Qle_shift_div_l; lra. }
  assert (Hw1 : w <= 0.995).
  { unfold w. apply Qle_shift_div_r; lra. }
  assert (HA : 0 <= (L - 0.1) * (0.995 - w)) by (apply Qmult_le_0_compat; lra).
  assert (HB : 0 <= w * (0.005 * K_ - 0.1)) by (apply Qmult_le_0_compat; lra).
  assert (Hf : 0.0995 <= L * (1 - w)) by nra.
  assert (Hf1 : L * (1 - w) <= L) by nra.
  split.
  - setoid_replace (r * L * (1 - w)) with (r * (L * (1 - w))) by ring. nra.
  - setoid_replace (r * L * (1 - w)) with (r * (L * (1 - w))) by ring. nra.
Qed.

Lemma growth_rate_least (s : Segment) :
  0.025 <= (if isRoot s then rootGrowthRate (VARIETIES (variety s))
            else growthRate (VARIETIES (variety s))) /\
  (if isRoot s then rootGrowthRate (VARIETIES (variety s))
   else growthRate (VARIETIES (variety s))) <= 0.055.
Proof. destruct (variety s), (isRoot s); simpl; split; discriminate. Qed.

(** The lines on the length keep a growing segment thriving, one tick
    on. *)
Lemma grow_length_thriving (ticks : Z) (s : Segment) :
  thriving ticks s -> growing s = true ->
  thriving (ticks + 1) (grow_length s) /\
  generation (grow_length s) = generation s /\
  length s <= length (grow_length s).
Proof.
  intros (Hg & HK0 & HK1 & HL0 & HL1 & _ & Hgrow) Hgr.
  destruct (Hgrow Hgr) as [Hlt Htally].
  destruct (growth_rate_least s) as [Hr0 Hr1].
  set (r := if isRoot s then rootGrowthRate (VARIETIES (variety s))
            else growthRate (VARIETIES (variety s))) in *.
  destruct (logistic_step r (length s) (K s) Hr0 HK0 HL0 Hlt) as [Hstep _].
  set (dL := r * length s * (1 - length s / K s)) in *.
  unfold grow_length. fold r. fold dL. cbv zeta.
  set (L' := Qred (Qmin (length s + dL) (K s))).
  assert (HL' : L' == Qmin (length s + dL) (K s)) by apply Qred_correct.
  assert (Hmin1 : L' <= K s) by (rewrite HL'; apply Q.le_min_r).
  assert (Hmin2 : length s <= L').
  { rewrite HL'. apply Q.min_glb; unfold least_growth in Hstep; lra. }
  change (length (set_length L' s)) with L'.
  change (K (set_length L' s)) with (K s).
  destruct (Qgeb L' (K s * 0.995)) eqn:Hstop.
  - apply Qgeb_true in Hstop.
    split; [|split; [reflexivity|exact Hmin2]].
    unfold thriving. cbn [set_growing set_length generation K length growing].
    split; [exact Hg|]. split; [exact HK0|]. split; [exact HK1|].
    split; [lra|]. split; [exact Hmin1|]. split; [intros _; exact Hstop|].
    discriminate.
  - apply Qgeb_false in Hstop.
    split; [|split; [reflexivity|exact Hmin2]].
    unfold thriving. cbn [set_length generation K length growing].
    rewrite Hgr.
    split; [exact Hg|]. split; [exact HK0|]. split; [exact HK1|].
    split; [lra|]. split; [exact Hmin1|]. split; [discriminate|].
    intros _. split; [exact Hstop|].
    assert (Hsum : L' == length s + dL).
    { rewrite HL'. apply Q.min_l.
      destruct (Qlt_le_dec (K s) (length s + dL)) as [Hover|]; [|assumption].
      exfalso. rewrite HL', Q.min_r in Hstop by lra. lra. }
    rewrite Hsum, inject_Z_plus. change (inject_Z 1) with 1.
    unfold least_growth in *. lra.
Qed.

Lemma thriving_same (ticks : Z) (s s' : Segment) :
  generation s' = generation s -> K s' = K s -> length s' = length s ->
  growing s' = growing s ->
  thriving ticks s -> thriving ticks s'.
Proof. unfold thriving. intros -> -> -> ->. auto. Qed.

(** Before the first tick of growth a segment of the first length is
    thriving at any count of ticks up to 0. *)
Lemma thriving_early (ticks ticks' : Z) (s : Segment) :
  (ticks' <= 0)%Z -> thriving ticks s -> thriving ticks' s.
Proof.
  intros Ht (Hg & HK0 & HK1 & HL0 & HL1 & Hstop & Hgrow).
  unfold thriving. repeat (split; [assumption|]).
  intro Hgr. destruct (Hgrow Hgr) as [Hlt _]. split; [exact Hlt|].
  assert (inject_Z ticks' <= 0).
  { change 0 with (inject_Z 0). rewrite <- Zle_Qle. exact Ht. }
  assert (0 <= inject_Z (Z.of_nat (generation s))).
  { change 0 with (inject_Z 0). rewrite <- Zle_Qle. lia. }
  unfold least_growth, longest_growth.
  change (inject_Z 138654) with 138654. nra.
Qed.

Section Trig.
Variables Math_cos Math_sin : Q -> Q.

Lemma keeps_branch (s : Segment) : keeps (_branch Math_cos Math_sin s).
Proof.
  unfold _branch. cbv zeta.
  apply keeps_bind; [apply keeps_random|]. intro u.
  apply keeps_bind; [apply keeps_random|]. intro u1.
  apply keeps_bind; [apply keeps_continuous_new|]. intro c1.
  apply keeps_if; [|apply keeps_ret].
  apply keeps_bind; [apply keeps_random|]. intro u2.
  apply keeps_if; [|apply keeps_ret].
  apply keeps_bind; [apply keeps_random|]. intro u3.
  apply keeps_bind; [apply keeps_continuous_new|]. intro c2.
  apply keeps_ret.
Qed.

Lemma keeps_grow_leaf (s : Segment) : keeps (grow_leaf s).
Proof. unfold grow_leaf. keeps_tac. Qed.

Lemma keeps_grow_branch' (s : Segment) :
  keeps (grow_branch Math_cos Math_sin s).
Proof.
  unfold grow_branch. cbv zeta.
  apply keeps_if; [|apply keeps_ret].
  apply keeps_bind; [apply keeps_random|]. intro u.
  apply keeps_if; [|apply keeps_ret].
  apply keeps_bind; [apply keeps_branch|]. intro cs. apply keeps_ret.
Qed.

Lemma keeps_grow_self' gravity lightDir (s : Segment) :
  keeps (grow_self Math_cos Math_sin gravity lightDir s).
Proof.
  unfold grow_self. apply keeps_if; [|apply keeps_ret].
  apply keeps_bind; [apply keeps_applyTropism|]. intro s1.
  apply keeps_bind; [apply keeps_grow_leaf|]. intro s2.
  apply keeps_grow_branch'.
Qed.

Lemma keeps_grow' fuel :
  forall gravity lightDir (t : Tree),
    keeps (grow Math_cos Math_sin fuel gravity lightDir t).
Proof.
  induction fuel as [|fuel IH]; intros; simpl.
  - apply keeps_out_of_fuel.
  - apply keeps_bind; [apply keeps_grow_self'|]. intro sc.
    apply keeps_bind; [apply keeps_forEach; intro c; apply IH|].
    intro cs. apply keeps_ret.
Qed.

(** [_branch] makes one segment, or two from the first generation, of the
    next generation. *)
Lemma branch_spec (s : Segment) r cs r' :
  fair r -> (generation s < 3)%nat ->
  _branch Math_cos Math_sin s r = Some (cs, r') ->
  Forall (seedling s) cs /\
  (1 <= List.length cs)%nat /\
  (List.length cs <= if (generation s =? 0)%nat then 2 else 1)%nat.
Proof.
  intros Hr Hg H. unfold _branch in H. cbv zeta in H.
  run_step H. run_step H. run_step H.
  pose proof (keeps_fair _ _ _ _ keeps_random Hrun Hr) as Hr0.
  pose proof (keeps_fair _ _ _ _ keeps_random Hrun0 Hr0) as Hr1.
  pose proof (keeps_fair _ _ _ _ (keeps_continuous_new _ _ _ _ _ _) Hrun1 Hr1)
    as Hr2.
  assert (Hc1 : seedling s a1).
  { apply new_thriving in Hrun1; [exact Hrun1|exact Hr1|lia]. }
  destruct (generation s =? 0)%nat.
  - run_step H.
    pose proof (keeps_fair _ _ _ _ keeps_random Hrun2 Hr2) as Hr3.
    destruct (Qltb a2 0.55).
    + run_step H. run_step H. run_step H.
      pose proof (keeps_fair _ _ _ _ keeps_random Hrun3 Hr3) as Hr4.
      assert (Hc2 : seedling s a4).
      { apply new_thriving in Hrun4; [exact Hrun4|exact Hr4|lia]. }
      split; [auto|]. simpl. lia.
    + run_step H. split; [auto|]. simpl. lia.
  - run_step H. split; [auto|]. simpl. lia.
Qed.

Lemma grow_branch_spec' (s : Segment) r s' cs r' :
  fair r ->
  grow_branch Math_cos Math_sin s r = Some ((s', cs), r') ->
  (s' = s /\ cs = []) \/
  (branched s = false /\ (generation s < 3)%nat /\
   s' = set_branched true s /\
   Forall (seedling s) cs /\
   (1 <= List.length cs)%nat /\
   (List.length cs <= if (generation s =? 0)%nat then 2 else 1)%nat).
Proof.
  intros Hr H. unfold grow_branch in H. cbv zeta in H.
  destruct (_ && _) eqn:Hc.
  - apply andb_prop in Hc. destruct Hc as [Hc _].
    apply andb_prop in Hc. destruct Hc as [Hb Hg].
    apply negb_true_iff in Hb. apply Nat.ltb_lt in Hg.
    run_step H.
    pose proof (keeps_fair _ _ _ _ keeps_random Hrun Hr) as Hr0.
    destruct (Qltb a _).
    + run_step H. run_step H. inversion H; subst s' cs; clear H.
      destruct (branch_spec _ _ _ _ Hr0 Hg Hrun0) as (Hcs & Hn1 & Hn2).
      right. split; [exact Hb|]. split; [exact Hg|]. split; [reflexivity|].
      split; [exact Hcs|]. split; assumption.
    + run_step H. inversion H. left. auto.
  - run_step H. inversion H. left. auto.
Qed.

Lemma applyTropism_fields gravity lightDir (s : Segment) r s' r' :
  _applyTropism gravity lightDir s r = Some (s', r') ->
  generation s' = generation s /\ K s' = K s /\ length s' = length s /\
  growing s' = growing s /\ branched s' = branched s.
Proof.
  intro H.
  destruct (applyTropism_spec gravity lightDir s r) as (ang & rt & Htrop).
  rewrite Htrop in H. inversion H; subst. repeat split.
Qed.

Lemma grow_leaf_fields (s : Segment) r s' r' :
  grow_leaf s r = Some (s', r') ->
  generation s' = generation s /\ K s' = K s /\ length s' = length s /\
  growing s' = growing s /\ branched s' = branched s.
Proof.
  unfold grow_leaf. cbv zeta. intro H. run_step H.
  destruct (Qgtb _ _); run_step H; repeat split.
Qed.

Lemma grow_length_fields (s : Segment) :
  K (grow_length s) = K s /\ branched (grow_length s) = branched s.
Proof.
  unfold grow_length. cbv zeta. destruct (Qgeb _ _); split; reflexivity.
Qed.

(** What a segment does to itself in a tick keeps it thriving, one tick
    on, and the segments it adds are thriving. *)
Lemma grow_self_thriving (ticks : Z) gravity lightDir (s : Segment) r s' cs r' :
  fair r -> thriving ticks s ->
  grow_self Math_cos Math_sin gravity lightDir s r = Some ((s', cs), r') ->
  thriving (ticks + 1) s' /\ Forall (thriving ticks) cs /\
  generation s' = generation s /\ length s <= length s' /\
  (growing s = false -> s' = s /\ cs = []) /\
  ((s' = s \/ branched s' = branched s) /\ cs = [] \/
   branched s = false /\ branched s' = true /\ (generation s < 3)%nat /\
   Forall (seedling s) cs /\ (1 <= List.length cs)%nat /\
   (List.length cs <= if (generation s =? 0)%nat then 2 else 1)%nat).
Proof.
  intros Hr Hth H. unfold grow_self in H.
  destruct (growing s) eqn:Hgr.
  2:{ run_step H. inversion H; subst s' cs; clear H.
      split.
      { destruct Hth as (Hg & HK0 & HK1 & HL0 & HL1 & Hstop & _).
        unfold thriving. repeat (split; [assumption|]). congruence. }
      split; [constructor|]. split; [reflexivity|]. split; [apply Qle_refl|].
      split; [auto|]. left. auto. }
  destruct (grow_length_thriving ticks s Hth Hgr) as (Hth1 & Hgen1 & Hlen1).
  destruct (grow_length_fields s) as [HK1 Hb1].
  remember (grow_length s) as s0 eqn:Hs0. clear Hs0.
  run_step H. run_step H. rename a into s1, a0 into s2.
  pose proof (keeps_fair _ _ _ _ (keeps_applyTropism _ _ _) Hrun Hr) as Hr1.
  pose proof (keeps_fair _ _ _ _ (keeps_grow_leaf _) Hrun0 Hr1) as Hr2.
  apply applyTropism_fields in Hrun.
  destruct Hrun as (Hg1 & HKa & HLa & Hgra & Hba).
  apply grow_leaf_fields in Hrun0.
  destruct Hrun0 as (Hg2 & HKb & HLb & Hgrb & Hbb).
  assert (Hth2 : thriving (ticks + 1) s2).
  { apply (thriving_same _ s0); congruence. }
  assert (Hgen : generation s2 = generation s) by congruence.
  assert (Hlen : length s <= length s2) by (rewrite HLb, HLa; exact Hlen1).
  assert (Hbr : branched s2 = branched s) by congruence.
  clear Hth1 Hgen1 Hlen1 HK1 Hb1 Hg1 HKa HLa Hgra Hba Hg2 HKb HLb Hgrb Hbb.
  destruct (grow_branch_spec' _ _ _ _ _ Hr2 H)
    as [[-> ->] | (Hb & Hg3 & -> & Hcs & Hn1 & Hn2)].
  - split; [exact Hth2|]. split; [constructor|].
    split; [exact Hgen|]. split; [exact Hlen|].
    split; [discriminate|].
    left. split; [|reflexivity]. right. exact Hbr.
  - split; [apply (thriving_same _ s2); auto|].
    split.
    + (* the new segments *)
      destruct Hth as (Hgs & HKs0 & HKs1 & HLs0 & HLs1 & _ & Hgrow).
      destruct (Hgrow Hgr) as [Hlt Htally].
      assert (Hn : inject_Z (Z.of_nat (S (generation s)))
                   == inject_Z (Z.of_nat (generation s)) + 1).
      { rewrite Nat2Z.inj_succ. unfold Z.succ. rewrite inject_Z_plus.
        reflexivity. }
      eapply Forall_impl; [|exact Hcs].
      intros c (Hcg & Hcl & Hcgr & _ & HcK0 & HcK1).
      unfold thriving. rewrite Hcg, Hgen, Hcl, Hcgr.
      split; [lia|]. split; [exact HcK0|]. split; [exact HcK1|].
      split; [apply Qle_refl|]. split; [lra|]. split; [discriminate|].
      intros _. split; [lra|].
      rewrite Hn. unfold least_growth, longest_growth, greatest_capacity in *.
      change (inject_Z 138654) with 138654 in *. lra.
    + split; [exact Hgen|]. split; [exact Hlen|].
      split; [discriminate|].
      right. rewrite Hgen in *.
      split; [congruence|]. split; [reflexivity|]. split; [exact Hg3|].
      split; [|auto].
      eapply Forall_impl; [|exact Hcs].
      intros c (Hcg & Hrest). split; [congruence|exact Hrest].
Qed.

Lemma bind_total {A B} (m : M A) (k : A -> M B) r a r1 :
  m r = Some (a, r1) ->
  (exists b r2, k a r1 = Some (b, r2)) ->
  exists b r2, bind m k r = Some (b, r2).
Proof. intros Hm Hk. unfold bind. rewrite Hm. exact Hk. Qed.

Lemma branch_total (s : Segment) r :
  exists cs r', _branch Math_cos Math_sin s r = Some (cs, r').
Proof.
  unfold _branch. cbv zeta.
  eapply bind_total; [reflexivity|].
  eapply bind_total; [reflexivity|].
  match goal with
  | |- exists _ _, bind (Continuous.new ?a ?b ?c ?d ?e ?f) _ ?r0 = _ =>
      destruct (ContinuousFacts.continuous_new_total a b c d e f r0)
        as (c1 & r1 & Hn)
  end.
  eapply bind_total; [exact Hn|].
  destruct (generation s =? 0)%nat; [|unfold ret; eauto].
  eapply bind_total; [reflexivity|].
  match goal with |- context [if Qltb ?u 0.55 then _ else _] =>
    destruct (Qltb u 0.55) end; [|unfold ret; eauto].
  eapply bind_total; [reflexivity|].
  match goal with
  | |- exists _ _, bind (Continuous.new ?a ?b ?c ?d ?e ?f) _ ?r0 = _ =>
      destruct (ContinuousFacts.continuous_new_total a b c d e f r0)
        as (c2 & r2 & Hn2)
  end.
  eapply bind_total; [exact Hn2|].
  unfold ret. eauto.
Qed.

Lemma grow_branch_total' (s : Segment) r :
  exists sc r', grow_branch Math_cos Math_sin s r = Some (sc, r').
Proof.
  unfold grow_branch. cbv zeta.
  destruct (_ && _); [|unfold ret; eauto].
  eapply bind_total; [reflexivity|].
  destruct (Qltb _ _); [|unfold ret; eauto].
  match goal with
  | |- exists _ _, bind (_branch _ _ ?x) _ ?r0 = _ =>
      destruct (branch_total x r0) as (cs & r' & Hb)
  end.
  eapply bind_total; [exact Hb|]. unfold ret. eauto.
Qed.

Lemma grow_leaf_total (s : Segment) r :
  exists s' r', grow_leaf s r = Some (s', r').
Proof.
  unfold grow_leaf. cbv zeta.
  eapply bind_total; [reflexivity|].
  destruct (Qgtb _ _); unfold ret; eauto.
Qed.

Lemma segment_tick_total gravity lightDir (s : Segment) r :
  exists s' cs r',
    grow_self Math_cos Math_sin gravity lightDir s r = Some ((s', cs), r').
Proof.
  assert (H : exists sc r',
            grow_self Math_cos Math_sin gravity lightDir s r = Some (sc, r')).
  { unfold grow_self. destruct (growing s); [|unfold ret; eauto].
    destruct (applyTropism_spec gravity lightDir (grow_length s) r)
      as (ang & rt & Htrop).
    eapply bind_total; [exact Htrop|].
    destruct (grow_leaf_total (set_angle ang (grow_length s)) rt)
      as (s2 & r2 & Hleaf).
    eapply bind_total; [exact Hleaf|].
    apply grow_branch_total'. }
  destruct H as ([s' cs] & r' & H). eauto.
Qed.

(** A loop whose body returns on draws in [0, 1) returns on them. *)
Lemma forEach_total_fair {A B} (f : A -> M B) (cs : list A) :
  (forall c, keeps (f c)) ->
  Forall (fun c => forall r, fair r -> exists c' r', f c r = Some (c', r')) cs ->
  forall r, fair r -> exists cs' r', forEach f cs r = Some (cs', r').
Proof.
  intros Hk Hall. induction Hall as [|c cs Hc _ IH]; intros r Hr; simpl.
  - unfold ret. eauto.
  - destruct (Hc r Hr) as (c' & r1 & Hrun).
    unfold bind at 1. rewrite Hrun.
    destruct (IH r1) as (cs' & r2 & Hrest).
    { eapply keeps_fair; [apply Hk|exact Hrun|exact Hr]. }
    unfold bind. rewrite Hrest. unfold ret. eauto.
Qed.

Lemma grow_inv' fuel gravity lightDir (t : Tree) r t' r' :
  grow Math_cos Math_sin fuel gravity lightDir t r = Some (t', r') ->
  exists fuel' s' cs r1 cs',
    fuel = S fuel' /\
    grow_self Math_cos Math_sin gravity lightDir (seg t) r
    = Some ((s', cs), r1) /\
    forEach (grow Math_cos Math_sin fuel' gravity lightDir)
            (children t ++ map (fun c => Node c []) cs) r1 = Some (cs', r') /\
    t' = Node s' cs'.
Proof.
  destruct fuel as [|fuel']; simpl; [discriminate|].
  intro H. run_step H. run_step H. run_step H.
  destruct a as [s' cs]. exists fuel', s', cs, r0, a0. auto.
Qed.

(** A tick keeps every segment of a tree thriving, one tick on. *)
Lemma grow_thriving fuel :
  forall (ticks : Z) gravity lightDir (t : Tree) r t' r',
    fair r -> Every (thriving ticks) t ->
    grow Math_cos Math_sin fuel gravity lightDir t r = Some (t', r') ->
    Every (thriving (ticks + 1)) t'.
Proof.
  induction fuel as [|fuel IH];
    intros ticks gravity lightDir t r t' r' Hr Hall H; [discriminate|].
  apply grow_inv' in H.
  destruct H as (fuel' & s' & cs & r1 & cs' & Hf & Hself & Hloop & ->).
  inversion Hf; subst fuel'; clear Hf.
  apply Every_unfold in Hall. destruct Hall as [Hseg Hkids].
  pose proof (keeps_fair _ _ _ _ (keeps_grow_self' _ _ _) Hself Hr) as Hr1.
  destruct (grow_self_thriving _ _ _ _ _ _ _ _ Hr Hseg Hself)
    as (Hs' & Hcs & _).
  apply Every_unfold. cbn [seg children]. split; [exact Hs'|].
  apply forEach_fair in Hloop; [|intro; apply keeps_grow'|exact Hr1].
  assert (Hbefore : Forall (Every (thriving ticks))
                      (children t ++ map (fun c => Node c []) cs)).
  { apply Forall_app. split; [exact Hkids|].
    apply Forall_map. eapply Forall_impl; [|exact Hcs].
    intros c Hc. apply Every_unfold. cbn [seg children]. auto. }
  clear Hkids Hcs Hself.
  induction Hloop as [|c c' l l' (ra & rb & Hra & Hc) _ IHl];
    constructor; inversion Hbefore; subst.
  - match goal with He : Every (thriving ticks) c |- _ =>
      exact (IH ticks gravity lightDir c ra c' rb Hra He Hc) end.
  - auto.
Qed.

Lemma grow_length_first (s : Segment) :
  length s = 0.1 -> 20 <= K s -> length (grow_length s) <= 0.2.
Proof.
  intros HL HK.
  destruct (growth_rate_least s) as [Hrate0 Hrate1].
  unfold grow_length. cbv zeta.
  set (rate := if isRoot s then rootGrowthRate (VARIETIES (variety s))
               else growthRate (VARIETIES (variety s))) in *.
  set (L' := Qred (Qmin (length s + rate * length s * (1 - length s / K s))
                        (K s))).
  assert (HL' : L' <= 0.2).
  { unfold L'. rewrite Qred_correct.
    eapply Qle_trans; [apply Q.le_min_l|].
    rewrite HL.
    assert (Hq : 0 <= 0.1 / K s) by (apply Qle_shift_div_l; lra).
    nra. }
  destruct (Qgeb _ _); exact HL'.
Qed.

(** A segment that [_branch] has just made adds no segment in its first
    tick. *)
Lemma first_tick_adds_nothing gravity lightDir (s : Segment) r s' cs r' :
  length s = 0.1 -> 20 <= K s ->
  grow_self Math_cos Math_sin gravity lightDir s r = Some ((s', cs), r') ->
  cs = [].
Proof.
  intros HL HK H. unfold grow_self in H.
  destruct (growing s); [|run_step H; inversion H; reflexivity].
  pose proof (grow_length_first s HL HK) as Hshort.
  destruct (grow_length_fields s) as [HKg _].
  remember (grow_length s) as s0 eqn:Hs0. clear Hs0.
  run_step H. run_step H.
  apply applyTropism_fields in Hrun. destruct Hrun as (_ & HK1 & HL1 & _).
  apply grow_leaf_fields in Hrun0. destruct Hrun0 as (_ & HK2 & HL2 & _).
  unfold grow_branch in H. cbv zeta in H.
  assert (Hno : Qgtb (length a0) (K a0 * 0.50) = false).
  { unfold Qgtb. apply Qltb_false. rewrite HL2, HL1, HK2, HK1, HKg. lra. }
  rewrite Hno, andb_false_r in H. run_step H. inversion H. reflexivity.
Qed.

(** [grow] returns on a tree of thriving segments, on draws in [0, 1). *)
Lemma grow_total' fuel :
  forall (ticks : Z) gravity lightDir (t : Tree) r,
    fair r ->
    Every (thriving ticks) t ->
    (height t + 2 <= fuel)%nat \/
    (children t = [] /\ length (seg t) = 0.1 /\ (1 <= fuel)%nat) ->
    exists t' r',
      grow Math_cos Math_sin fuel gravity lightDir t r = Some (t', r').
Proof.
  induction fuel as [|fuel IH]; intros ticks gravity lightDir t r Hr Hall Hfuel.
  - exfalso. destruct Hfuel as [Hf | (_ & _ & Hf)]; lia.
  - cbn [grow].
    destruct (segment_tick_total gravity lightDir (seg t) r)
      as (s' & cs & r1 & Hself).
    unfold bind at 1. rewrite Hself. cbn [fst snd].
    apply Every_unfold in Hall. destruct Hall as [Hseg Hkids].
    pose proof (keeps_fair _ _ _ _ (keeps_grow_self' _ _ _) Hself Hr) as Hr1.
    destruct (grow_self_thriving _ _ _ _ _ _ _ _ Hr Hseg Hself)
      as (_ & Hcs & _ & _ & _ & Hkind).
    assert (Hloop : exists cs' r',
              forEach (grow Math_cos Math_sin fuel gravity lightDir)
                      (children t ++ map (fun c => Node c []) cs) r1
              = Some (cs', r')).
    { apply forEach_total_fair; [intro; apply keeps_grow'| |exact Hr1].
      apply Forall_app. split.
      - destruct Hfuel as [Hf | (Hnone & _)].
        + rewrite Forall_forall. intros c Hc r0 Hr0.
          apply (IH ticks); [exact Hr0| |].
          * rewrite Forall_forall in Hkids. auto.
          * left. apply tree_height_child in Hc. lia.
        + rewrite Hnone. constructor.
      - destruct Hfuel as [Hf | (Hnone & HL & Hf)].
        + destruct Hkind as [[_ ->] | (_ & _ & _ & Hseed & _)];
            [constructor|].
          apply Forall_map. rewrite Forall_forall in *.
          intros c Hc r0 Hr0.
          apply (IH ticks); [exact Hr0| |].
          * apply Every_unfold. cbn [seg children]. split; [auto|constructor].
          * right. cbn [seg children]. split; [reflexivity|].
            destruct (Hseed c Hc) as (_ & HcL & _). split; [exact HcL|lia].
        + destruct Hseg as (_ & HK0 & _).
          rewrite (first_tick_adds_nothing _ _ _ _ _ _ _ HL HK0 Hself).
          constructor. }
    destruct Hloop as (cs' & r' & Hloop).
    unfold bind. rewrite Hloop. unfold ret. eauto.
Qed.

(** *** Branches *)

Lemma EveryNode_unfold (P : Tree -> Prop) (t : Tree) :
  EveryNode P t <-> P t /\ Forall (EveryNode P) (children t).
Proof.
  destruct t as [s cs]. cbn [EveryNode children].
  assert (H : fold_right (fun c rest => EveryNode P c /\ rest) True cs
              <-> Forall (EveryNode P) cs).
  { induction cs as [|c cs IH]; simpl.
    - split; auto.
    - rewrite IH. split.
      + intros [H1 H2]. constructor; auto.
      + intro H. inversion H; auto. }
  rewrite H. reflexivity.
Qed.

Lemma grow_generation fuel (ticks : Z) gravity lightDir (t : Tree) r t' r' :
  fair r -> Every (thriving ticks) t ->
  grow Math_cos Math_sin fuel gravity lightDir t r = Some (t', r') ->
  generation (seg t') = generation (seg t).
Proof.
  intros Hr Hall H. apply grow_inv' in H.
  destruct H as (fuel' & s' & cs & r1 & cs' & _ & Hself & _ & ->).
  apply Every_unfold in Hall. destruct Hall as [Hseg _].
  destruct (grow_self_thriving _ _ _ _ _ _ _ _ Hr Hseg Hself)
    as (_ & _ & Hgen & _).
  exact Hgen.
Qed.

(** A tick keeps the tree tidy. *)
Lemma grow_tidy fuel :
  forall (ticks : Z) gravity lightDir (t : Tree) r t' r',
    fair r -> Every (thriving ticks) t -> EveryNode tidy t ->
    grow Math_cos Math_sin fuel gravity lightDir t r = Some (t', r') ->
    EveryNode tidy t'.
Proof.
  induction fuel as [|fuel IH];
    intros ticks gravity lightDir t r t' r' Hr Hall Htidy H; [discriminate|].
  apply grow_inv' in H.
  destruct H as (fuel' & s' & cs & r1 & cs' & Hf & Hself & Hloop & ->).
  inversion Hf; subst fuel'; clear Hf.
  apply Every_unfold in Hall. destruct Hall as [Hseg Hkids].
  apply EveryNode_unfold in Htidy.
  destruct Htidy as [(Hnone & Hcount & Hdeep & Hgens) Htkids].
  pose proof (keeps_fair _ _ _ _ (keeps_grow_self' _ _ _) Hself Hr) as Hr1.
  destruct (grow_self_thriving _ _ _ _ _ _ _ _ Hr Hseg Hself)
    as (_ & Hcs & Hgen & _ & _ & Hkind).
  apply forEach_fair in Hloop; [|intro; apply keeps_grow'|exact Hr1].
  set (before := children t ++ map (fun c => Node c []) cs) in *.
  assert (Hbefore : Forall (fun c => Every (thriving ticks) c /\
                                     EveryNode tidy c /\
                                     generation (seg c)
                                     = S (generation (seg t))) before).
  { unfold before. apply Forall_app. split.
    - rewrite Forall_forall in *. intros c Hc. auto.
    - apply Forall_map. rewrite Forall_forall in *. intros c Hc.
      cbn [seg]. split; [|split].
      + apply Every_unfold. cbn [seg children]. auto.
      + apply EveryNode_unfold. cbn [children]. split; [|constructor].
        unfold tidy. cbn [seg children].
        split; [reflexivity|]. split; [simpl; destruct (_ =? _)%nat; lia|].
        split; [reflexivity|constructor].
      + destruct Hkind as [[_ ->] | (_ & _ & _ & Hseed & _)]; [destruct Hc|].
        try rewrite Forall_forall in Hseed. destruct (Hseed c Hc) as [Hg _].
        exact Hg. }
  assert (Hafter : Forall (fun c' => EveryNode tidy c' /\
                                     generation (seg c')
                                     = S (generation (seg t))) cs' /\
                   List.length cs' = List.length before).
  { clear Hkids Htkids Hgens Hcs.
    induction Hloop as [|c c' l l' (ra & rb & Hra & Hc) _ IHl].
    - split; [constructor|reflexivity].
    - inversion Hbefore as [|c0 l0 (Hth & Htd & Hg) Hrest]; subst.
      destruct (IHl Hrest) as [Hall' Hlen'].
      split; [|simpl; congruence].
      constructor; [|exact Hall'].
      split; [exact (IH ticks gravity lightDir c ra c' rb Hra Hth Htd Hc)|].
      rewrite (grow_generation _ _ _ _ _ _ _ _ Hra Hth Hc). exact Hg. }
  destruct Hafter as [Hafter Hlen].
  apply EveryNode_unfold. cbn [seg children]. split.
  - unfold tidy. cbn [seg children]. rewrite Hgen.
    assert (Hlen' : List.length cs'
                    = (List.length (children t) + List.length cs)%nat).
    { rewrite Hlen. unfold before. rewrite length_app, length_map. reflexivity. }
    assert (Hempty : forall l : list Tree, List.length l = 0%nat -> l = []).
    { intros [|x l]; [reflexivity|discriminate]. }
    destruct Hkind as [[Hsame ->] | (Hb & Hb' & Hg3 & _ & _ & Hn2)].
    + simpl in Hlen'. rewrite Nat.add_0_r in Hlen'.
      split; [|split; [|split]].
      * intro Hbr. apply Hempty. rewrite Hlen'.
        rewrite Hnone; [reflexivity|].
        destruct Hsame as [-> | <-]; exact Hbr.
      * rewrite Hlen'. exact Hcount.
      * intro Hg. apply Hempty. rewrite Hlen', (Hdeep Hg). reflexivity.
      * eapply Forall_impl; [|exact Hafter]. intros c' [_ Hg]. exact Hg.
    + rewrite (Hnone Hb) in Hlen'. simpl in Hlen'.
      split; [|split; [|split]].
      * congruence.
      * rewrite Hlen'. exact Hn2.
      * lia.
      * eapply Forall_impl; [|exact Hafter]. intros c' [_ Hg]. exact Hg.
  - eapply Forall_impl; [|exact Hafter]. intros c' [Htd _]. exact Htd.
Qed.

Lemma branchCount_unfold (t : Tree) :
  branchCount t =
  (List.length (children t)
   + fold_left (fun s c => s + branchCount c) (children t) 0)%nat.
Proof. destruct t; reflexivity. Qed.

Lemma branchCount_sum (m : nat) (cs : list Tree) :
  Forall (fun c => (branchCount c <= m)%nat) cs ->
  forall a, (fold_left (fun s c => s + branchCount c) cs a
             <= a + List.length cs * m)%nat.
Proof.
  induction 1 as [|c cs Hc _ IH]; intro a; simpl; [lia|].
  specialize (IH (a + branchCount c)%nat). lia.
Qed.

(** A tidy tree has no more branches than its generation allows. *)
Lemma tidy_branchCount (n : nat) :
  forall t : Tree,
    (height t <= n)%nat -> EveryNode tidy t ->
    (branchCount t <= most_branches (generation (seg t)))%nat.
Proof.
  induction n as [|n IH]; intros t Hh Htidy;
    apply EveryNode_unfold in Htidy;
    destruct Htidy as [(Hnone & Hcount & Hdeep & Hgens) Hkids];
    rewrite branchCount_unfold.
  - destruct (children t) as [|c cs] eqn:Hcs; [simpl; lia|].
    exfalso. assert (Hc : In c (children t)) by (rewrite Hcs; left; reflexivity).
    apply tree_height_child in Hc. lia.
  - assert (Hall : Forall (fun c => (branchCount c
                                     <= most_branches
                                          (S (generation (seg t))))%nat)
                          (children t)).
    { rewrite Forall_forall in *. intros c Hc.
      rewrite <- (Hgens c Hc). apply IH; [|auto].
      apply tree_height_child in Hc. lia. }
    pose proof (branchCount_sum _ _ Hall 0%nat) as Hsum.
    destruct (generation (seg t)) as [|[|[|g]]]; simpl in *.
    + nia.
    + nia.
    + nia.
    + rewrite Hdeep by lia. simpl. lia.
Qed.

(** *** A plant of the variant *)

Lemma Every_impl (P P' : Segment -> Prop) (n : nat) :
  (forall s, P s -> P' s) ->
  forall t, (height t <= n)%nat -> Every P t -> Every P' t.
Proof.
  intro Himp. induction n as [|n IH]; intros t Hh Hall;
    apply Every_unfold in Hall; destruct Hall as [Hs Hkids];
    apply Every_unfold; (split; [auto|]);
    rewrite Forall_forall in *; intros c Hc;
    pose proof (tree_height_child _ _ Hc); [lia|].
  apply IH; [lia|auto].
Qed.

Lemma Every_at_path (P : Segment -> Prop) (path : list nat) :
  forall t s, Every P t -> at_path path t = Some s -> P s.
Proof.
  induction path as [|i path IH]; intros t s Hall Hat; simpl in Hat;
    apply Every_unfold in Hall; destruct Hall as [Hs Hkids].
  - inversion Hat; subst. exact Hs.
  - destruct (nth_error (children t) i) as [c|] eqn:Hi; [|discriminate].
    apply (IH c); [|exact Hat].
    rewrite Forall_forall in Hkids. apply Hkids.
    eapply nth_error_In; eauto.
Qed.

Lemma continuous_newPlant_thriving variety_ gravity lightDir r p r' :
  fair r ->
  Continuous.newPlant variety_ gravity lightDir r = Some (p, r') ->
  Continuous.age p = 0%Z /\
  thriving (-7) (Continuous.shoot p) /\ thriving (-7) (Continuous.root p).
Proof.
  intros Hr H. unfold Continuous.newPlant in H.
  run_step H. run_step H. run_step H. run_step H. run_step H.
  pose proof (keeps_fair _ _ _ _ keeps_random Hrun Hr) as Hr0.
  assert (Hr1 : fair r1).
  { destruct (Qgtb gravity 0).
    - run_step Hrun0. exact Hr0.
    - run_step Hrun0. run_step Hrun0.
      eapply keeps_fair; [apply keeps_random| |]; eauto. }
  pose proof (keeps_fair _ _ _ _ (keeps_continuous_new _ _ _ _ _ _) Hrun1 Hr1)
    as Hr2.
  assert (Hstart : forall s : Segment,
            generation s = 0%nat /\ length s = 0.1 /\ growing s = true /\
            branched s = false /\ 20 <= K s /\ K s < greatest_capacity ->
            thriving (-7) s).
  { intros s (Hg & HL & Hgr & _ & HK0 & HK1).
    unfold thriving. rewrite Hg, HL, Hgr.
    split; [lia|]. split; [exact HK0|]. split; [exact HK1|].
    split; [apply Qle_refl|]. split; [lra|]. split; [discriminate|].
    intros _. split; [lra|].
    unfold least_growth, longest_growth. vm_compute. discriminate. }
  cbn [Continuous.age Continuous.shoot Continuous.root].
  split; [reflexivity|]. split; apply Hstart.
  - eapply new_thriving; [exact Hr1|lia|exact Hrun1].
  - eapply new_thriving; [exact Hr2|lia|exact Hrun2].
Qed.

Lemma keeps_newPlant' variety_ gravity lightDir :
  keeps (newPlant variety_ gravity lightDir).
Proof.
  unfold newPlant. apply keeps_bind; [|intro; apply keeps_ret].
  unfold Continuous.newPlant.
  apply keeps_bind; [apply keeps_random|]. intro u.
  apply keeps_bind.
  { apply keeps_if; [apply keeps_ret|].
    apply keeps_bind; [apply keeps_random|]. intro. apply keeps_ret. }
  intro a.
  apply keeps_bind; [apply keeps_continuous_new|]. intro s1.
  apply keeps_bind; [apply keeps_continuous_new|]. intro s2.
  apply keeps_ret.
Qed.

Lemma keeps_update' gravity lightDir (p : Plant) :
  keeps (update Math_cos Math_sin gravity lightDir p).
Proof.
  unfold update. cbv zeta. apply keeps_if; [apply keeps_ret|].
  apply keeps_bind; [apply keeps_grow'|]. intro t1.
  apply keeps_bind; [apply keeps_grow'|]. intro t2. apply keeps_ret.
Qed.

(** After [age] ticks every segment of the plant is thriving at the count
    of the ticks of growth, which start with the eighth. *)
Lemma grown_thriving (p : Plant) :
  ContinuousGrowth.grown Math_cos Math_sin p ->
  Every (thriving (age p - 7)) (shoot p) /\
  Every (thriving (age p - 7)) (root p).
Proof.
  induction 1 as [v g l r p r' Hr H | p g l r p' r' Hp IH Hr H].
  - unfold newPlant in H. run_step H. run_step H.
    destruct (continuous_newPlant_thriving _ _ _ _ _ _ Hr Hrun)
      as (Hage & Hs & Hrt).
    cbn [age shoot root]. rewrite Hage.
    split; apply Every_unfold; cbn [seg children]; auto.
  - destruct IH as [IHs IHr].
    unfold update in H. cbv zeta in H.
    destruct (age p + 1 <? 8)%Z eqn:Hage.
    + run_step H. cbn [age shoot root].
      apply Z.ltb_lt in Hage.
      split; (eapply Every_impl; [|apply Nat.le_refl|eassumption]);
        intros s Hs; apply (thriving_early (age p - 7)); auto; lia.
    + run_step H. run_step H. run_step H. cbn [age shoot root].
      pose proof (keeps_fair _ _ _ _ (keeps_grow' _ _ _ _) Hrun Hr) as Hr0.
      replace (age p + 1 - 7)%Z with (age p - 7 + 1)%Z by lia.
      split.
      * eapply grow_thriving; [exact Hr|exact IHs|exact Hrun].
      * eapply grow_thriving; [exact Hr0|exact IHr|exact Hrun0].
Qed.

(** A thriving tree is fully grown when four spans of growth are over. *)
Lemma thriving_stopped (ticks : Z) (s : Segment) :
  (4 * longest_growth <= ticks)%Z -> thriving ticks s -> growing s = false.
Proof.
  intros Ht (Hg & HK0 & HK1 & HL0 & HL1 & _ & Hgrow).
  destruct (growing s) eqn:Hgr; [exfalso|reflexivity].
  destruct (Hgrow eq_refl) as [Hlt Htally].
  assert (Hq : 554616 <= inject_Z ticks).
  { change 554616 with (inject_Z (4 * longest_growth)).
    rewrite <- Zle_Qle. exact Ht. }
  assert (Hgen : inject_Z (Z.of_nat (generation s)) <= 3).
  { change 3 with (inject_Z 3). rewrite <- Zle_Qle. lia. }
  unfold least_growth, longest_growth, greatest_capacity in *.
  change (inject_Z 138654) with 138654 in *. lra.
Qed.

Lemma thriving_fully_grown (n : nat) :
  forall (ticks : Z) (t : Tree),
    (height t <= n)%nat ->
    (4 * longest_growth <= ticks)%Z ->
    Every (thriving ticks) t ->
    isFullyGrown t = true.
Proof.
  induction n as [|n IH]; intros ticks t Hh Ht Hall;
    apply Every_unfold in Hall; destruct Hall as [Hs Hkids];
    rewrite tree_isFullyGrown_unfold, (thriving_stopped ticks _ Ht Hs);
    apply forallb_forall; intros c Hc;
    pose proof (tree_height_child _ _ Hc); [lia|].
  rewrite Forall_forall in Hkids. apply (IH ticks); [lia|exact Ht|auto].
Qed.

(** X19.  In the variant with continuous curvature every segment stops
    growing: a plant grown from draws in [0, 1) is fully grown when its age
    is 554623 ticks or more (seven ticks of germination and four spans of
    138654 ticks, in each of which a growing segment gains at least
    0.0024875 of a capacity below 345). *)
Theorem continuous_plant_completes (p : Plant) :
  ContinuousGrowth.grown Math_cos Math_sin p ->
  (554623 <= age p)%Z ->
  plantFullyGrown p = true.
Proof.
  intros Hp Hage. destruct (grown_thriving p Hp) as [Hs Hr].
  unfold plantFullyGrown.
  rewrite (thriving_fully_grown _ (age p - 7) (shoot p) (Nat.le_refl _))
    by (unfold longest_growth; lia || exact Hs).
  rewrite (thriving_fully_grown _ (age p - 7) (root p) (Nat.le_refl _))
    by (unfold longest_growth; lia || exact Hr).
  reflexivity.
Qed.

(** X20.  In a plant of the variant grown from draws in [0, 1) every
    segment is of a generation up to the third, has a capacity [K] from
    20 to 345 and a length from 0.1 to [K]; a segment that grows is below
    0.996 of its capacity, and one that has stopped has reached 0.994 of
    it (the test of the code is at 0.995). *)
Theorem continuous_segment_within_capacity (p : Plant) (organ : Tree)
    (path : list nat) (s : Segment) :
  ContinuousGrowth.grown Math_cos Math_sin p ->
  organ = shoot p \/ organ = root p ->
  at_path path organ = Some s ->
  (generation s <= 3)%nat /\
  20 <= K s /\ K s <= 345 /\
  0.1 <= length s /\ length s <= K s /\
  (growing s = true -> length s < K s * 0.996) /\
  (growing s = false -> K s * 0.994 <= length s).
Proof.
  intros Hp Horgan Hat. destruct (grown_thriving p Hp) as [Hs Hr].
  assert (Hall : Every (thriving (age p - 7)) organ)
    by (destruct Horgan; subst; assumption).
  destruct (Every_at_path _ _ _ _ Hall Hat)
    as (Hg & HK0 & HK1 & HL0 & HL1 & Hstop & Hgrow).
  unfold greatest_capacity in HK1.
  split; [assumption|]. split; [assumption|].
  split; [apply Qlt_le_weak; assumption|].
  split; [assumption|]. split; [assumption|].
  split.
  - intro Hgr. destruct (Hgrow Hgr). lra.
  - intro Hst. specialize (Hstop Hst). lra.
Qed.

Lemma grown_tidy (p : Plant) :
  ContinuousGrowth.grown Math_cos Math_sin p ->
  EveryNode tidy (shoot p) /\ EveryNode tidy (root p).
Proof.
  induction 1 as [v g l r p r' Hr H | p g l r p' r' Hp IH Hr H].
  - unfold newPlant in H. run_step H. run_step H. cbn [shoot root].
    assert (Hleaf : forall s : Segment, EveryNode tidy (Node s [])).
    { intro s. apply EveryNode_unfold. cbn [children]. split; [|constructor].
      unfold tidy. cbn [seg children].
      split; [reflexivity|]. split; [simpl; destruct (_ =? _)%nat; lia|].
      split; [reflexivity|constructor]. }
    split; apply Hleaf.
  - destruct IH as [IHs IHr].
    destruct (grown_thriving p Hp) as [Hths Hthr].
    unfold update in H. cbv zeta in H.
    destruct (age p + 1 <? 8)%Z.
    + run_step H. cbn [shoot root]. auto.
    + run_step H. run_step H. run_step H. cbn [shoot root].
      pose proof (keeps_fair _ _ _ _ (keeps_grow' _ _ _ _) Hrun Hr) as Hr0.
      split.
      * eapply grow_tidy; [exact Hr|exact Hths|exact IHs|exact Hrun].
      * eapply grow_tidy; [exact Hr0|exact Hthr|exact IHr|exact Hrun0].
Qed.

(** X23.  In the variant with continuous curvature an organ of a plant
    grown from draws in [0, 1) never has more than six branches: its
    [branchCount()] is at most 6, and its first segment has at most two
    children. *)
Theorem continuous_organ_has_few_branches (p : Plant) (organ : Tree) :
  ContinuousGrowth.grown Math_cos Math_sin p ->
  organ = shoot p \/ organ = root p ->
  (branchCount organ <= 6)%nat /\ (List.length (children organ) <= 2)%nat.
Proof.
  intros Hp Horgan.
  destruct (grown_tidy p Hp) as [Hs Hr].
  destruct (grown_thriving p Hp) as [Hths Hthr].
  assert (Htidy : EveryNode tidy organ) by (destruct Horgan; subst; assumption).
  assert (Hth : Every (thriving (age p - 7)) organ)
    by (destruct Horgan; subst; assumption).
  pose proof (tidy_branchCount _ organ (Nat.le_refl _) Htidy) as Hcount.
  apply EveryNode_unfold in Htidy. destruct Htidy as [(_ & Hn & _) _].
  split.
  - destruct (generation (seg organ)) as [|[|[|g]]]; simpl in Hcount; lia.
  - destruct (generation (seg organ) =? 0)%nat; lia.
Qed.

(** [update] returns on a grown plant, and the plant is grown. *)
Lemma update_total' gravity lightDir (p : Plant) r :
  ContinuousGrowth.grown Math_cos Math_sin p -> fair r ->
  exists p' r',
    update Math_cos Math_sin gravity lightDir p r = Some (p', r') /\
    ContinuousGrowth.grown Math_cos Math_sin p' /\ age p' = (age p + 1)%Z /\ fair r'.
Proof.
  intros Hp Hr. destruct (grown_thriving p Hp) as [Hs Hrt].
  assert (H : exists p' r',
            update Math_cos Math_sin gravity lightDir p r = Some (p', r') /\
            age p' = (age p + 1)%Z).
  { unfold update. cbv zeta.
    destruct (age p + 1 <? 8)%Z; [unfold ret; eauto|].
    destruct (grow_total' (growFuel (shoot p)) _ gravity lightDir (shoot p) r
                Hr Hs) as (t1 & r1 & H1).
    { left. unfold growFuel. lia. }
    pose proof (keeps_fair _ _ _ _ (keeps_grow' _ _ _ _) H1 Hr) as Hr1.
    destruct (grow_total' (growFuel (root p)) _ gravity lightDir (root p) r1
                Hr1 Hrt) as (t2 & r2 & H2).
    { left. unfold growFuel. lia. }
    unfold bind. rewrite H1, H2. unfold ret. eauto. }
  destruct H as (p' & r' & H & Hage).
  exists p', r'. split; [exact H|]. split; [|split; [exact Hage|]].
  - eapply ContinuousGrowth.grown_update; eauto.
  - eapply keeps_fair; [apply keeps_update'|exact H|exact Hr].
Qed.

(** There is a grown plant of every age. *)
Lemma grown_of_age (n : nat) (variety_ : Variety) (gravity : Q)
    (lightDir : string) (r : Rand) :
  fair r ->
  exists p r', ContinuousGrowth.grown Math_cos Math_sin p /\ age p = Z.of_nat n /\ fair r'.
Proof.
  intro Hr. induction n as [|n IH].
  - destruct (ContinuousFacts.continuous_newPlant_total variety_ gravity
                lightDir r) as (p0 & r0 & Hnew).
    assert (H : newPlant variety_ gravity lightDir r
                = Some ({| variety_of := Continuous.plant_variety p0;
                           age := Continuous.age p0;
                           shoot := Node (Continuous.shoot p0) [];
                           root := Node (Continuous.root p0) [] |}, r0)).
    { unfold newPlant, bind. rewrite Hnew. reflexivity. }
    destruct (continuous_newPlant_thriving _ _ _ _ _ _ Hr Hnew) as (Hage & _).
    do 2 eexists. split; [eapply ContinuousGrowth.grown_new; [exact Hr|exact H]|].
    split; [exact Hage|].
    eapply keeps_fair; [apply keeps_newPlant'|exact H|exact Hr].
  - destruct IH as (p & r' & Hp & Hage & Hr').
    destruct (update_total' gravity lightDir p r' Hp Hr')
      as (p' & r'' & _ & Hp' & Hage' & Hr'').
    exists p', r''. split; [exact Hp'|]. split; [|exact Hr''].
    rewrite Hage', Hage. lia.
Qed.

End Trig.

(** A cress plant of 554623 ticks, drawn along the direction (3/5, 4/5). *)
Lemma continuous_plant_completes_witness :
  exists p : Plant,
    ContinuousGrowth.grown (fun _ => 3 # 5) (fun _ => 4 # 5) p /\
    (554623 <= age p)%Z /\
    plantFullyGrown p = true.
Proof.
  assert (Hfair : fair (constant_draws 0.5)).
  { apply constant_draws_fair; reflexivity || discriminate. }
  destruct (grown_of_age (fun _ => 3 # 5) (fun _ => 4 # 5)
              (N.to_nat 554623) cress 1 "left" (constant_draws 0.5) Hfair)
    as (p & r' & Hp & Hage & _).
  rewrite N_nat_Z in Hage.
  assert (Hold : (554623 <= age p)%Z) by (rewrite Hage; discriminate).
  exists p. split; [exact Hp|]. split; [exact Hold|].
  exact (continuous_plant_completes _ _ p Hp Hold).
Defined.

(** The shoot of a cress plant of 3000 ticks. *)
Lemma continuous_organ_has_few_branches_witness :
  exists p : Plant,
    ContinuousGrowth.grown (fun _ => 3 # 5) (fun _ => 4 # 5) p /\
    (branchCount (shoot p) <= 6)%nat /\
    (List.length (children (shoot p)) <= 2)%nat.
Proof.
  assert (Hfair : fair (constant_draws 0.5)).
  { apply constant_draws_fair; reflexivity || discriminate. }
  destruct (grown_of_age (fun _ => 3 # 5) (fun _ => 4 # 5)
              3000 cress 1 "left" (constant_draws 0.5) Hfair)
    as (p & r' & Hp & _ & _).
  exists p. split; [exact Hp|].
  exact (continuous_organ_has_few_branches _ _ p (shoot p) Hp
           (or_introl eq_refl)).
Defined.

(** The shoot of a cress plant of 100 ticks. *)
Lemma continuous_segment_within_capacity_witness :
  exists (p : Plant) (s : Segment),
    ContinuousGrowth.grown (fun _ => 3 # 5) (fun _ => 4 # 5) p /\
    at_path [] (shoot p) = Some s /\
    (generation s <= 3)%nat /\
    20 <= K s /\ K s <= 345 /\
    0.1 <= length s /\ length s <= K s /\
    (growing s = true -> length s < K s * 0.996) /\
    (growing s = false -> K s * 0.994 <= length s).
Proof.
  assert (Hfair : fair (constant_draws 0.5)).
  { apply constant_draws_fair; reflexivity || discriminate. }
  destruct (grown_of_age (fun _ => 3 # 5) (fun _ => 4 # 5)
              100 cress 1 "left" (constant_draws 0.5) Hfair)
    as (p & r' & Hp & _ & _).
  exists p, (seg (shoot p)).
  split; [exact Hp|]. split; [reflexivity|].
  exact (continuous_segment_within_capacity _ _ p (shoot p) [] (seg (shoot p))
           Hp (or_introl eq_refl) eq_refl).
Defined.

End ContinuousGrowthFacts.

(** ** Germination in the variant with continuous curvature *)

Module GerminationFacts.
Import Continuous Draws DrawFacts.

(** [a % 360] for [a] from 180 up to 540. *)
Lemma remainder_of_a_turn (a : Q) :
  180 <= a -> a < 540 ->
  (a < 360 -> remainder a 360 == a) /\
  (360 <= a -> remainder a 360 == a - 360).
Proof.
  intros Hlo Hhi. unfold remainder. cbv zeta.
  assert (Hq0 : 0 < a / 360) by (apply Qlt_shift_div_l; lra).
  destruct (Qlt_le_dec (a / 360) 0) as [Hneg|_]; [lra|].
  pose proof (Qfloor_le (a / 360)) as Hfl.
  pose proof (Qlt_floor (a / 360)) as Hfu.
  assert (Hm : a / 360 * 360 == a) by field.
  split; intro Ha.
  - assert (Hq1 : a / 360 < 1) by (apply Qlt_shift_div_r; lra).
    assert (Hz : Qfloor (a / 360) = 0%Z).
    { assert (H1 : (Qfloor (a / 360) < 1)%Z).
      { rewrite Zlt_Qlt. change (inject_Z 1) with 1. lra. }
      assert (H2 : (0 < Qfloor (a / 360) + 1)%Z).
      { rewrite Zlt_Qlt. change (inject_Z 0) with 0. lra. }
      lia. }
    rewrite Hz. change (inject_Z 0) with 0. ring.
  - assert (Hq1 : 1 <= a / 360) by (apply Qle_shift_div_l; lra).
    assert (Hq2 : a / 360 < 2) by (apply Qlt_shift_div_r; lra).
    assert (Hz : Qfloor (a / 360) = 1%Z).
    { assert (H1 : (Qfloor (a / 360) < 2)%Z).
      { rewrite Zlt_Qlt. change (inject_Z 2) with 2. lra. }
      assert (H2 : (1 < Qfloor (a / 360) + 1)%Z).
      { rewrite Zlt_Qlt. change (inject_Z 1) with 1. lra. }
      lia. }
    rewrite Hz. change (inject_Z 1) with 1. ring.
Qed.

(** X21.  In the variant with continuous curvature a plant germinates, on
    draws in [0, 1), with a shoot and a root that point in opposite
    directions: under gravity the shoot within 6 degrees of -90 and the
    root 180 degrees further; without gravity both from 0 to below 360 and
    180 degrees apart, up to the rounding of the sum [shootStart + 180]
    (less than a millionth of a degree). *)
Theorem continuous_germination_is_opposed (variety_ : Variety) (gravity : Q)
    (lightDir : string) (r : Rand) (p : Plant) (r' : Rand) :
  fair r ->
  newPlant variety_ gravity lightDir r = Some (p, r') ->
  (0 < gravity ->
   -96 <= angle (shoot p) /\ angle (shoot p) <= -84 /\
   angle (root p) == angle (shoot p) + 180) /\
  (gravity <= 0 ->
   (0 <= angle (shoot p) /\ angle (shoot p) < 360) /\
   (0 <= angle (root p) /\ angle (root p) < 360) /\
   Qabs (Qabs (angle (root p) - angle (shoot p)) - 180) <= 0.000001).
Proof.
  intros Hr H. unfold newPlant in H.
  run_step H. run_step H. run_step H. run_step H. run_step H.
  destruct (random_fair _ _ _ Hr Hrun) as (Hu0 & Hu1 & Hr0).
  apply ContinuousFacts.continuous_new_angle in Hrun1, Hrun2.
  cbn [shoot root]. rewrite Hrun1, Hrun2. rewrite !Qred_correct.
  clear Hrun1 Hrun2.
  destruct (Qgtb gravity 0) eqn:Hg.
  - apply Qltb_true in Hg. run_step Hrun0.
    split; [intros _; split; [lra|split; [lra|ring]]|].
    intro Hle. lra.
  - apply Qltb_false in Hg. run_step Hrun0. run_step Hrun0.
    match goal with Hv : Math_random r0 = Some (?v, _) |- _ =>
      destruct (random_fair _ _ _ Hr0 Hv) as (Hv0 & Hv1 & _);
      destruct (remainder_of_a_turn (v * 360 + 180)) as [Hsmall Hlarge];
        [lra|lra|];
      destruct (Qlt_le_dec (v * 360 + 180) 360) as [Hlt|Hge];
        [specialize (Hsmall Hlt); rewrite Hsmall;
         assert (Hd : v * 360 + 180 - v * 360 == 180) by ring
        |specialize (Hlarge Hge); rewrite Hlarge;
         assert (Hd : v * 360 + 180 - 360 - v * 360 == -180) by ring]
    end;
      (split; [intro; lra|]); intros _;
      (split; [split; lra|]); (split; [split; lra|]);
      rewrite Hd; discriminate.
Qed.

Lemma continuous_germination_is_opposed_witness :
  exists (p : Plant) (r' : Rand),
    fair (constant_draws 0.9) /\
    newPlant cress 0 "none" (constant_draws 0.9) = Some (p, r') /\
    (0 <= angle (shoot p) /\ angle (shoot p) < 360) /\
    (0 <= angle (root p) /\ angle (root p) < 360) /\
    Qabs (Qabs (angle (root p) - angle (shoot p)) - 180) <= 0.000001.
Proof.
  assert (Hfair : fair (constant_draws 0.9)).
  { apply constant_draws_fair; reflexivity || discriminate. }
  destruct (ContinuousFacts.continuous_newPlant_total cress 0 "none"
              (constant_draws 0.9)) as (p & r' & H).
  exists p, r'. split; [exact Hfair|]. split; [exact H|].
  apply (proj2 (continuous_germination_is_opposed cress 0 "none"
                  (constant_draws 0.9) p r' Hfair H)).
  discriminate.
Defined.

End GerminationFacts.

(** ** The live read-out *)

Module LiveDataFacts.
Import Segment LiveData.

Lemma updates_totalLength (n : nat) (gravity : Q) (lightDir : string) :
  forall (p : Plant.t) r p' r',
    Plant.updates n gravity lightDir p r = Some (p', r') ->
    totalLength (Plant.shoot p) <= totalLength (Plant.shoot p').
Proof.
  induction n as [|n IH]; intros p r p' r' Hrun; simpl in Hrun.
  - run_step Hrun. apply Qle_refl.
  - run_step Hrun.
    pose proof (OrganLength.update_totalLength Plant.shoot _ _ _ _ _ _
                  (or_introl eq_refl) Hrun0).
    pose proof (IH _ _ _ _ Hrun). lra.
Qed.

Lemma shoot_ratio (p : Plant.t) :
  reachable p ->
  (Qltb (length (Plant.shoot p) / targetLength (Plant.shoot p)) 0.05 = true
   <-> length (Plant.shoot p) < 0.6).
Proof.
  intro Hp.
  destruct (ShapeFacts.reachable_length_window p Hp) as [Hs _].
  apply TickFacts.All_unfold in Hs. destruct Hs as [(Ht & _) _].
  destruct (ShapeFacts.reachable_top_kind p Hp) as [Hroot _].
  rewrite Hroot in Ht. rewrite Ht.
  split.
  - intro H. apply Qltb_true in H.
    destruct (Qlt_le_dec (length (Plant.shoot p)) 0.6) as [|Hge]; [assumption|].
    exfalso.
    assert (0.05 <= length (Plant.shoot p) / 12).
    { apply Qle_shift_div_l; [reflexivity|]. lra. }
    lra.
  - intro H. apply Qltb_true. apply Qlt_shift_div_r; [reflexivity|]. lra.
Qed.

(** X22.  The growth phase that [updateLiveData] shows never goes back:
    over any number of [update] ticks of a reachable plant the phase stays
    or moves on in the order Germination, Early growth, Rapid growth,
    Maturation, Mature. *)
Theorem growth_phase_never_goes_back (n : nat) (gravity : Q)
    (lightDir : string) (p : Plant.t) (r : Rand) (p' : Plant.t) (r' : Rand) :
  reachable p ->
  Plant.updates n gravity lightDir p r = Some (p', r') ->
  (rank (growthPhase p) <= rank (growthPhase p'))%nat.
Proof.
  intros Hp Hrun.
  pose proof (PlantFacts.updates_reachable _ _ _ _ _ _ _ Hp Hrun) as Hp'.
  pose proof (updates_totalLength _ _ _ _ _ _ _ Hrun) as Htot.
  destruct (GrowthFacts.updates_at_path_evolves Plant.shoot n gravity lightDir
              p r p' r' [] (Plant.shoot p) (or_introl eq_refl) Hrun eq_refl)
    as (x' & Hx' & (_ & Hlen & _)).
  simpl in Hx'. inversion Hx'; subst x'; clear Hx'.
  pose proof (shoot_ratio p Hp) as Hratio.
  pose proof (shoot_ratio p' Hp') as Hratio'.
  unfold growthPhase. cbv zeta.
  destruct (Qltb (length (Plant.shoot p) / targetLength (Plant.shoot p)) 0.05)
    eqn:Hg; [simpl; lia|].
  destruct (Qltb (length (Plant.shoot p') / targetLength (Plant.shoot p')) 0.05)
    eqn:Hg'.
  { exfalso. destruct Hratio' as [Hr1 _]. specialize (Hr1 eq_refl).
    destruct Hratio as [_ Hr2].
    assert (Hno : false = true) by (apply Hr2; lra).
    discriminate. }
  clear Hratio Hratio' Hg Hg' Hlen.
  destruct (Qltb (totalLength (Plant.shoot p)) 40) eqn:H40;
    destruct (Qltb (totalLength (Plant.shoot p')) 40) eqn:H40';
    destruct (Qltb (totalLength (Plant.shoot p)) 120) eqn:H120;
    destruct (Qltb (totalLength (Plant.shoot p')) 120) eqn:H120';
    destruct (Qltb (totalLength (Plant.shoot p)) 200) eqn:H200;
    destruct (Qltb (totalLength (Plant.shoot p')) 200) eqn:H200';
    simpl; try lia;
    exfalso;
    repeat match goal with
           | H : Qltb _ _ = true |- _ => apply Qltb_true in H
           | H : Qltb _ _ = false |- _ => apply Qltb_false in H
           end; lra.
Qed.

(** The shoot that has branched, after 800 ticks, through 300 more: from
    Early growth to Rapid growth. *)
Lemma growth_phase_never_goes_back_witness :
  exists (p p' : Plant.t) (r' : Rand),
    run (constant_draws 0.1) cress 0 "none" 800 = Some p /\
    reachable p /\
    Plant.updates 300 1 "left" p (constant_draws 0.5) = Some (p', r') /\
    (rank (growthPhase p) <= rank (growthPhase p'))%nat.
Proof.
  pose proof PlantFacts.branching_run_800_eq as Hrun.
  unfold branching_run_800 in Hrun.
  match type of Hrun with _ = Some ?p0 => set (p := p0) in * end.
  assert (Hp : reachable p) by exact (PlantFacts.run_reachable _ _ _ _ _ _ Hrun).
  destruct (PlantFacts.updates_total 300 1 "left" p (constant_draws 0.5))
    as (p' & r' & Hup).
  exists p, p', r'. split; [exact Hrun|]. split; [exact Hp|].
  split; [exact Hup|].
  exact (growth_phase_never_goes_back 300 1 "left" p (constant_draws 0.5)
           p' r' Hp Hup).
Defined.

End LiveDataFacts.

(** ** Zooming *)

Module ZoomFacts.
Import Zoom.

Lemma clamp_in_range (v : Q) :
  0.5 <= Qmax 0.5 (Qmin 3.0 v) /\ Qmax 0.5 (Qmin 3.0 v) <= 3.
Proof.
  split; [apply Q.le_max_l|].
  apply Q.max_lub; [discriminate|].
  eapply Qle_trans; [apply Q.le_min_l|discriminate].
Qed.

(** What the two clamps make of a number that is finite or infinite. *)
Lemma clamp_of_a_number (a : Number) :
  a <> NaN ->
  exists v : Q,
    Math_max (Num 0.5) (Math_min (Num 3.0) a) = Num v /\
    0.5 <= v /\ v <= 3.
Proof.
  intro Ha. destruct a as [q | [|] |]; [| | |contradiction].
  - exists (Qmax 0.5 (Qmin 3.0 q)). split; [reflexivity|apply clamp_in_range].
  - exists 0.5. split; [reflexivity|]. split; discriminate.
  - exists 3.0. split; [reflexivity|]. split; discriminate.
Qed.

Lemma handle_in_range (z : t) (e : event) :
  has_a_scale e -> in_range z -> in_range (handle z e).
Proof.
  intros He (l & t_ & Hl & Ht & Htr & Hlr).
  destruct e as [ctrlKey deltaY | oldDist newDist | |]; cbn [handle].
  - unfold wheel. destruct ctrlKey; [exists l, t_; tauto|].
    destruct (clamp_of_a_number
                (add (targetLevel z)
                     (Num (if Qltb deltaY 0 then 0.1 else -0.1))))
      as (v & Hv & Hv0 & Hv1).
    { rewrite Ht. discriminate. }
    exists l, v. cbn [level targetLevel]. tauto.
  - unfold pinch. cbv zeta.
    destruct (clamp_of_a_number (mul (targetLevel z) (quotient newDist oldDist)))
      as (v & Hv & Hv0 & Hv1).
    { rewrite Ht. unfold quotient.
      destruct (Qis0 oldDist) eqn:Ho; [|discriminate].
      destruct (Qis0 newDist) eqn:Hn.
      - exfalso. apply He. unfold Qis0 in Ho, Hn.
        apply Qeq_bool_iff in Ho, Hn. split; assumption.
      - cbn [mul].
        assert (Hz : Qis0 t_ = false).
        { unfold Qis0. destruct (Qeq_bool t_ 0) eqn:E; [|reflexivity].
          apply Qeq_bool_iff in E. lra. }
        rewrite Hz. discriminate. }
    exists l, v. cbn [level targetLevel]. tauto.
  - exists (l + (t_ + - l) * 0.08), t_. unfold ease. rewrite Hl, Ht.
    cbn [level targetLevel sub opp add mul].
    split; [reflexivity|]. split; [reflexivity|].
    split; [tauto|]. split; lra.
  - exists 1, 1. cbn [level targetLevel init].
    split; [reflexivity|]. split; [reflexivity|].
    split; split; discriminate.
Qed.

Lemma fold_in_range (es : list event) :
  forall z, Forall has_a_scale es -> in_range z ->
            in_range (fold_left handle es z).
Proof.
  induction es as [|e es IH]; intros z Hes Hz; simpl; [exact Hz|].
  inversion Hes; subst.
  apply IH; [assumption|]. apply handle_in_range; assumption.
Qed.

(** X24.  Whatever the wheel, the pinch, the frames and the resets of a
    session do, the zoom level that is set and the zoom level that is
    drawn are numbers from 0.5 to 3, as long as no pinch is between two
    pairs of touches that both coincide (the quotient 0 / 0). *)
Theorem zoom_stays_in_range (es : list event) :
  Forall has_a_scale es ->
  exists l t_ : Q,
    level (after es) = Num l /\ targetLevel (after es) = Num t_ /\
    (0.5 <= t_ /\ t_ <= 3) /\ (0.5 <= l /\ l <= 3).
Proof.
  intro Hes. apply (fold_in_range es init Hes).
  exists 1, 1. cbn [level targetLevel init].
  split; [reflexivity|]. split; [reflexivity|].
  split; split; discriminate.
Qed.

(** A turn of the wheel, a pinch apart, a frame, a pinch that starts from
    coincident touches, a reset and a frame. *)
Lemma zoom_stays_in_range_witness :
  Forall has_a_scale
    [Wheel false (-1); Pinch 100 150; Frame; Pinch 0 10; Reset; Frame] /\
  exists l t_ : Q,
    level (after [Wheel false (-1); Pinch 100 150; Frame; Pinch 0 10;
                  Reset; Frame]) = Num l /\
    targetLevel (after [Wheel false (-1); Pinch 100 150; Frame; Pinch 0 10;
                        Reset; Frame]) = Num t_ /\
    (0.5 <= t_ /\ t_ <= 3) /\ (0.5 <= l /\ l <= 3).
Proof.
  assert (H : Forall has_a_scale
                [Wheel false (-1); Pinch 100 150; Frame; Pinch 0 10;
                 Reset; Frame]).
  { repeat constructor; simpl; intros [Ho Hn]; discriminate. }
  split; [exact H|].
  exact (zoom_stays_in_range _ H).
Defined.

(** A pinch between two pairs of coincident touches sets a level that is
    not a number, whatever the level was; the wheel, a further pinch and
    the frames keep it so, and the level that is drawn follows with the
    next frame.  [resetExperiment] sets both to 1 again. *)
Lemma coincident_pinch_is_not_a_number (z : t) :
  targetLevel (pinch 0 0 z) = NaN.
Proof.
  unfold pinch, quotient. cbv zeta. cbn [targetLevel].
  change (Qis0 0) with true. cbv iota.
  destruct (targetLevel z) as [q | s |]; reflexivity.
Qed.

Lemma not_a_number_stays (z : t) (e : event) :
  targetLevel z = NaN ->
  e <> Reset ->
  targetLevel (handle z e) = NaN /\
  (e = Frame -> level (handle z e) = NaN).
Proof.
  intros Hz He.
  destruct e as [ctrlKey deltaY | oldDist newDist | |]; cbn [handle].
  - split; [|discriminate]. unfold wheel.
    destruct ctrlKey; [exact Hz|]. cbn [targetLevel]. rewrite Hz. reflexivity.
  - split; [|discriminate]. unfold pinch. cbv zeta. cbn [targetLevel].
    rewrite Hz. reflexivity.
  - unfold ease. cbn [targetLevel level]. rewrite Hz.
    split; [reflexivity|]. intros _.
    destruct (level z) as [q | s |]; reflexivity.
  - contradiction.
Qed.

Lemma ease_of_numbers (z : t) (l t_ : Q) :
  level z = Num l -> targetLevel z = Num t_ ->
  level (ease z) = Num (l + (t_ + - l) * 0.08) /\
  targetLevel (ease z) = Num t_.
Proof.
  intros Hl Ht. unfold ease. rewrite Hl, Ht. split; reflexivity.
Qed.

Lemma gap_factor_bounds (n : nat) :
  0 < gap_factor n /\
  gap_factor n * (1 + 0.08 * inject_Z (Z.of_nat n)) <= 1.
Proof.
  induction n as [|n [IH0 IH1]].
  - split; [reflexivity|]. simpl. discriminate.
  - cbn [gap_factor]. split; [lra|].
    rewrite Nat2Z.inj_succ. unfold Z.succ. rewrite inject_Z_plus.
    change (inject_Z 1) with 1.
    assert (Hn : 0 <= inject_Z (Z.of_nat n)).
    { change 0 with (inject_Z 0). rewrite <- Zle_Qle. lia. }
    nra.
Qed.

Lemma frames_of_numbers (n : nat) :
  forall (z : t) (l t_ : Q),
    level z = Num l -> targetLevel z = Num t_ ->
    exists l' : Q,
      level (frames n z) = Num l' /\ targetLevel (frames n z) = Num t_ /\
      l' - t_ == gap_factor n * (l - t_).
Proof.
  induction n as [|n IH]; intros z l t_ Hl Ht.
  - exists l. cbn [frames gap_factor]. split; [exact Hl|].
    split; [exact Ht|]. ring.
  - destruct (ease_of_numbers z l t_ Hl Ht) as [Hl1 Ht1].
    destruct (IH (ease z) _ t_ Hl1 Ht1) as (l' & Hl' & Ht' & Hgap).
    exists l'. cbn [frames gap_factor]. split; [exact Hl'|].
    split; [exact Ht'|]. rewrite Hgap. ring.
Qed.

(** X25.  The frames close the gap between the zoom level that is drawn
    and the level that is set, 8 percent of it with each frame: from
    levels within the limits, after [n] frames without an event the gap is
    at most 0.92 to the [n] times what it was, up to a billionth for the
    rounding, and the level that is set is as it was; 0.92 to the [n] is
    at most [1 / (1 + 0.08 n)]. *)
Theorem frames_close_the_gap (n : nat) (z : t) :
  in_range z ->
  exists l t_ l' : Q,
    level z = Num l /\ targetLevel z = Num t_ /\
    level (frames n z) = Num l' /\ targetLevel (frames n z) = Num t_ /\
    Qabs (l' - t_) <= gap_factor n * Qabs (l - t_) + 0.000000001 /\
    0 < gap_factor n /\
    gap_factor n * (1 + 0.08 * inject_Z (Z.of_nat n)) <= 1.
Proof.
  intros (l & t_ & Hl & Ht & _ & _).
  destruct (frames_of_numbers n z l t_ Hl Ht) as (l' & Hl' & Ht' & Hgap).
  destruct (gap_factor_bounds n) as [Hg0 Hg1].
  exists l, t_, l'.
  split; [exact Hl|]. split; [exact Ht|]. split; [exact Hl'|].
  split; [exact Ht'|]. split; [|split; assumption].
  rewrite Hgap, Qabs_Qmult, (Qabs_pos (gap_factor n)) by lra.
  pose proof (Qabs_nonneg (l - t_)) as Hnn.
  assert (Hp : 0 <= gap_factor n * Qabs (l - t_)) by nra.
  lra.
Qed.

(** From the level 1 at load to the level 3 that was set, in 100 frames. *)
Lemma frames_close_the_gap_witness :
  in_range {| level := Num 1; targetLevel := Num 3 |} /\
  exists l t_ l' : Q,
    level {| level := Num 1; targetLevel := Num 3 |} = Num l /\
    targetLevel {| level := Num 1; targetLevel := Num 3 |} = Num t_ /\
    level (frames 100 {| level := Num 1; targetLevel := Num 3 |}) = Num l' /\
    targetLevel (frames 100 {| level := Num 1; targetLevel := Num 3 |})
    = Num t_ /\
    Qabs (l' - t_) <= gap_factor 100 * Qabs (l - t_) + 0.000000001 /\
    0 < gap_factor 100 /\
    gap_factor 100 * (1 + 0.08 * inject_Z (Z.of_nat 100)) <= 1.
Proof.
  assert (H : in_range {| level := Num 1; targetLevel := Num 3 |}).
  { exists 1, 3. cbn [level targetLevel].
    split; [reflexivity|]. split; [reflexivity|].
    split; split; discriminate. }
  split; [exact H|].
  exact (frames_close_the_gap 100 _ H).
Defined.

End ZoomFacts.

(** ** A shoot that has branched *)

Module UnboundedGrowth.
Import Segment.

(** No segment grows by less than 0.04375 in a tick: the rate that a branch
    of the slowest root would have. *)
Lemma least_increment (s : t) : 0.04375 <= increment s.
Proof.
  unfold increment.
  destruct (variety s), (isRoot s), (isBranch s); vm_compute; discriminate.
Qed.

(** From the eighth tick on [update] grows the shoot. *)
Lemma update_grows_shoot gravity lightDir (p : Plant.t) r p' r' :
  (7 <= Plant.age p)%Z ->
  Plant.update gravity lightDir p r = Some (p', r') ->
  Plant.age p' = (Plant.age p + 1)%Z /\
  exists r1,
    grow (growFuel (Plant.shoot p)) [] gravity lightDir
         (totalLength (Plant.shoot p)) (Plant.maxShootLength p)
         (Plant.shoot p) r = Some (Plant.shoot p', r1).
Proof.
  intros Hage Hup. unfold Plant.update in Hup.
  destruct (Plant.age p + 1 <? 8)%Z eqn:Hlt; [apply Z.ltb_lt in Hlt; lia|].
  run_step Hup. run_step Hup. run_step Hup. simpl. split; eauto.
Qed.

(** X26.  A shoot whose first segment has a child while it is still active
    grows without bound: from the eighth tick on every [update] makes the
    whole shoot longer by at least 0.04375, so [n] ticks make it longer by at
    least [n] times that, whatever the limit of the variety. *)
Theorem branched_shoot_grows_without_bound (n : nat) (gravity : Q)
    (lightDir : string) :
  forall (p : Plant.t) (r : Rand) (p' : Plant.t) (r' : Rand),
    growing (Plant.shoot p) = true ->
    children (Plant.shoot p) <> [] ->
    (7 <= Plant.age p)%Z ->
    Plant.updates n gravity lightDir p r = Some (p', r') ->
    totalLength (Plant.shoot p) + inject_Z (Z.of_nat n) * 0.04375
    <= totalLength (Plant.shoot p').
Proof.
  induction n as [|n IH]; intros p r p' r' Hg Hkids Hage Hrun; simpl in Hrun.
  - run_step Hrun. change (inject_Z (Z.of_nat 0)) with 0. lra.
  - run_step Hrun.
    destruct (update_grows_shoot _ _ _ _ _ _ Hage Hrun0) as (Hage1 & r1 & Hs).
    destruct (Properties.grow_with_child _ _ _ _ _ _ _ _ _ _ Hs Hg Hkids)
      as [Hg1 Hk1].
    destruct (OrganLength.grow_totalLength _ 0.04375 _ _ _ _ _ _ _ _ _ Hs)
      as [_ Hstep].
    assert (Hone : totalLength (Plant.shoot p) + 0.04375
                   <= totalLength (Plant.shoot a)).
    { apply Hstep.
      - intros path x _. apply least_increment.
      - rewrite Properties.isFullyGrown_unfold, Hg. reflexivity. }
    assert (Hrest := IH a r0 p' r' Hg1 Hk1 ltac:(lia) Hrun).
    rewrite Nat2Z.inj_succ. unfold Z.succ. rewrite inject_Z_plus.
    change (inject_Z 1) with 1. lra.
Qed.

(** The cress shoot that branched on its first occasion, 800 ticks old,
    through 2000 more: at least 87.5 longer. *)
Lemma branched_shoot_grows_without_bound_witness :
  exists (p p' : Plant.t) (r' : Rand),
    run (constant_draws 0.1) cress 0 "none" 800 = Some p /\
    growing (Plant.shoot p) = true /\
    children (Plant.shoot p) <> [] /\
    (7 <= Plant.age p)%Z /\
    Plant.updates 2000 0 "none" p (constant_draws 0.1) = Some (p', r') /\
    totalLength (Plant.shoot p) + inject_Z (Z.of_nat 2000) * 0.04375
    <= totalLength (Plant.shoot p').
Proof.
  pose proof PlantFacts.branching_run_800_eq as Hrun.
  unfold branching_run_800 in Hrun.
  match type of Hrun with _ = Some ?p0 => set (p := p0) in * end.
  assert (Hg : growing (Plant.shoot p) = true) by reflexivity.
  assert (Hk : children (Plant.shoot p) <> []) by discriminate.
  assert (Ha : (7 <= Plant.age p)%Z) by (vm_compute; discriminate).
  destruct (PlantFacts.updates_total 2000 0 "none" p (constant_draws 0.1))
    as (p' & r' & Hup).
  exists p, p', r'. repeat (split; [assumption|]).
  exact (branched_shoot_grows_without_bound 2000 0 "none" p
           (constant_draws 0.1) p' r' Hg Hk Ha Hup).
Defined.

End UnboundedGrowth.
